(** * Matchmaking coordinator of Conquest_TS-ECS

    A shallow embedding of [MatchmakingService] (ECS/services.ts): the shared
    document store with its two collections, the per-client service object,
    and the asynchronous methods of the service as computations in a small
    state-and-exception monad.  An [await] is a sequencing point of the
    monad; what another client does in between is modelled at the level of
    [System] steps (section "Two clients"). *)

From stdpp Require Import gmap strings list fin_maps pretty.
From Stdlib Require Import ZArith Lia Ascii.

Open Scope Z_scope.

(** ** JavaScript values *)

Module JS.

(** A numeric field of a document: [None] is a missing field
    ([undefined]).  A number is truthy when it is not 0. *)
Definition truthy (n : option Z) : bool :=
  match n with
  | Some v => negb (v =? 0)
  | None => false
  end.

(** [a || b] on two possibly missing numbers. *)
Definition or_num (a b : option Z) : option Z :=
  if truthy a then a else b.

(** [a || k] with a numeric literal on the right. *)
Definition or_lit (a : option Z) (k : Z) : Z :=
  match a with
  | Some v => if v =? 0 then k else v
  | None => k
  end.

(** [n++] on a counter held in a number: the integers up to 2^53 are
    exact, and 2^53 + 1 rounds back to 2^53, so the counter stops there. *)
Definition maxExact : Z := 2 ^ 53.

Definition increment (n : Z) : Z :=
  if n <? maxExact then n + 1 else n.

(** [a || b] on strings: the empty string is falsy. *)
Definition or_str (a b : string) : string :=
  if bool_decide (a = "") then b else a.

(** A string field of a document: [None] is a missing field
    ([undefined]); [undefined] and the empty string are falsy. *)
Definition truthy_str (s : option string) : bool :=
  match s with
  | Some v => negb (bool_decide (v = ""))
  | None => false
  end.

(** [a || b] on two possibly missing strings. *)
Definition or_opt (a b : option string) : option string :=
  if truthy_str a then a else b.

(** [now - x]: arithmetic on [undefined] gives NaN, modelled by [None]. *)
Definition minus (now : Z) (x : option Z) : option Z :=
  match x with
  | Some v => Some (now - v)
  | None => None
  end.

(** [x > k]: every comparison with NaN is false. *)
Definition gt (x : option Z) (k : Z) : bool :=
  match x with
  | Some v => k <? v
  | None => false
  end.

(** [s.split('@')[0]] *)
Fixpoint before_at (s : string) : string :=
  match s with
  | EmptyString => EmptyString
  | String c r => if Ascii.eqb c "@"%char then EmptyString else String c (before_at r)
  end.

End JS.

(** ** Data model *)

(** The data of a document of the [matchmaking_queue] collection, as
    [addDoc] and [updateDoc] write it.  A document read from the store may
    lack a field: [userId], [username], [rating], [timestamp] and
    [lastHeartbeat] are [None] then. *)
Record QueueDoc := mkQueueDoc {
  qd_userId : option string;
  qd_username : option string;
  qd_rating : option Z;
  qd_timestamp : option Z;
  qd_status : string;
  qd_lastHeartbeat : option Z;
  qd_sessionId : string
}.

(** [interface QueuePlayer]: the caller's cached copy of a queue entry. *)
Record QueuePlayer := mkQueuePlayer {
  qp_id : string;
  qp_userId : option string;
  qp_username : option string;
  qp_rating : Z;
  qp_timestamp : option Z;
  qp_status : string
}.

(** [interface MatchmakingPlayer]; a field of the object literal that the
    transaction builds is [None] when the expression it is built from is
    [undefined]. *)
Record MatchmakingPlayer := mkPlayer {
  mp_userId : option string;
  mp_username : option string;
  mp_rating : option Z;
  mp_timestamp : option Z
}.

Inductive MatchStatus := waiting | ready | in_progress | completed.

(** [Omit<Match, 'id'>]: the data of a document of the [matches]
    collection; the id is the key of the document. *)
Record MatchData := mkMatchData {
  m_player1 : MatchmakingPlayer;
  m_player2 : MatchmakingPlayer;
  m_status : MatchStatus;
  m_createdAt : option Z
}.

(** [interface Match] *)
Definition Match : Type := string * MatchData.

(** The authenticated principal ([auth.currentUser]). *)
Record User := mkUser {
  uid : string;
  email : option string
}.

Global Instance MatchStatus_eq_dec : EqDecision MatchStatus.
Proof. solve_decision. Defined.

(** [user.email?.split('@')[0] || 'Player'] *)
Definition displayName (u : User) : string :=
  match email u with
  | Some e => JS.or_str (JS.before_at e) "Player"
  | None => "Player"
  end.

(** ** The shared store *)

(** The queries of the queue collection: [query(queueRef)] of the cleanup
    pass, [where('userId', '==', uid), where('status', '==', 'searching')]
    of [upsertQueueEntry], and [where('status', '==', 'searching')] of the
    scan. *)
Inductive QueueQuery :=
| AllEntries
| OwnSearching (userId : string)
| AllSearching.

Inductive StoreOp :=
| OpGetQueue (id : string)
| OpQueryQueue (q : QueueQuery)
| OpQueryMatches
| OpAddQueue
| OpUpdateQueue (id : string)
| OpDeleteQueue (id : string)
| OpDeleteMatch (id : string)
| OpTransaction.

(** A thrown value: Firestore errors carry a [code], [new Error(msg)] only a
    message. *)
Record Error := mkError {
  err_code : string;
  err_message : string
}.

Definition jsError (msg : string) : Error := mkError "" msg.

(** The remote store as one client sees it: the two collections, the clock
    that [Date.now()] reads, and [fault], which says which requests of this
    client the store refuses (security rules, contention, transport) and
    with which error. *)
Record World := mkWorld {
  queue : gmap string QueueDoc;
  matches : gmap string MatchData;
  clock : Z;
  fault : StoreOp -> option Error
}.

Definition noFault : StoreOp -> option Error := fun _ => None.

Definition permissionDenied : Error := mkError "permission-denied" "Missing or insufficient permissions.".

(** ** The service object and the browser around it *)

(** A listener field holds a closure that cancels subscriptions; the
    closure is represented by the subscriptions it cancels. *)
Definition Unsubscribe : Type := list nat.

Record Service := mkService {
  currentQueueId : option string;
  currentUserId : option string;
  matchListener : option Unsubscribe;
  queueListener : option Unsubscribe;
  isMatched : bool;
  heartbeatInterval : option nat;
  isJoiningQueue : bool;
  isCreatingMatch : bool;
  joinedAt : option Z;
  suppressPermissionWarnings : bool
}.

(** The callback handed to [onSnapshot].  A match callback closes over
    [joinedAt] and over the variable [hasFoundMatch], which the two match
    callbacks of one [setupMatchListeners] call share: the variable is a
    cell of [cells].  A queue callback closes over [userId] (and over its
    own subscription). *)
Inductive Callback :=
| MatchCallback (joinedAt : Z) (hasFoundMatch : nat)
| QueueCallback (userId : string).

(** What the service touches outside itself and the store: the identity
    provider, the interval timers that run, the snapshot subscriptions that
    are active with their callbacks, the variables the callbacks share, and
    the calls made to the two callbacks of [joinQueue]. *)
Record Runtime := mkRuntime {
  auth_currentUser : option User;
  timers : gset nat;
  subscriptions : gmap nat Callback;
  cells : gmap nat bool;
  onMatchFound_calls : list Match;
  onError_calls : list string
}.

Record State := mkState {
  svc : Service;
  rt : Runtime;
  world : World
}.

Definition initialService : Service :=
  mkService None None None None false None false false None false.

(** Field updates *)

Definition set_currentQueueId (v : option string) (s : Service) : Service :=
  mkService v (currentUserId s) (matchListener s) (queueListener s) (isMatched s)
    (heartbeatInterval s) (isJoiningQueue s) (isCreatingMatch s) (joinedAt s)
    (suppressPermissionWarnings s).

Definition set_currentUserId (v : option string) (s : Service) : Service :=
  mkService (currentQueueId s) v (matchListener s) (queueListener s) (isMatched s)
    (heartbeatInterval s) (isJoiningQueue s) (isCreatingMatch s) (joinedAt s)
    (suppressPermissionWarnings s).

Definition set_matchListener (v : option Unsubscribe) (s : Service) : Service :=
  mkService (currentQueueId s) (currentUserId s) v (queueListener s) (isMatched s)
    (heartbeatInterval s) (isJoiningQueue s) (isCreatingMatch s) (joinedAt s)
    (suppressPermissionWarnings s).

Definition set_queueListener (v : option Unsubscribe) (s : Service) : Service :=
  mkService (currentQueueId s) (currentUserId s) (matchListener s) v (isMatched s)
    (heartbeatInterval s) (isJoiningQueue s) (isCreatingMatch s) (joinedAt s)
    (suppressPermissionWarnings s).

Definition set_isMatched (v : bool) (s : Service) : Service :=
  mkService (currentQueueId s) (currentUserId s) (matchListener s) (queueListener s) v
    (heartbeatInterval s) (isJoiningQueue s) (isCreatingMatch s) (joinedAt s)
    (suppressPermissionWarnings s).

Definition set_heartbeatInterval (v : option nat) (s : Service) : Service :=
  mkService (currentQueueId s) (currentUserId s) (matchListener s) (queueListener s)
    (isMatched s) v (isJoiningQueue s) (isCreatingMatch s) (joinedAt s)
    (suppressPermissionWarnings s).

Definition set_isJoiningQueue (v : bool) (s : Service) : Service :=
  mkService (currentQueueId s) (currentUserId s) (matchListener s) (queueListener s)
    (isMatched s) (heartbeatInterval s) v (isCreatingMatch s) (joinedAt s)
    (suppressPermissionWarnings s).

Definition set_isCreatingMatch (v : bool) (s : Service) : Service :=
  mkService (currentQueueId s) (currentUserId s) (matchListener s) (queueListener s)
    (isMatched s) (heartbeatInterval s) (isJoiningQueue s) v (joinedAt s)
    (suppressPermissionWarnings s).

Definition set_joinedAt (v : option Z) (s : Service) : Service :=
  mkService (currentQueueId s) (currentUserId s) (matchListener s) (queueListener s)
    (isMatched s) (heartbeatInterval s) (isJoiningQueue s) (isCreatingMatch s) v
    (suppressPermissionWarnings s).

Definition set_suppressPermissionWarnings (v : bool) (s : Service) : Service :=
  mkService (currentQueueId s) (currentUserId s) (matchListener s) (queueListener s)
    (isMatched s) (heartbeatInterval s) (isJoiningQueue s) (isCreatingMatch s)
    (joinedAt s) v.

Definition set_queue (q : gmap string QueueDoc) (w : World) : World :=
  mkWorld q (matches w) (clock w) (fault w).

Definition set_matches (m : gmap string MatchData) (w : World) : World :=
  mkWorld (queue w) m (clock w) (fault w).

Definition set_clock (t : Z) (w : World) : World :=
  mkWorld (queue w) (matches w) t (fault w).

Definition set_fault (f : StoreOp -> option Error) (w : World) : World :=
  mkWorld (queue w) (matches w) (clock w) f.

Definition set_timers (t : gset nat) (r : Runtime) : Runtime :=
  mkRuntime (auth_currentUser r) t (subscriptions r) (cells r) (onMatchFound_calls r)
    (onError_calls r).

Definition set_subscriptions (t : gmap nat Callback) (r : Runtime) : Runtime :=
  mkRuntime (auth_currentUser r) (timers r) t (cells r) (onMatchFound_calls r)
    (onError_calls r).

Definition set_cells (c : gmap nat bool) (r : Runtime) : Runtime :=
  mkRuntime (auth_currentUser r) (timers r) (subscriptions r) c (onMatchFound_calls r)
    (onError_calls r).

Definition set_auth (u : option User) (r : Runtime) : Runtime :=
  mkRuntime u (timers r) (subscriptions r) (cells r) (onMatchFound_calls r)
    (onError_calls r).

Definition log_onMatchFound (m : Match) (r : Runtime) : Runtime :=
  mkRuntime (auth_currentUser r) (timers r) (subscriptions r) (cells r)
    (m :: onMatchFound_calls r) (onError_calls r).

Definition log_onError (e : string) (r : Runtime) : Runtime :=
  mkRuntime (auth_currentUser r) (timers r) (subscriptions r) (cells r)
    (onMatchFound_calls r) (e :: onError_calls r).

(** ** The monad of the service's methods *)

Inductive Result (A : Type) :=
| Ok (a : A)
| Throw (e : Error).
Arguments Ok {A} a.
Arguments Throw {A} e.

(** A method runs on the state of its client and of the store and either
    returns or throws; what it wrote before throwing stays written. *)
Definition M (A : Type) : Type := State -> Result A * State.

Definition ret {A} (a : A) : M A := fun st => (Ok a, st).

Definition bind {A B} (m : M A) (k : A -> M B) : M B :=
  fun st =>
    match m st with
    | (Ok a, st') => k a st'
    | (Throw e, st') => (Throw e, st')
    end.

Definition throw {A} (e : Error) : M A := fun st => (Throw e, st).

(** [try { m } catch (e) { h e }] *)
Definition try_catch {A} (m : M A) (h : Error -> M A) : M A :=
  fun st =>
    match m st with
    | (Ok a, st') => (Ok a, st')
    | (Throw e, st') => h e st'
    end.

(** [try { m } finally { f }] *)
Definition try_finally {A} (m : M A) (f : M unit) : M A :=
  fun st =>
    match m st with
    | (r, st') =>
        match f st' with
        | (Ok _, st'') => (r, st'')
        | (Throw e, st'') => (Throw e, st'')
        end
    end.

Declare Scope svc_scope.
Delimit Scope svc_scope with svc.
Notation "x <- m ;; k" := (bind m (fun x => k))
  (at level 100, m at next level, right associativity) : svc_scope.
Notation "m ;;; k" := (bind m (fun _ => k))
  (at level 100, right associativity) : svc_scope.
Open Scope svc_scope.

Definition this : M Service := fun st => (Ok (svc st), st).

Definition update (f : Service -> Service) : M unit :=
  fun st => (Ok tt, mkState (f (svc st)) (rt st) (world st)).

Definition runtime : M Runtime := fun st => (Ok (rt st), st).

Definition update_rt (f : Runtime -> Runtime) : M unit :=
  fun st => (Ok tt, mkState (svc st) (f (rt st)) (world st)).

Definition theWorld : M World := fun st => (Ok (world st), st).

Definition update_world (f : World -> World) : M unit :=
  fun st => (Ok tt, mkState (svc st) (rt st) (f (world st))).

(** [Date.now()]: the clock moves when a method sleeps and between the
    events of a system, not while a method runs. *)
Definition Date_now : M Z := fun st => (Ok (clock (world st)), st).

(** [await new Promise(resolve => setTimeout(resolve, ms))] *)
Definition sleep (ms : Z) : M unit :=
  update_world (fun w => set_clock (clock w + ms) w).

(** The store answers a request, or refuses it with the error [fault]
    gives. *)
Definition request {A} (op : StoreOp) (answer : M A) : M A :=
  w <- theWorld ;;
  match fault w op with
  | Some e => throw e
  | None => answer
  end.

(** ** Store operations *)

Definition searching : string := "searching".

(** [getDoc(doc(queueRef, id))]: the snapshot, [None] when the document
    does not exist. *)
Definition getDoc (id : string) : M (option QueueDoc) :=
  request (OpGetQueue id) (w <- theWorld ;; ret (queue w !! id)).

(** The documents a query selects. *)
Definition selects (q : QueueQuery) (d : QueueDoc) : bool :=
  match q with
  | AllEntries => true
  | OwnSearching userId =>
      bool_decide (qd_userId d = Some userId) && bool_decide (qd_status d = searching)
  | AllSearching => bool_decide (qd_status d = searching)
  end.

(** [getDocs(query(queueRef, where ...))] *)
Definition getDocs (q : QueueQuery) : M (list (string * QueueDoc)) :=
  request (OpQueryQueue q)
    (w <- theWorld ;; ret (List.filter (fun ds => selects q (snd ds)) (map_to_list (queue w)))).

(** [getDocs(query(matchesRef, where ...))] *)
Definition getDocs_matches (p : MatchData -> bool) : M (list (string * MatchData)) :=
  request OpQueryMatches
    (w <- theWorld ;; ret (List.filter (fun ds => p (snd ds)) (map_to_list (matches w)))).

(** [addDoc(queueRef, data)]: the store picks an id that is not in use
    (and not empty). *)
Definition addDoc (data : QueueDoc) : M string :=
  request OpAddQueue
    (w <- theWorld ;;
     let id := fresh ({[""]} ∪ dom (queue w)) in
     update_world (set_queue (<[id := data]> (queue w))) ;;;
     ret id).

(** [updateDoc(doc(queueRef, id), fields)] fails on a document that does
    not exist. *)
Definition updateDoc (id : string) (fields : QueueDoc -> QueueDoc) : M unit :=
  request (OpUpdateQueue id)
    (w <- theWorld ;;
     match queue w !! id with
     | Some d => update_world (set_queue (<[id := fields d]> (queue w)))
     | None => throw (mkError "not-found" "No document to update")
     end).

(** [deleteDoc(doc(queueRef, id))] *)
Definition deleteDoc (id : string) : M unit :=
  request (OpDeleteQueue id)
    (update_world (fun w => set_queue (delete id (queue w)) w)).

(** [deleteDoc(doc(matchesRef, id))] *)
Definition deleteDoc_match (id : string) : M unit :=
  request (OpDeleteMatch id)
    (update_world (fun w => set_matches (delete id (matches w)) w)).

(** [doc(matchesRef)]: a reference with an automatic id. *)
Definition newMatchRef : M string :=
  w <- theWorld ;; ret (fresh (dom (matches w))).

(** Inside a transaction: [transaction.get], [transaction.set],
    [transaction.delete]. *)
Definition transaction_get (id : string) : M (option QueueDoc) :=
  w <- theWorld ;; ret (queue w !! id).

(** The SDK validates the data handed to [set]: [db] is created by
    [getFirestore(app)], without [ignoreUndefinedProperties], so a field
    that is [undefined] makes [set] throw. *)
Definition definedPlayer (p : MatchmakingPlayer) : bool :=
  bool_decide (is_Some (mp_userId p)) && bool_decide (is_Some (mp_username p))
  && bool_decide (is_Some (mp_rating p)) && bool_decide (is_Some (mp_timestamp p)).

Definition definedFields (data : MatchData) : bool :=
  definedPlayer (m_player1 data) && definedPlayer (m_player2 data)
  && bool_decide (is_Some (m_createdAt data)).

Definition transaction_set (id : string) (data : MatchData) : M unit :=
  if definedFields data
  then update_world (fun w => set_matches (<[id := data]> (matches w)) w)
  else throw (mkError "invalid-argument" "Unsupported field value: undefined").

Definition transaction_delete (id : string) : M unit :=
  update_world (fun w => set_queue (delete id (queue w)) w).

(** [runTransaction(db, body)]: the reads and writes of [body] take effect
    as one atomic unit; when [body] throws, or the store gives up
    (contention, rules), nothing is written and the error is thrown to the
    caller. *)
Definition runTransaction (body : M unit) : M unit :=
  request OpTransaction
    (fun st =>
       match body st with
       | (Ok a, st') => (Ok a, st')
       | (Throw e, st') => (Throw e, mkState (svc st') (rt st') (world st))
       end).

(** [onSnapshot(query, callback, onError)] registers the callback and
    returns the handle that cancels it. *)
Definition onSnapshot (cb : Callback) : M nat :=
  r <- runtime ;;
  let id := fresh (dom (subscriptions r)) in
  update_rt (set_subscriptions (<[id := cb]> (subscriptions r))) ;;;
  ret id.

(** Calling the closure kept in a listener field. *)
Definition unsubscribe (u : Unsubscribe) : M unit :=
  update_rt (fun r => set_subscriptions (foldr delete (subscriptions r) u) r).

(** Truthiness of [string | null]. *)
Definition is_set (o : option string) : bool :=
  match o with
  | Some s => negb (bool_decide (s = ""))
  | None => false
  end.

(** ** The methods of [MatchmakingService] *)

(** [now - (data.lastHeartbeat || data.timestamp || 0)] *)
Definition entryAge (now : Z) (data : QueueDoc) : Z :=
  now - JS.or_lit (JS.or_num (qd_lastHeartbeat data) (qd_timestamp data)) 0.

Definition stopHeartbeat : M unit :=
  s <- this ;;
  match heartbeatInterval s with
  | Some t =>
      update_rt (fun r => set_timers (timers r ∖ {[t]}) r) ;;;
      update (set_heartbeatInterval None)
  | None => ret tt
  end.

Definition cleanup : M unit :=
  stopHeartbeat ;;;
  s <- this ;;
  match matchListener s with
  | Some l => unsubscribe l ;;; update (set_matchListener None)
  | None => ret tt
  end ;;;
  s <- this ;;
  match queueListener s with
  | Some l => unsubscribe l ;;; update (set_queueListener None)
  | None => ret tt
  end ;;;
  update (set_currentQueueId None) ;;;
  update (set_currentUserId None) ;;;
  update (set_isJoiningQueue false) ;;;
  update (set_isCreatingMatch false).

Definition isValidOpponent (opponent : QueuePlayer) (currentUserId : string) : M bool :=
  s <- this ;;
  if bool_decide (qp_userId opponent = Some currentUserId)
     || bool_decide (Some (qp_id opponent) = currentQueueId s)
  then ret false
  else
    try_catch
      (docSnap <- getDoc (qp_id opponent) ;;
       match docSnap with
       | None => ret false
       | Some data =>
           now <- Date_now ;;
           let age := entryAge now data in
           if 30000 <? age then ret false
           else if negb (bool_decide (qd_status data = searching)) then ret false
           else ret true
       end)
      (fun error => ret false).

(** The body handed to [runTransaction] in [createMatchFromQueue]. *)
Definition matchTransaction (currentUser : option User) (opponent : QueuePlayer)
    (opponentRef currentRef matchRef : string) : M unit :=
  oppSnap <- transaction_get opponentRef ;;
  curSnap <- transaction_get currentRef ;;
  match oppSnap with
  | None => throw (jsError "opponent-removed")
  | Some oppData =>
  match curSnap with
  | None => throw (jsError "current-removed")
  | Some curData =>
      now <- Date_now ;;
      let oppAge := entryAge now oppData in
      let curAge := entryAge now curData in
      if negb (bool_decide (qd_status oppData = searching))
      then throw (jsError "opponent-not-searching")
      else if negb (bool_decide (qd_status curData = searching))
      then throw (jsError "current-not-searching")
      else if (10000 <? oppAge) || (10000 <? curAge)
      then throw (jsError "stale-entry")
      else
        match currentUser with
        | None => throw (jsError "Cannot read properties of null (reading 'uid')")
        | Some user =>
            t1 <- Date_now ;;
            t2 <- Date_now ;;
            let matchData :=
              {| m_player1 :=
                   {| mp_userId := Some (uid user);
                      mp_username := Some (displayName user);
                      mp_rating := Some 1000;
                      mp_timestamp := Some t1 |};
                 m_player2 :=
                   {| mp_userId := qp_userId opponent;
                      mp_username := JS.or_opt (qd_username oppData) (qp_username opponent);
                      mp_rating := Some (qp_rating opponent);
                      mp_timestamp := qp_timestamp opponent |};
                 m_status := ready;
                 m_createdAt := Some t2 |} in
            transaction_set matchRef matchData ;;;
            transaction_delete currentRef
        end
  end
  end.

Definition createMatchFromQueue (currentUser : option User) (opponent : QueuePlayer) : M unit :=
  s <- this ;;
  if isMatched s then ret tt
  else
    update (set_isCreatingMatch true) ;;;
    s <- this ;;
    match currentQueueId s with
    | Some cur =>
        if is_set (Some cur) then
          let opponentRef := qp_id opponent in
          let currentRef := cur in
          matchRef <- newMatchRef ;;
          try_catch
            (runTransaction (matchTransaction currentUser opponent opponentRef currentRef matchRef) ;;;
             update (set_isMatched true) ;;;
             cleanup)
            (fun error =>
               update (set_isMatched false) ;;;
               update (set_isCreatingMatch false))
        else update (set_isCreatingMatch false)
    | None => update (set_isCreatingMatch false)
    end.

Definition removeFromQueue (queueId : option string) : M unit :=
  match queueId with
  | Some id =>
      if is_set (Some id) then try_catch (deleteDoc id) (fun e => ret tt) else ret tt
  | None => ret tt
  end.

Definition leaveQueue : M unit :=
  s <- this ;;
  removeFromQueue (currentQueueId s) ;;;
  cleanup.

(** [window.setInterval(callback, 5000)] in [startHeartbeat] *)
Definition startHeartbeat : M unit :=
  r <- runtime ;;
  let t := fresh (timers r) in
  update_rt (set_timers (timers r ∪ {[t]})) ;;;
  update (set_heartbeatInterval (Some t)).

Definition set_lastHeartbeat (t : Z) (d : QueueDoc) : QueueDoc :=
  mkQueueDoc (qd_userId d) (qd_username d) (qd_rating d) (qd_timestamp d) (qd_status d)
    (Some t) (qd_sessionId d).

(** The callback of the heartbeat interval. *)
Definition heartbeat : M unit :=
  s <- this ;;
  match currentQueueId s with
  | Some id =>
      if is_set (Some id) && negb (isMatched s) then
        try_catch
          (now <- Date_now ;; updateDoc id (set_lastHeartbeat now))
          (fun error => cleanup)
      else ret tt
  | None => ret tt
  end.

(** The [QueuePlayer] that discovery builds from a queue document. *)
Definition potentialOpponent (id : string) (data : QueueDoc) : QueuePlayer :=
  {| qp_id := id;
     qp_userId := qd_userId data;
     qp_username := qd_username data;
     qp_rating := JS.or_lit (qd_rating data) 1000;
     qp_timestamp := qd_timestamp data;
     qp_status := qd_status data |}.

Definition authCurrentUser : M (option User) :=
  r <- runtime ;; ret (auth_currentUser r).

(** The loop of [scanQueueForOpponents] over [snapshot.docs]. *)
Fixpoint scanLoop (userId : string) (docs : list (string * QueueDoc)) : M unit :=
  match docs with
  | [] => ret tt
  | (id, data) :: rest =>
      s <- this ;;
      if isMatched s || isCreatingMatch s then ret tt
      else if bool_decide (Some id = currentQueueId s) then scanLoop userId rest
      else if bool_decide (qd_userId data = Some userId) then scanLoop userId rest
      else
        let opponent := potentialOpponent id data in
        update (set_isCreatingMatch true) ;;;
        stop <- try_catch
                  (valid <- isValidOpponent opponent userId ;;
                   if valid then
                     user <- authCurrentUser ;;
                     createMatchFromQueue user opponent ;;;
                     ret true
                   else
                     update (set_isCreatingMatch false) ;;;
                     ret false)
                  (fun err => update (set_isCreatingMatch false) ;;; ret false) ;;
        if stop then ret tt else scanLoop userId rest
  end.

Definition scanQueueForOpponents (userId : string) : M unit :=
  s <- this ;;
  if negb (is_set (currentQueueId s)) || isMatched s || isCreatingMatch s then ret tt
  else
    try_catch
      (snapshot <- getDocs AllSearching ;;
       scanLoop userId snapshot)
      (fun e => update (set_isCreatingMatch false)).

(** A change of a snapshot ([snapshot.docChanges()]). *)
Inductive ChangeType := added | modified | removed.

Global Instance ChangeType_eq_dec : EqDecision ChangeType.
Proof. solve_decision. Defined.

Record DocChange (A : Type) := mkChange {
  change_type : ChangeType;
  change_id : string;
  change_data : A
}.
Arguments mkChange {A} _ _ _.
Arguments change_type {A} _.
Arguments change_id {A} _.
Arguments change_data {A} _.

(** The loop of the queue listener's callback over the changes. *)
Fixpoint queueLoop (userId : string) (unsubscribeQueue : nat)
    (changes : list (DocChange QueueDoc)) : M unit :=
  match changes with
  | [] => ret tt
  | change :: rest =>
      s <- this ;;
      if bool_decide (change_type change = added) && negb (isCreatingMatch s) then
        let data := change_data change in
        if bool_decide (Some (change_id change) = currentQueueId s)
        then queueLoop userId unsubscribeQueue rest
        else if bool_decide (qd_userId data = Some userId)
        then queueLoop userId unsubscribeQueue rest
        else
          update (set_isCreatingMatch true) ;;;
          let opponent := potentialOpponent (change_id change) data in
          stop <- try_catch
                    (valid <- isValidOpponent opponent userId ;;
                     if valid then
                       user <- authCurrentUser ;;
                       createMatchFromQueue user opponent ;;;
                       ret true
                     else
                       update (set_isCreatingMatch false) ;;;
                       ret false)
                    (fun err =>
                       s <- this ;;
                       if suppressPermissionWarnings s
                          && bool_decide (err_code err = "permission-denied")
                       then
                         unsubscribe [unsubscribeQueue] ;;;
                         update (set_queueListener None) ;;;
                         update (set_isCreatingMatch false) ;;;
                         ret true
                       else
                         (if bool_decide (err_code err = "permission-denied")
                          then unsubscribe [unsubscribeQueue]
                          else ret tt) ;;;
                         update (set_isCreatingMatch false) ;;;
                         ret false) ;;
          if stop then ret tt else queueLoop userId unsubscribeQueue rest
      else queueLoop userId unsubscribeQueue rest
  end.

(** The snapshot callback of [setupQueueListener]. *)
Definition onQueueSnapshot (userId : string) (unsubscribeQueue : nat)
    (changes : list (DocChange QueueDoc)) : M unit :=
  s <- this ;;
  if isMatched s || negb (is_set (currentQueueId s)) || isCreatingMatch s then ret tt
  else queueLoop userId unsubscribeQueue changes.

Definition setupQueueListener (userId : string) : M unit :=
  unsubscribeQueue <- onSnapshot (QueueCallback userId) ;;
  update (set_queueListener (Some [unsubscribeQueue])).

(** [handleMatch] of [setupMatchListeners]; [cell] holds the variable
    [hasFoundMatch].  The call of [onMatchFound] is recorded in the
    runtime. *)
Definition handleMatch (joinedAt : Z) (cell : nat) (match_ : Match) : M unit :=
  if JS.or_lit (m_createdAt (snd match_)) 0 <=? joinedAt then ret tt
  else
    s <- this ;;
    r <- runtime ;;
    if negb (isMatched s) && negb (default false (cells r !! cell)) then
      update_rt (fun r => set_cells (<[cell := true]> (cells r)) r) ;;;
      update (set_isMatched true) ;;;
      cleanup ;;;
      update_rt (log_onMatchFound match_)
    else ret tt.

(** The snapshot callback of either match subscription. *)
Fixpoint onMatchSnapshot (joinedAt : Z) (cell : nat)
    (changes : list (DocChange MatchData)) : M unit :=
  match changes with
  | [] => ret tt
  | change :: rest =>
      r <- runtime ;;
      (if bool_decide (change_type change = added) && negb (default false (cells r !! cell))
       then handleMatch joinedAt cell (change_id change, change_data change)
       else ret tt) ;;;
      onMatchSnapshot joinedAt cell rest
  end.

Definition setupMatchListeners (userId : string) : M unit :=
  s <- this ;;
  now <- Date_now ;;
  let joinedAt := default now (joinedAt s) in
  r <- runtime ;;
  let hasFoundMatch := fresh (dom (cells r)) in
  update_rt (set_cells (<[hasFoundMatch := false]> (cells r))) ;;;
  unsubscribe1 <- onSnapshot (MatchCallback joinedAt hasFoundMatch) ;;
  unsubscribe2 <- onSnapshot (MatchCallback joinedAt hasFoundMatch) ;;
  update (set_matchListener (Some [unsubscribe1; unsubscribe2])).

(** The loop of [upsertQueueEntry] that finds the newest entry: the state
    is [(newestDocId, newestTimestamp)]. *)
Fixpoint newestLoop (docs : list (string * QueueDoc)) (acc : option string * Z)
    : option string * Z :=
  match docs with
  | [] => acc
  | (id, data) :: rest =>
      let ts := JS.or_lit (qd_timestamp data) 0 in
      if snd acc <? ts then newestLoop rest (Some id, ts) else newestLoop rest acc
  end.

(** The document that [upsertQueueEntry] hands to [addDoc]. *)
Definition newQueueEntry (user : User) (now : Z) : QueueDoc :=
  {| qd_userId := Some (uid user);
     qd_username := Some (displayName user);
     qd_rating := Some 1000;
     qd_timestamp := Some now;
     qd_status := searching;
     qd_lastHeartbeat := Some now;
     qd_sessionId := uid user +:+ "_" +:+ pretty now |}.

(** The fields that [upsertQueueEntry] hands to [updateDoc]. *)
Definition refreshEntry (user : User) (now : Z) (d : QueueDoc) : QueueDoc :=
  {| qd_userId := qd_userId d;
     qd_username := qd_username d;
     qd_rating := qd_rating d;
     qd_timestamp := Some now;
     qd_status := searching;
     qd_lastHeartbeat := Some now;
     qd_sessionId := uid user +:+ "_" +:+ pretty now |}.

(** The loop of [upsertQueueEntry] that deletes the duplicates. *)
Fixpoint deleteOthers (docs : list (string * QueueDoc)) (newestDocId : option string) : M unit :=
  match docs with
  | [] => ret tt
  | (id, _) :: rest =>
      (if negb (bool_decide (Some id = newestDocId))
       then try_catch (deleteDoc id) (fun _ => ret tt)
       else ret tt) ;;;
      deleteOthers rest newestDocId
  end.

Definition upsertQueueEntry (user : User) : M (option string) :=
  snapshot <- getDocs (OwnSearching (uid user)) ;;
  match snapshot with
  | _ :: _ =>
      let newestDocId := fst (newestLoop snapshot (None, 0)) in
      newestDocId <-
        match newestDocId with
        | Some id =>
            if is_set (Some id) then
              try_catch
                (now <- Date_now ;;
                 updateDoc id (refreshEntry user now) ;;;
                 ret (Some id))
                (fun e =>
                   now <- Date_now ;;
                   newDoc <- addDoc (newQueueEntry user now) ;;
                   ret (Some newDoc))
            else ret (Some id)
        | None => ret None
        end ;;
      deleteOthers snapshot newestDocId ;;;
      ret newestDocId
  | [] =>
      now <- Date_now ;;
      queueEntry <- addDoc (newQueueEntry user now) ;;
      ret (Some queueEntry)
  end.

(** The two deletion loops of [cleanupEverything]. *)
Fixpoint deleteStaleQueue (now : Z) (docs : list (string * QueueDoc)) : M unit :=
  match docs with
  | [] => ret tt
  | (id, data) :: rest =>
      let age := JS.minus now (JS.or_num (qd_lastHeartbeat data) (qd_timestamp data)) in
      (if JS.gt age 30000
       then try_catch (deleteDoc id) (fun e => ret tt)
       else ret tt) ;;;
      deleteStaleQueue now rest
  end.

Fixpoint deleteOldMatches (docs : list (string * MatchData)) : M unit :=
  match docs with
  | [] => ret tt
  | (id, _) :: rest =>
      try_catch (deleteDoc_match id) (fun e => ret tt) ;;;
      deleteOldMatches rest
  end.

(** [where('createdAt', '<', bound)]: a document without the field does not
    match an inequality filter. *)
Definition createdBefore (bound : Z) (m : MatchData) : bool :=
  match m_createdAt m with
  | Some c => c <? bound
  | None => false
  end.

Definition cleanupEverything : M unit :=
  try_catch
    (queueSnapshot <- getDocs AllEntries ;;
     now <- Date_now ;;
     deleteStaleQueue now queueSnapshot ;;;
     matchesSnapshot <- getDocs_matches (createdBefore (now - 60000)) ;;
     deleteOldMatches matchesSnapshot)
    (fun error => ret tt).

Definition forceCleanup : M unit := cleanupEverything.

(** [waitForAuth]: the current principal, or the one that signs in before
    the timeout ([signsIn], what [onAuthStateChanged] delivers), or
    [null] after [timeoutMs]. *)
Definition waitForAuth (signsIn : option User) (timeoutMs : Z) : M (option User) :=
  r <- runtime ;;
  match auth_currentUser r with
  | Some u => ret (Some u)
  | None =>
      match signsIn with
      | Some u => update_rt (set_auth (Some u)) ;;; ret (Some u)
      | None => sleep timeoutMs ;;; ret None
      end
  end.

(** [joinQueue(onMatchFound, onError)]; [jitter] is the value of
    [Math.random() * 100 + 20]. *)
Definition joinQueue (signsIn : option User) (jitter : Z) : M unit :=
  user <- waitForAuth signsIn 5000 ;;
  match user with
  | None => update_rt (log_onError "Not authenticated")
  | Some user =>
      s <- this ;;
      if isJoiningQueue s then ret tt
      else
        update (set_isJoiningQueue true) ;;;
        update (set_isMatched false) ;;;
        update (set_isCreatingMatch false) ;;;
        update (set_currentUserId (Some (uid user))) ;;;
        try_finally
          (try_catch
             (cleanupEverything ;;;
              sleep 2000 ;;;
              now <- Date_now ;;
              update (set_joinedAt (Some now)) ;;;
              setupMatchListeners (uid user) ;;;
              setupQueueListener (uid user) ;;;
              id <- upsertQueueEntry user ;;
              update (set_currentQueueId id) ;;;
              sleep jitter ;;;
              scanQueueForOpponents (uid user) ;;;
              startHeartbeat)
             (fun error =>
                update_rt (log_onError "Failed to join queue") ;;;
                cleanup))
          (update (set_isJoiningQueue false))
  end.

(** The listener of [beforeunload] in [setupBeforeUnloadCleanup]. *)
Definition onBeforeUnload : M unit :=
  s <- this ;;
  match currentQueueId s with
  | Some id => if is_set (Some id) then try_catch (deleteDoc id) (fun e => ret tt) else ret tt
  | None => ret tt
  end.

(** The listener of [visibilitychange]; [hidden] is [document.hidden]. *)
Definition onVisibilityChange (hidden : bool) : M unit :=
  s <- this ;;
  if hidden && is_set (currentQueueId s) && negb (isMatched s) then leaveQueue else ret tt.

(** What both branches of the auth listener do at once: stop the
    heartbeat and cancel and null the two listeners. *)
Definition stopListening : M unit :=
  try_catch stopHeartbeat (fun _ => ret tt) ;;;
  s <- this ;;
  try_catch (match matchListener s with Some l => unsubscribe l | None => ret tt end)
    (fun _ => ret tt) ;;;
  try_catch (match queueListener s with Some l => unsubscribe l | None => ret tt end)
    (fun _ => ret tt) ;;;
  update (set_matchListener None) ;;;
  update (set_queueListener None).

(** The listener that the constructor registers with
    [auth.onAuthStateChanged]; the asynchronous part runs right after the
    synchronous one. *)
Definition onAuthStateChanged (user : option User) : M unit :=
  try_catch
    (match user with
     | None =>
         stopListening ;;;
         try_catch
           (s <- this ;;
            (if is_set (currentQueueId s) then removeFromQueue (currentQueueId s) else ret tt) ;;;
            cleanup)
           (fun e => ret tt)
     | Some u =>
         s <- this ;;
         if is_set (currentUserId s) && negb (bool_decide (Some (uid u) = currentUserId s))
         then
           update (set_suppressPermissionWarnings true) ;;;
           stopListening ;;;
           try_catch
             (s <- this ;;
              (if is_set (currentQueueId s)
               then try_catch (removeFromQueue (currentQueueId s)) (fun _ => ret tt)
               else ret tt) ;;;
              cleanup)
             (fun _ => ret tt) ;;;
           update (set_suppressPermissionWarnings false)
         else ret tt
     end)
    (fun e => ret tt).

(** The browser delivers a snapshot to the callback of an active
    subscription. *)
Inductive Snapshot :=
| MatchSnapshot (changes : list (DocChange MatchData))
| QueueSnapshot (changes : list (DocChange QueueDoc)).

Definition deliver (subscription : nat) (snapshot : Snapshot) : M unit :=
  r <- runtime ;;
  match subscriptions r !! subscription, snapshot with
  | Some (MatchCallback joinedAt cell), MatchSnapshot changes =>
      onMatchSnapshot joinedAt cell changes
  | Some (QueueCallback userId), QueueSnapshot changes =>
      onQueueSnapshot userId subscription changes
  | _, _ => ret tt
  end.

(** Running a method from a state that is known. *)
Definition exec {A} (m : M A) (st : State) : State := snd (m st).
Definition result {A} (m : M A) (st : State) : Result A := fst (m st).

(** What a listener field contributes to [cleanup]: its subscriptions are
    cancelled. *)
Definition cancelled (l : option Unsubscribe) (subs : gmap nat Callback) : gmap nat Callback :=
  match l with
  | Some u => foldr delete subs u
  | None => subs
  end.


(** ** The words of the specification *)

(** The staleness policy as the specification words it:
    [now - max(lastHeartbeat, timestamp)], a missing field counting as 0. *)
Definition staleAge (now : Z) (data : QueueDoc) : Z :=
  now - Z.max (default 0 (qd_lastHeartbeat data)) (default 0 (qd_timestamp data)).

(** An entry that makes the match-creation transaction abort: its status is
    not [searching] or its age exceeds 10000 ms. *)
Definition unfit (now : Z) (data : QueueDoc) : Prop :=
  qd_status data ≠ searching \/ 10000 < entryAge now data \/ 10000 < staleAge now data.

(** The conditions under which the transaction must abort. *)
Definition mustAbort (w : World) (opponentRef currentRef : string) : Prop :=
  queue w !! opponentRef = None
  \/ queue w !! currentRef = None
  \/ (exists d, queue w !! opponentRef = Some d /\ unfit (clock w) d)
  \/ (exists d, queue w !! currentRef = Some d /\ unfit (clock w) d).

(** An entry the transaction accepts. *)
Definition fit (now : Z) (data : QueueDoc) : Prop :=
  qd_status data = searching /\ entryAge now data <= 10000.

(** The match document that the transaction of [createMatchFromQueue]
    writes at time [now] for the initiator [user], the caller's cached
    [opponent] and the candidate's document [oppData] read inside the
    transaction. *)
Definition writtenMatch (user : User) (opponent : QueuePlayer) (oppData : QueueDoc)
    (now : Z) : MatchData :=
  {| m_player1 :=
       mkPlayer (Some (uid user)) (Some (displayName user)) (Some 1000) (Some now);
     m_player2 :=
       mkPlayer (qp_userId opponent)
         (if JS.truthy_str (qd_username oppData) then qd_username oppData
          else qp_username opponent)
         (Some (qp_rating opponent)) (qp_timestamp opponent);
     m_status := ready;
     m_createdAt := Some now |}.

(** The outcome of the transaction that [createMatchFromQueue] runs from
    [st]; [None] when the call returns before it reaches [runTransaction]. *)
Definition attemptedTransaction (currentUser : option User) (opponent : QueuePlayer)
    (st : State) : option (Result unit) :=
  if isMatched (svc st) then None
  else
    match currentQueueId (svc st) with
    | Some cur =>
        if is_set (Some cur) then
          Some (result
                  (runTransaction
                     (matchTransaction currentUser opponent (qp_id opponent) cur
                        (fresh (dom (matches (world st))))))
                  (mkState (set_isCreatingMatch true (svc st)) (rt st) (world st)))
        else None
    | None => None
    end.

(** ** A concrete scenario: alice and bob are searching *)

(** The fields that the match document copies from the candidate are
    defined: the [userId] and the [timestamp] of the cached copy, and a
    [username] in the fresh snapshot or in the cached copy. *)
Definition definedCandidate (opponent : QueuePlayer) (oppData : QueueDoc) : Prop :=
  is_Some (qp_userId opponent)
  /\ is_Some (qp_timestamp opponent)
  /\ is_Some (JS.or_opt (qd_username oppData) (qp_username opponent)).

Global Instance definedCandidate_dec opponent oppData :
  Decision (definedCandidate opponent oppData).
Proof. unfold definedCandidate. apply _. Defined.

Module Scenario.

Definition alice : User := mkUser "alice" (Some "alice@example.org").
Definition bob : User := mkUser "bob" (Some "bob@example.org").

Definition entry (u : User) (rating : option Z) (t : Z) : QueueDoc :=
  {| qd_userId := Some (uid u);
     qd_username := Some (displayName u);
     qd_rating := rating;
     qd_timestamp := Some t;
     qd_status := searching;
     qd_lastHeartbeat := Some t;
     qd_sessionId := uid u +:+ "_" +:+ pretty t |}.

Definition now0 : Z := 1700000050000.

(** Both entries were written 2 s ago; bob's rating in the store is
    1500. *)
Definition queue0 : gmap string QueueDoc :=
  <["qa" := entry alice (Some 1000) (now0 - 2000)]>
    (<["qb" := entry bob (Some 1500) (now0 - 2000)]> ∅).

Definition world0 : World := mkWorld queue0 ∅ now0 noFault.

Definition runtimeOf (u : User) : Runtime := mkRuntime (Some u) ∅ ∅ ∅ [] [].

(** A client that tracks the entry [id] of [u] and is searching. *)
Definition searchingService (u : User) (id : string) : Service :=
  mkService (Some id) (Some (uid u)) None None false None false false
    (Some (now0 - 2000)) false.

Definition aliceState : State :=
  mkState (searchingService alice "qa") (runtimeOf alice) world0.

(** alice's cached copy of bob's entry, with the rating 1000 it had when
    she saw it. *)
Definition cachedBob : QueuePlayer :=
  mkQueuePlayer "qb" (Some "bob") (Some "bob") 1000 (Some (now0 - 2000)) searching.

(** The same store one minute later, with no heartbeat in between. *)
Definition staleWorld : World := mkWorld queue0 ∅ (now0 + 60000) noFault.

Definition aliceStale : State :=
  mkState (searchingService alice "qa") (runtimeOf alice) staleWorld.

(** The store refuses the transaction. *)
Definition conflictWorld : World :=
  mkWorld queue0 ∅ now0
    (fun op => match op with
               | OpTransaction => Some (mkError "aborted" "contention")
               | _ => None
               end).

Definition aliceConflict : State :=
  mkState (searchingService alice "qa") (runtimeOf alice) conflictWorld.

End Scenario.

(** Every match document of [w'] that [w] does not have pairs two different
    user ids. *)
Definition createsNoSelfMatch (w w' : World) : Prop :=
  forall id m,
    matches w' !! id = Some m ->
    matches w !! id = Some m \/ mp_userId (m_player1 m) ≠ mp_userId (m_player2 m).

(** A method keeps a property of the state, whether it returns or throws. *)
Definition preserves (I : State -> Prop) {A} (m : M A) : Prop :=
  forall st, I st -> I (exec m st).

(** The verdict of [isValidOpponent] in a state, read off its tests. *)
Definition validOpponent (opponent : QueuePlayer) (currentUserId : string) (st : State) : bool :=
  if bool_decide (qp_userId opponent = Some currentUserId)
     || bool_decide (Some (qp_id opponent) = currentQueueId (svc st))
  then false
  else
    match fault (world st) (OpGetQueue (qp_id opponent)) with
    | Some _ => false
    | None =>
        match queue (world st) !! qp_id opponent with
        | None => false
        | Some data =>
            if 30000 <? entryAge (clock (world st)) data then false
            else bool_decide (qd_status data = searching)
        end
    end.

(** The invariant behind "no self-match": the authenticated principal is
    [user] throughout, and every match document created since the store
    was [w0] pairs two different user ids. *)
Definition noSelfInv (user : User) (w0 : World) (st : State) : Prop :=
  auth_currentUser (rt st) = Some user /\ createsNoSelfMatch w0 (world st).

(** [match.createdAt || 0] *)
Definition createdAt_or_0 (m : Match) : Z := JS.or_lit (m_createdAt (snd m)) 0.

Module Scenario2.
Import Scenario.

(** alice has two entries of her own in the queue (one of them a stale
    duplicate) next to bob's. *)
Definition queueDup : gmap string QueueDoc :=
  <["qa0" := entry alice (Some 1000) (now0 - 90000)]> queue0.

Definition aliceDup : State :=
  mkState (searchingService alice "qa") (runtimeOf alice)
    (mkWorld queueDup ∅ now0 noFault).

(** A match left over from an earlier session, and one created after
    alice joined. *)
Definition oldMatch : MatchData :=
  writtenMatch bob cachedBob (entry bob None 0) (now0 - 500000).
Definition newMatch : MatchData :=
  writtenMatch bob cachedBob (entry bob None 0) (now0 - 1000).

(** alice after [setupMatchListeners]. *)
Definition aliceListening : State :=
  exec (setupMatchListeners "alice") aliceState.
End Scenario2.

Module Scenario6.
Import Scenario.

(** alice's service is searching with her entry "qa" when bob signs in in
    the same browser: the signed-in principal is bob, and the service has
    not been torn down yet. *)
Definition bobSignedIn : State :=
  mkState (searchingService alice "qa") (runtimeOf bob) world0.

(** bob's entry, as a queue snapshot reports it to the listener that
    alice's [joinQueue] registered. *)
Definition bobAdded : DocChange QueueDoc :=
  mkChange added "qb" (entry bob (Some 1500) (now0 - 2000)).
End Scenario6.

(** ** Queue entries of a principal *)

(** The filter of the query of [upsertQueueEntry]: a [searching] entry of
    the user id [u]. *)
Definition searchingOf (u : string) (d : QueueDoc) : Prop :=
  qd_userId d = Some u /\ qd_status d = searching.

Global Instance searchingOf_dec u d : Decision (searchingOf u d).
Proof. unfold searchingOf. apply _. Defined.

(** [id] is the one and only [searching] entry of [u] in [q], and it was
    written at [now]: [timestamp = lastHeartbeat = now]. *)
Definition onlyFreshEntry (u : string) (now : Z) (q : gmap string QueueDoc) (id : string) : Prop :=
  (exists e,
     q !! id = Some e /\ searchingOf u e
     /\ qd_timestamp e = Some now /\ qd_lastHeartbeat e = Some now)
  /\ forall k d, q !! k = Some d -> searchingOf u d -> k = id.

(** Every [searching] entry of [u] carries a positive timestamp, as all
    entries written by [upsertQueueEntry] do. *)
Definition stamped (u : string) (q : gmap string QueueDoc) : Prop :=
  forall k d, q !! k = Some d -> searchingOf u d -> 0 < JS.or_lit (qd_timestamp d) 0.

(** A loop of best-effort deletions: [try { await deleteDoc(id) } catch {}]
    for each id in turn. *)
Fixpoint tryDeleteAll (ids : list string) : M unit :=
  match ids with
  | [] => ret tt
  | id :: rest => try_catch (deleteDoc id) (fun _ => ret tt) ;;; tryDeleteAll rest
  end.

(** The ids whose deletion the store accepts. *)
Definition deletable (w : World) (ids : list string) : list string :=
  List.filter (fun id => bool_decide (fault w (OpDeleteQueue id) = None)) ids.

(** The snapshot of the query of [upsertQueueEntry]. *)
Definition upsertSnapshot (u : string) (q : gmap string QueueDoc) : list (string * QueueDoc) :=
  List.filter (fun ds => selects (OwnSearching u) (snd ds)) (map_to_list q).


(** What one call of [upsertQueueEntry] for [user] achieves from a store
    with the queue [q] at time [now], when it returns [id] and leaves the
    queue [q']. *)
Definition upserted (user : User) (now : Z) (q q' : gmap string QueueDoc) (id : string) : Prop :=
  onlyFreshEntry (uid user) now q' id
  /\ (forall k d, q !! k = Some d -> ~ searchingOf (uid user) d -> q' !! k = Some d)
  /\ ((forall k d, q !! k = Some d -> ~ searchingOf (uid user) d) ->
      q !! id = None /\ q' !! id = Some (newQueueEntry user now))
  /\ ((exists k d, q !! k = Some d /\ searchingOf (uid user) d) ->
      exists d0,
        q !! id = Some d0 /\ searchingOf (uid user) d0
        /\ (forall k d, q !! k = Some d -> searchingOf (uid user) d ->
                        JS.or_lit (qd_timestamp d) 0 <= JS.or_lit (qd_timestamp d0) 0)
        /\ q' !! id = Some (refreshEntry user now d0)
        /\ (forall k d, q !! k = Some d -> searchingOf (uid user) d -> k ≠ id -> q' !! k = None)).

Module Scenario3.
Import Scenario.

(** alice comes back while two of her earlier entries are still in the
    queue, next to bob's. *)
Definition queueTwo : gmap string QueueDoc :=
  <["qa0" := entry alice (Some 1000) (now0 - 90000)]> queue0.

Definition aliceRejoins : State :=
  mkState initialService (runtimeOf alice) (mkWorld queueTwo ∅ now0 noFault).

(** An entry of alice without a timestamp, which no call of the service
    writes. *)
Definition unstamped : QueueDoc :=
  mkQueueDoc (Some "alice") (Some "alice") (Some 1000) None searching (Some (now0 - 2000))
    "alice_0".

Definition aliceUnstamped : State :=
  mkState initialService (runtimeOf alice)
    (mkWorld (<["qa" := unstamped]> ∅) ∅ now0 noFault).

(** alice is signed in and nobody is searching. *)
Definition aliceAlone : State :=
  mkState initialService (runtimeOf alice) (mkWorld ∅ ∅ now0 noFault).
End Scenario3.

(** ** Ownership of deletions *)

(** The staleness test of [cleanupEverything]:
    [now - (data.lastHeartbeat || data.timestamp) > 30000]. *)
Definition abandoned (now : Z) (data : QueueDoc) : bool :=
  JS.gt (JS.minus now (JS.or_num (qd_lastHeartbeat data) (qd_timestamp data))) 30000.

(** The match ids whose deletion the store accepts. *)
Definition deletable_matches (w : World) (ids : list string) : list string :=
  List.filter (fun id => bool_decide (fault w (OpDeleteMatch id) = None)) ids.

(** Going from [q] to [q'] removes only documents that satisfy [P]. *)
Definition removesOnly {A} (P : string -> A -> Prop) (q q' : gmap string A) : Prop :=
  forall k d, q !! k = Some d -> q' !! k = None -> P k d.

Module Scenario4.
Import Scenario.

Definition carol : User := mkUser "carol" (Some "carol@example.org").

(** A match between bob and carol, created long before [now0]. *)
Definition theirMatch : MatchData :=
  writtenMatch bob (mkQueuePlayer "qc" (Some "carol") (Some "carol") 1000 (Some 0) searching)
    (entry carol None 0) (now0 - 600000).

(** alice is signed in; bob's entry has not been refreshed for a minute;
    the store lets her client delete what it asks for. *)
Definition aliceCleans : State :=
  mkState initialService (runtimeOf alice)
    (mkWorld (<["qb" := entry bob (Some 1500) (now0 - 60000)]> ∅)
       (<["m0" := theirMatch]> ∅) now0 noFault).
End Scenario4.

(** The paths of the service, other than [upsertQueueEntry] and
    [cleanupEverything], on which a document can be deleted or a match
    created: leaving, the browser's listeners, the creation of a match and
    the discovery that leads to it, the snapshot callbacks and the
    heartbeat. *)
Inductive trackedPath : M unit -> Prop :=
| path_leaveQueue : trackedPath leaveQueue
| path_removeFromQueue : trackedPath (s <- this ;; removeFromQueue (currentQueueId s))
| path_beforeUnload : trackedPath onBeforeUnload
| path_visibilityChange hidden : trackedPath (onVisibilityChange hidden)
| path_authStateChanged user : trackedPath (onAuthStateChanged user)
| path_createMatch currentUser opponent : trackedPath (createMatchFromQueue currentUser opponent)
| path_scan userId : trackedPath (scanQueueForOpponents userId)
| path_deliver subscription snapshot : trackedPath (deliver subscription snapshot)
| path_heartbeat : trackedPath heartbeat.

(** Since [st0], the service tracks the same entry or none, has removed no
    queue document but the tracked one, and no match document. *)
Definition trackedInv (st0 st : State) : Prop :=
  (currentQueueId (svc st) = currentQueueId (svc st0) \/ currentQueueId (svc st) = None)
  /\ removesOnly (fun k _ => currentQueueId (svc st0) = Some k)
       (queue (world st0)) (queue (world st))
  /\ removesOnly (fun _ _ => False) (matches (world st0)) (matches (world st)).

(** The entry that the service tracks, while it is in the queue, belongs
    to the principal the service joined for: its [userId] is the
    [currentUserId] that [joinQueue] recorded. *)
Definition tracksOwn (st : State) : Prop :=
  forall id d,
    currentQueueId (svc st) = Some id ->
    queue (world st) !! id = Some d ->
    qd_userId d = currentUserId (svc st).

(** ** Two clients on one store *)

(** The browser side of one client. *)
Record Client := mkClient {
  c_svc : Service;
  c_rt : Runtime
}.

(** Two clients, of the principals X and Y, and the store they share. *)
Record System := mkSystem {
  clientX : Client;
  clientY : Client;
  store : World
}.

Inductive Who := X | Y.

Global Instance Who_eq_dec : EqDecision Who.
Proof. solve_decision. Defined.

Definition otherOf (who : Who) : Who := match who with X => Y | Y => X end.

Definition client (who : Who) (sys : System) : Client :=
  match who with
  | X => clientX sys
  | Y => clientY sys
  end.

(** One client runs a method to its end on the shared store: the
    transaction of [createMatchFromQueue] is the only access of that method
    to the store, and the store runs it as one atomic unit. *)
Definition runClient (who : Who) (m : M unit) (sys : System) : System :=
  let c := client who sys in
  let st' := exec m (mkState (c_svc c) (c_rt c) (store sys)) in
  let c' := mkClient (svc st') (rt st') in
  match who with
  | X => mkSystem c' (clientY sys) (world st')
  | Y => mkSystem (clientX sys) c' (world st')
  end.

(** What can happen, in any order: a client attempts to create the match
    with its cached copy of the other's entry, its heartbeat fires, it
    leaves the queue, a match snapshot is delivered to it, time passes, the
    store changes what it refuses, a client joins the queue (again). *)
Inductive Event :=
| Attempt (who : Who) (cached : QueuePlayer)
| Heartbeat (who : Who)
| Leave (who : Who)
| MatchSeen (who : Who) (subscription : nat) (changes : list (DocChange MatchData))
| Tick (dt : Z)
| Faults (f : StoreOp -> option Error)
| Join (who : Who) (jitter : Z).

Definition step (ev : Event) (sys : System) : System :=
  match ev with
  | Attempt who cached =>
      runClient who (user <- authCurrentUser ;; createMatchFromQueue user cached) sys
  | Heartbeat who => runClient who heartbeat sys
  | Leave who => runClient who leaveQueue sys
  | MatchSeen who sub changes => runClient who (deliver sub (MatchSnapshot changes)) sys
  | Tick dt =>
      mkSystem (clientX sys) (clientY sys) (set_clock (clock (store sys) + dt) (store sys))
  | Faults f => mkSystem (clientX sys) (clientY sys) (set_fault f (store sys))
  | Join who jitter => runClient who (joinQueue None jitter) sys
  end.

(** An interleaving is a list of events, run from the left. *)
Definition runEvents (evs : list Event) (sys : System) : System :=
  fold_left (fun s ev => step ev s) evs sys.

Section Pair.
(** The queue entries [ex] of principal [ux] and [ey] of principal [uy]. *)
Variables (ex ey : string) (ux uy : User).

(** The entry and the principal of a client, and those of the other. *)
Definition ownEntry (who : Who) : string := match who with X => ex | Y => ey end.
Definition theirEntry (who : Who) : string := match who with X => ey | Y => ex end.
Definition principalOf (who : Who) : User := match who with X => ux | Y => uy end.
Definition opponentOf (who : Who) : User := match who with X => uy | Y => ux end.

(** The events of the pair of entries [ex] and [ey]: each attempt is made
    with a cached copy of the other's entry, and neither client joins the
    queue again (a client that joins again gets a new entry, and with it a
    new pair). *)
Definition targetsPair (ev : Event) : Prop :=
  match ev with
  | Attempt X cached => qp_id cached = ey /\ qp_userId cached = Some (uid uy)
  | Attempt Y cached => qp_id cached = ex /\ qp_userId cached = Some (uid ux)
  | Join _ _ => False
  | _ => True
  end.

(** X is signed in as [ux] and tracks [ex] (or nothing any more), Y is
    signed in as [uy] and tracks [ey] (or nothing any more). *)
Definition pairInv (sys : System) : Prop :=
  auth_currentUser (c_rt (clientX sys)) = Some ux
  /\ auth_currentUser (c_rt (clientY sys)) = Some uy
  /\ (currentQueueId (c_svc (clientX sys)) = Some ex
      \/ currentQueueId (c_svc (clientX sys)) = None)
  /\ (currentQueueId (c_svc (clientY sys)) = Some ey
      \/ currentQueueId (c_svc (clientY sys)) = None).

(** A match document that references both principals. *)
Definition references (m : MatchData) : Prop :=
  (mp_userId (m_player1 m) = Some (uid ux) /\ mp_userId (m_player2 m) = Some (uid uy))
  \/ (mp_userId (m_player1 m) = Some (uid uy) /\ mp_userId (m_player2 m) = Some (uid ux)).

(** Since the matches were [m0], exactly one match document has been
    created, it references both principals, and the initiator's entry is
    gone. *)
Definition oneMatch (m0 : gmap string MatchData) (sys : System) : Prop :=
  exists id m,
    m0 !! id = None
    /\ matches (store sys) = <[id := m]> m0
    /\ references m
    /\ (queue (store sys) !! ex = None \/ queue (store sys) !! ey = None).

Definition atMostOneMatch (m0 : gmap string MatchData) (sys : System) : Prop :=
  matches (store sys) = m0 \/ oneMatch m0 sys.

(** The attempt of [who] with the copy [cached] would find both entries
    fit and the fields it copies defined, and commit. *)
Definition bothFresh (who : Who) (cached : QueuePlayer) (sys : System) : Prop :=
  isMatched (c_svc (client who sys)) = false
  /\ is_set (currentQueueId (c_svc (client who sys))) = true
  /\ fault (store sys) OpTransaction = None
  /\ (exists dx, queue (store sys) !! ex = Some dx /\ fit (clock (store sys)) dx)
  /\ (exists dy, queue (store sys) !! ey = Some dy /\ fit (clock (store sys)) dy)
  /\ (forall d, queue (store sys) !! theirEntry who = Some d -> definedCandidate cached d).
End Pair.

(** A method that, since [st0], keeps the principal, tracks the same entry
    or none, writes no match document and creates no queue document. *)
Definition quietInv (st0 st : State) : Prop :=
  auth_currentUser (rt st) = auth_currentUser (rt st0)
  /\ (currentQueueId (svc st) = currentQueueId (svc st0) \/ currentQueueId (svc st) = None)
  /\ matches (world st) = matches (world st0)
  /\ forall k, queue (world st0) !! k = None -> queue (world st) !! k = None.

Module Race.
Import Scenario.

(** alice tracks "qa", bob tracks "qb", both entries are 2 s old. *)
Definition sys0 : System :=
  mkSystem (mkClient (searchingService alice "qa") (runtimeOf alice))
           (mkClient (searchingService bob "qb") (runtimeOf bob))
           world0.

Definition cachedAlice : QueuePlayer :=
  mkQueuePlayer "qa" (Some "alice") (Some "alice") 1000 (Some (now0 - 2000)) searching.

(** Both attempt at once, twice each, with heartbeats in between. *)
Definition race : list Event :=
  [Heartbeat X; Attempt Y cachedAlice; Attempt X cachedBob; Tick 5000; Heartbeat X;
   Attempt X cachedBob; Attempt Y cachedAlice].

(** alice's attempt commits, and she joins the queue again while bob's
    entry, which the transaction left in place, is still fresh. *)
Definition rejoin : list Event := [Attempt X cachedBob; Join X 50].
End Race.

(** ** Words for the further properties *)

(** The client has accepted a match: the service is matched, or the
    variable [hasFoundMatch] shared by the two match callbacks is set. *)
Definition latched (cell : nat) (st : State) : Prop :=
  isMatched (svc st) = true \/ cells (rt st) !! cell = Some true.

(** The matches that a snapshot reports as added. *)
Definition addedMatches (changes : list (DocChange MatchData)) : list Match :=
  map (fun c => (change_id c, change_data c))
    (List.filter (fun c => bool_decide (change_type c = added)) changes).

(** Another user's [searching] entry, as the scan sees it from the client
    of [u] that tracks [cur]. *)
Definition foreignCandidate (u cur id : string) (d : QueueDoc) : Prop :=
  qd_status d = searching /\ qd_userId d ≠ Some u /\ id ≠ cur.

(** The queue is quiet for [user]: the user is signed in and no other call
    is joining, the store refuses nothing, no document has the empty id,
    every [searching] entry is the user's own and carries a positive
    timestamp. *)
Definition quietFor (user : User) (st : State) : Prop :=
  auth_currentUser (rt st) = Some user
  /\ isJoiningQueue (svc st) = false
  /\ (forall op, fault (world st) op = None)
  /\ queue (world st) !! "" = None
  /\ stamped (uid user) (queue (world st))
  /\ (forall k d, queue (world st) !! k = Some d -> qd_status d = searching ->
                  qd_userId d = Some (uid user)).

Module Scenario5.
Import Scenario.

(** A store that refuses every update of a queue entry. *)
Definition noUpdates : StoreOp -> option Error :=
  fun op => match op with
            | OpUpdateQueue _ => Some permissionDenied
            | _ => None
            end.

Definition aliceNoUpdates : State :=
  mkState initialService (runtimeOf alice) (mkWorld queue0 ∅ now0 noUpdates).

(** A store that refuses the query for a user's own [searching] entries
    and nothing else. *)
Definition noOwnQuery : StoreOp -> option Error :=
  fun op => match op with
            | OpQueryQueue (OwnSearching _) => Some permissionDenied
            | _ => None
            end.

(** alice is signed in, and bob's entry has not been refreshed for a
    minute. *)
Definition aliceNoOwnQuery : State :=
  mkState initialService (runtimeOf alice)
    (mkWorld (<["qb" := entry bob (Some 1500) (now0 - 60000)]> ∅) ∅ now0 noOwnQuery).
End Scenario5.

(** The service after a teardown that started in [st]: nothing is tracked,
    no timer and no listener is held, and of the store only the entry that
    was tracked can be gone. *)
Definition tornDown (st st' : State) : Prop :=
  currentQueueId (svc st') = None
  /\ currentUserId (svc st') = None
  /\ heartbeatInterval (svc st') = None
  /\ matchListener (svc st') = None
  /\ queueListener (svc st') = None
  /\ isCreatingMatch (svc st') = false
  /\ matches (world st') = matches (world st)
  /\ (queue (world st') = queue (world st)
      \/ exists id, currentQueueId (svc st) = Some id
                    /\ queue (world st') = delete id (queue (world st)))
  /\ (forall id, currentQueueId (svc st) = Some id -> id ≠ "" ->
                 fault (world st) (OpDeleteQueue id) = None ->
                 queue (world st') = delete id (queue (world st))).

(** ** Reading and updating one match

    [getMatch] and [updateMatchStatus], the two public methods that work
    on a single match document.  [refuses] says which of their requests
    the store refuses, as [fault] does for the other requests. *)

Inductive MatchOp :=
| OpGetMatch (id : string)
| OpUpdateMatch (id : string).

Section MatchDocuments.
Variable refuses : MatchOp -> option Error.

Definition request_match {A} (op : MatchOp) (answer : M A) : M A :=
  match refuses op with
  | Some e => throw e
  | None => answer
  end.

(** [getDoc(doc(matchesRef, id))] *)
Definition getDoc_match (id : string) : M (option MatchData) :=
  request_match (OpGetMatch id) (w <- theWorld ;; ret (matches w !! id)).

(** [updateDoc(doc(matchesRef, id), fields)] fails on a document that does
    not exist. *)
Definition updateDoc_match (id : string) (fields : MatchData -> MatchData) : M unit :=
  request_match (OpUpdateMatch id)
    (w <- theWorld ;;
     match matches w !! id with
     | Some d => update_world (set_matches (<[id := fields d]> (matches w)))
     | None => throw (mkError "not-found" "No document to update")
     end).

(** The update [{ status }]. *)
Definition set_status (status : MatchStatus) (m : MatchData) : MatchData :=
  {| m_player1 := m_player1 m;
     m_player2 := m_player2 m;
     m_status := status;
     m_createdAt := m_createdAt m |}.

Definition updateMatchStatus (matchId : string) (status : MatchStatus) : M unit :=
  try_catch (updateDoc_match matchId (set_status status)) (fun error => ret tt).

Definition getMatch (matchId : string) : M (option Match) :=
  try_catch
    (docSnap <- getDoc_match matchId ;;
     match docSnap with
     | Some data => ret (Some (matchId, data))
     | None => ret None
     end)
    (fun error => ret None).

End MatchDocuments.

(** * The small services of ECS/services.ts *)

(** ** [InputService]

    The six maps of the service and the listeners that the constructor
    registers for [keydown], [keyup], [mousedown] and [mouseup].  The
    pointer position (two floating point coordinates written by the
    [mousemove] listener and copied by [getMousePosition]) is not part of
    the model. *)

Module InputService.

Record Input := mkInput {
  keys : gmap string bool;
  keysPressed : gmap string bool;
  keysReleased : gmap string bool;
  mouseButtons : gmap Z bool;
  mouseButtonsPressed : gmap Z bool;
  mouseButtonsReleased : gmap Z bool
}.

Definition initial : Input := mkInput ∅ ∅ ∅ ∅ ∅ ∅.

(** The events the listeners are registered for, with [e.code] or
    [e.button]. *)
Inductive DomEvent :=
| KeyDown (code : string)
| KeyUp (code : string)
| MouseDown (button : Z)
| MouseUp (button : Z).

Global Instance DomEvent_eq_dec : EqDecision DomEvent.
Proof. solve_decision. Defined.

Definition onKeyDown (code : string) (s : Input) : Input :=
  let pressed :=
    if negb (default false (keys s !! code))
    then <[code := true]> (keysPressed s)
    else keysPressed s in
  mkInput (<[code := true]> (keys s)) pressed (keysReleased s)
    (mouseButtons s) (mouseButtonsPressed s) (mouseButtonsReleased s).

Definition onKeyUp (code : string) (s : Input) : Input :=
  mkInput (<[code := false]> (keys s)) (keysPressed s) (<[code := true]> (keysReleased s))
    (mouseButtons s) (mouseButtonsPressed s) (mouseButtonsReleased s).

Definition onMouseDown (button : Z) (s : Input) : Input :=
  let pressed :=
    if negb (default false (mouseButtons s !! button))
    then <[button := true]> (mouseButtonsPressed s)
    else mouseButtonsPressed s in
  mkInput (keys s) (keysPressed s) (keysReleased s)
    (<[button := true]> (mouseButtons s)) pressed (mouseButtonsReleased s).

Definition onMouseUp (button : Z) (s : Input) : Input :=
  mkInput (keys s) (keysPressed s) (keysReleased s)
    (<[button := false]> (mouseButtons s)) (mouseButtonsPressed s)
    (<[button := true]> (mouseButtonsReleased s)).

Definition dispatch (s : Input) (e : DomEvent) : Input :=
  match e with
  | KeyDown code => onKeyDown code s
  | KeyUp code => onKeyUp code s
  | MouseDown button => onMouseDown button s
  | MouseUp button => onMouseUp button s
  end.

(** [keys.get(key) || false] and [map.get(key) ?? false] *)
Definition isKeyDown (key : string) (s : Input) : bool := default false (keys s !! key).
Definition isKeyPressed (key : string) (s : Input) : bool := default false (keysPressed s !! key).
Definition isKeyReleased (key : string) (s : Input) : bool :=
  default false (keysReleased s !! key).
Definition isMouseButtonDown (button : Z) (s : Input) : bool :=
  default false (mouseButtons s !! button).
Definition isMouseButtonPressed (button : Z) (s : Input) : bool :=
  default false (mouseButtonsPressed s !! button).
Definition isMouseButtonReleased (button : Z) (s : Input) : bool :=
  default false (mouseButtonsReleased s !! button).

Definition update (s : Input) : Input :=
  mkInput (keys s) ∅ ∅ (mouseButtons s) ∅ ∅.

(** One frame: the game loop calls [update], then the browser delivers the
    events of the frame. *)
Definition frame (events : list DomEvent) (s : Input) : Input :=
  fold_left dispatch events (update s).

End InputService.

(** ** [EventService]

    A callback is a function object; [indexOf] compares by identity, so a
    callback is modelled by a number that names the object.  What a
    callback does when it is called is outside the service: [emit] is
    modelled by the list of the calls it makes, in order. *)

Module EventService.

Definition Callback : Type := nat.
Abbreviation Listeners := (gmap string (list Callback)).

Section Events.
Variable Data : Type.

Definition initial : Listeners := ∅.

(** [on(event, callback)] *)
Definition on (event : string) (callback : Callback) (listeners : Listeners) : Listeners :=
  let listeners1 :=
    if negb (bool_decide (is_Some (listeners !! event)))
    then <[event := []]> listeners
    else listeners in
  <[event := default [] (listeners1 !! event) ++ [callback]]> listeners1.

(** [callbacks.indexOf(callback)]: the first index, or -1. *)
Fixpoint indexOf (callbacks : list Callback) (callback : Callback) : Z :=
  match callbacks with
  | [] => -1
  | c :: rest =>
      if bool_decide (c = callback) then 0
      else let i := indexOf rest callback in
           if i =? -1 then -1 else i + 1
  end.

(** [callbacks.splice(index, 1)] for an index that is not negative. *)
Definition splice1 (index : Z) (callbacks : list Callback) : list Callback :=
  delete (Z.to_nat index) callbacks.

(** [off(event, callback)] *)
Definition off (event : string) (callback : Callback) (listeners : Listeners) : Listeners :=
  match listeners !! event with
  | Some callbacks =>
      let index := indexOf callbacks callback in
      if -1 <? index then <[event := splice1 index callbacks]> listeners
      else listeners
  | None => listeners
  end.

(** [emit(event, data)]: the calls made, first to last. *)
Definition emit (event : string) (data : Data) (listeners : Listeners)
    : list (Callback * Data) :=
  match listeners !! event with
  | Some callbacks => map (fun callback => (callback, data)) callbacks
  | None => []
  end.

(** [clear()] *)
Definition clear (listeners : Listeners) : Listeners := ∅.

End Events.

(** The callbacks registered for [event], in the order of the calls. *)
Definition registered (event : string) (listeners : Listeners) : list Callback :=
  default [] (listeners !! event).

(** [l] without the first occurrence of [c]. *)
Fixpoint removeFirst (c : Callback) (l : list Callback) : list Callback :=
  match l with
  | [] => []
  | x :: rest => if bool_decide (x = c) then rest else x :: removeFirst c rest
  end.

End EventService.

(** ** [SceneManager]

    A scene is an object with the hooks [load] and [unload] (abstract in
    [BaseScene], so every registered scene has them); it is modelled by a
    number that names the object, and a call of a hook by an entry of a
    log.  The per-frame methods [update], [fixedUpdate] and [draw], which
    only forward to the current scene, are not part of the model. *)

Module SceneManager.

Definition Scene : Type := nat.

Inductive Hook :=
| Load (scene : Scene)
| Unload (scene : Scene).

Record Manager := mkManager {
  scenes : gmap string Scene;
  currentScene : option Scene;
  currentSceneName : option string;
  calls : list Hook    (* the hooks called so far, first to last *)
}.

Definition initial : Manager := mkManager ∅ None None [].

Definition registerScene (name : string) (scene : Scene) (m : Manager) : Manager :=
  mkManager (<[name := scene]> (scenes m)) (currentScene m) (currentSceneName m) (calls m).

(** [loadScene(name)]: the result and the manager after the call. *)
Definition loadScene (name : string) (m : Manager) : Result unit * Manager :=
  match scenes m !! name with
  | None => (Throw (jsError ("Scene " +:+ name +:+ " not found")), m)
  | Some scene =>
      let unloaded :=
        match currentScene m with
        | Some current => calls m ++ [Unload current]
        | None => calls m
        end in
      (Ok tt, mkManager (scenes m) (Some scene) (Some name) (unloaded ++ [Load scene]))
  end.

Definition getCurrentScene (m : Manager) : option Scene := currentScene m.
Definition getCurrentSceneName (m : Manager) : option string := currentSceneName m.

(** What a program does with the manager. *)
Inductive Op :=
| RegisterScene (name : string) (scene : Scene)
| LoadScene (name : string).

(** A [loadScene] that throws is caught by the caller. *)
Definition perform (m : Manager) (op : Op) : Manager :=
  match op with
  | RegisterScene name scene => registerScene name scene m
  | LoadScene name => snd (loadScene name m)
  end.

Definition run (ops : list Op) : Manager := fold_left perform ops initial.

(** The scenes that were loaded and not unloaded since, oldest first. *)
Definition loaded (log : list Hook) : list Scene :=
  fold_left
    (fun acc h =>
       match h with
       | Load scene => acc ++ [scene]
       | Unload scene => List.remove Nat.eq_dec scene acc
       end)
    log [].

End SceneManager.

(** ** [NetworkService]

    [performance.now()], the send rate and the arithmetic on them are
    floating point: the numbers and the three operations that [update]
    uses are parameters of the model.  The payload [data] of a message is
    a parameter as well.  What is handed to [socket.send] (before
    [JSON.stringify]) and the handlers that a received message calls are
    recorded in two logs.  [messageIdCounter] is an integer; the number of
    the source counts exactly up to 2^53. *)

Module NetworkService.

Class Numbers := {
  number : Type;
  minus : number -> number -> number;      (* a - b *)
  divide : number -> number -> number;     (* a / b *)
  ge : number -> number -> bool;           (* a >= b *)
  zero : number;
  twenty : number;
  thousand : number
}.

(** [socket.readyState] *)
Inductive ReadyState := CONNECTING | OPEN | CLOSING | CLOSED.

Global Instance ReadyState_eq_dec : EqDecision ReadyState.
Proof. solve_decision. Defined.

Section Service.
Context {N : Numbers} {Data : Type}.

(** The object given to [JSON.stringify] and sent. *)
Inductive Frame :=
| Plain (type : string) (data : Data)
| Reliable (type : string) (data : Data) (messageId : Z).

(** A parsed message: [message.type], [message.messageId] and
    [message.data]. *)
Record Incoming := mkIncoming {
  in_type : string;
  in_messageId : option Z;
  in_data : Data
}.

Record Net := mkNet {
  socket : option ReadyState;   (* [null], or the socket with its [readyState] *)
  messageHandlers : gmap string (list EventService.Callback);
  messageQueue : list (string * Data);
  sendRate : number;
  lastSendTime : number;
  reliableMessages : gmap Z (string * Data);
  messageIdCounter : Z;
  sent : list Frame;                               (* calls of [socket.send] *)
  handled : list (EventService.Callback * Data)    (* calls of handlers *)
}.

Definition initial : Net := mkNet None ∅ [] twenty zero ∅ 0 [] [].

Definition socketSend (frame : Frame) (s : Net) : Net :=
  mkNet (socket s) (messageHandlers s) (messageQueue s) (sendRate s) (lastSendTime s)
    (reliableMessages s) (messageIdCounter s) (sent s ++ [frame]) (handled s).

(** [connect(url)] up to the creation of the socket. *)
Definition connect (s : Net) : Net :=
  mkNet (Some CONNECTING) (messageHandlers s) (messageQueue s) (sendRate s) (lastSendTime s)
    (reliableMessages s) (messageIdCounter s) (sent s) (handled s).

(** The browser changes [readyState] of the current socket. *)
Definition socketState (rs : ReadyState) (s : Net) : Net :=
  match socket s with
  | Some _ =>
      mkNet (Some rs) (messageHandlers s) (messageQueue s) (sendRate s) (lastSendTime s)
        (reliableMessages s) (messageIdCounter s) (sent s) (handled s)
  | None => s
  end.

Definition isConnected (s : Net) : bool := bool_decide (socket s = Some OPEN).

Definition sendImmediate (type : string) (data : Data) (s : Net) : Net :=
  if isConnected s then socketSend (Plain type data) s else s.

Definition sendReliable (type : string) (data : Data) (s : Net) : Net :=
  let messageId := messageIdCounter s in
  let s1 :=
    mkNet (socket s) (messageHandlers s) (messageQueue s) (sendRate s) (lastSendTime s)
      (<[messageId := (type, data)]> (reliableMessages s))
      (JS.increment (messageIdCounter s)) (sent s) (handled s) in
  if isConnected s1 then socketSend (Reliable type data messageId) s1 else s1.

Definition send (type : string) (data : Data) (reliable : bool) (s : Net) : Net :=
  if reliable then sendReliable type data s
  else
    mkNet (socket s) (messageHandlers s) (messageQueue s ++ [(type, data)]) (sendRate s)
      (lastSendTime s) (reliableMessages s) (messageIdCounter s) (sent s) (handled s).

(** [update()]; [now] is the value of [performance.now()]. *)
Definition update (now : number) (s : Net) : Net :=
  let interval := divide thousand (sendRate s) in
  if ge (minus now (lastSendTime s)) interval && (0 <? Z.of_nat (length (messageQueue s))) then
    match messageQueue s with
    | message :: rest =>
        let s1 :=
          mkNet (socket s) (messageHandlers s) rest (sendRate s) (lastSendTime s)
            (reliableMessages s) (messageIdCounter s) (sent s) (handled s) in
        let s2 := sendImmediate (fst message) (snd message) s1 in
        mkNet (socket s2) (messageHandlers s2) (messageQueue s2) (sendRate s2) now
          (reliableMessages s2) (messageIdCounter s2) (sent s2) (handled s2)
    | [] => s
    end
  else s.

Definition on (type : string) (handler : EventService.Callback) (s : Net) : Net :=
  mkNet (socket s) (EventService.on type handler (messageHandlers s)) (messageQueue s)
    (sendRate s) (lastSendTime s) (reliableMessages s) (messageIdCounter s) (sent s)
    (handled s).

Definition off (type : string) (handler : EventService.Callback) (s : Net) : Net :=
  mkNet (socket s) (EventService.off type handler (messageHandlers s)) (messageQueue s)
    (sendRate s) (lastSendTime s) (reliableMessages s) (messageIdCounter s) (sent s)
    (handled s).

(** [socket.onmessage]; [None] is a text that [JSON.parse] rejects (the
    exception is caught and logged). *)
Definition onmessage (message : option Incoming) (s : Net) : Net :=
  match message with
  | None => s
  | Some message =>
      match in_messageId message with
      | Some messageId =>
          if bool_decide (in_type message = "ack") then
            mkNet (socket s) (messageHandlers s) (messageQueue s) (sendRate s) (lastSendTime s)
              (delete messageId (reliableMessages s)) (messageIdCounter s) (sent s) (handled s)
          else
            mkNet (socket s) (messageHandlers s) (messageQueue s) (sendRate s) (lastSendTime s)
              (reliableMessages s) (messageIdCounter s) (sent s)
              (handled s ++ EventService.emit Data (in_type message) (in_data message)
                              (messageHandlers s))
      | None =>
          mkNet (socket s) (messageHandlers s) (messageQueue s) (sendRate s) (lastSendTime s)
            (reliableMessages s) (messageIdCounter s) (sent s)
            (handled s ++ EventService.emit Data (in_type message) (in_data message)
                            (messageHandlers s))
      end
  end.

Definition disconnect (s : Net) : Net :=
  mkNet None (messageHandlers s) [] (sendRate s) (lastSendTime s) ∅ (messageIdCounter s)
    (sent s) (handled s).

Definition setSendRate (messagesPerSecond : number) (s : Net) : Net :=
  mkNet (socket s) (messageHandlers s) (messageQueue s) messagesPerSecond (lastSendTime s)
    (reliableMessages s) (messageIdCounter s) (sent s) (handled s).

(** What a program and the browser do with the service. *)
Inductive Op :=
| Connect
| SocketState (rs : ReadyState)
| Send (type : string) (data : Data) (reliable : bool)
| SendImmediate (type : string) (data : Data)
| Update (now : number)
| On (type : string) (handler : EventService.Callback)
| Off (type : string) (handler : EventService.Callback)
| OnMessage (message : option Incoming)
| Disconnect
| SetSendRate (messagesPerSecond : number).

Definition perform (s : Net) (op : Op) : Net :=
  match op with
  | Connect => connect s
  | SocketState rs => socketState rs s
  | Send type data reliable => send type data reliable s
  | SendImmediate type data => sendImmediate type data s
  | Update now => update now s
  | On type handler => on type handler s
  | Off type handler => off type handler s
  | OnMessage message => onmessage message s
  | Disconnect => disconnect s
  | SetSendRate r => setSendRate r s
  end.

Definition run (ops : list Op) (s : Net) : Net := fold_left perform ops s.

(** The operations that leave the socket alone: queuing, flushing and
    tuning. *)
Definition steady (op : Op) : Prop :=
  match op with
  | Send _ _ false | Update _ | SetSendRate _ | On _ _ | Off _ _ => True
  | _ => False
  end.

(** The messages handed to [send] as unreliable, first to last. *)
Definition queuedBy (ops : list Op) : list (string * Data) :=
  flat_map (fun op => match op with
                      | Send type data false => [(type, data)]
                      | _ => []
                      end) ops.

(** The plain frames of the log, and the ids of the reliable ones. *)
Definition plainFrames (frames : list Frame) : list (string * Data) :=
  flat_map (fun f => match f with
                     | Plain type data => [(type, data)]
                     | Reliable _ _ _ => []
                     end) frames.

Definition reliableIds (frames : list Frame) : list Z :=
  flat_map (fun f => match f with
                     | Plain _ _ => []
                     | Reliable _ _ messageId => [messageId]
                     end) frames.

(** Every pending reliable message and every reliable frame sent carries
    an id that the counter has passed, and no id was sent twice. *)
Definition idsInRange (s : Net) : Prop :=
  (forall id, is_Some (reliableMessages s !! id) -> id < messageIdCounter s)
  /\ (forall id, id ∈ reliableIds (sent s) -> id < messageIdCounter s)
  /\ NoDup (reliableIds (sent s)).

End Service.

Arguments Frame : clear implicits.
Arguments Incoming : clear implicits.
Arguments Net : clear implicits.
Arguments Op : clear implicits.

(** Integer milliseconds, for the examples. *)
Definition integers : Numbers :=
  {| number := Z; minus := Z.sub; divide := Z.div; ge := Z.geb;
     zero := 0; twenty := 20; thousand := 1000 |}.

End NetworkService.

Module NetScenario.
Import NetworkService.

(** A connected service and a program that queues two moves and calls
    [update] three times *)
Definition connected : Net integers string := socketState OPEN (connect initial).

Definition twoMoves : list (Op integers string) :=
  [Send "move" "a" false; Send "move" "b" false;
   @Update integers string 100; @Update integers string 100; @Update integers string 200].

(** A service whose socket is still connecting *)
Definition connecting : Net integers string := connect initial.

(** A program that connects, after which the browser opens the socket *)
Definition opening : list (Op integers string) := [Connect; SocketState OPEN].
End NetScenario.
(** * Properties *)

Ltac unfold_m :=
  unfold exec, result, request, sleep, bind, ret, throw, try_catch, try_finally, this,
    update, runtime, update_rt, theWorld, update_world, Date_now in *.

(** ** Teardown *)

Lemma stopHeartbeat_spec st :
  stopHeartbeat st =
    (Ok tt,
     match heartbeatInterval (svc st) with
     | Some t =>
         mkState (set_heartbeatInterval None (svc st))
                 (set_timers (timers (rt st) ∖ {[t]}) (rt st)) (world st)
     | None => st
     end).
Proof.
  unfold stopHeartbeat. unfold_m. destruct (heartbeatInterval (svc st)); reflexivity.
Qed.

Lemma cleanup_spec st :
  cleanup st =
    (Ok tt,
     mkState
       (mkService None None None None (isMatched (svc st)) None false false
          (joinedAt (svc st)) (suppressPermissionWarnings (svc st)))
       (mkRuntime (auth_currentUser (rt st))
          (match heartbeatInterval (svc st) with
           | Some t => timers (rt st) ∖ {[t]}
           | None => timers (rt st)
           end)
          (cancelled (queueListener (svc st))
             (cancelled (matchListener (svc st)) (subscriptions (rt st))))
          (cells (rt st)) (onMatchFound_calls (rt st)) (onError_calls (rt st)))
       (world st)).
Proof.
  unfold cleanup. unfold bind at 1. rewrite stopHeartbeat_spec.
  destruct st as [[cq cu ml ql im hb ij ic ja sp] [au tm sb ce mf oe] w].
  unfold unsubscribe. unfold_m. simpl.
  destruct hb, ml, ql; reflexivity.
Qed.

(** Running a computation one step at a time. *)
Lemma bind_ret {A B} (a : A) (k : A -> M B) st : bind (ret a) k st = k a st.
Proof. reflexivity. Qed.
Lemma bind_throw {A B} e (k : A -> M B) st : bind (throw e) k st = (Throw e, st).
Proof. reflexivity. Qed.
Lemma bind_this {B} (k : Service -> M B) st : bind this k st = k (svc st) st.
Proof. reflexivity. Qed.
Lemma bind_runtime {B} (k : Runtime -> M B) st : bind runtime k st = k (rt st) st.
Proof. reflexivity. Qed.
Lemma bind_theWorld {B} (k : World -> M B) st : bind theWorld k st = k (world st) st.
Proof. reflexivity. Qed.
Lemma bind_Date_now {B} (k : Z -> M B) st : bind Date_now k st = k (clock (world st)) st.
Proof. reflexivity. Qed.
Lemma bind_update {B} f (k : unit -> M B) st :
  bind (update f) k st = k tt (mkState (f (svc st)) (rt st) (world st)).
Proof. reflexivity. Qed.
Lemma bind_update_rt {B} f (k : unit -> M B) st :
  bind (update_rt f) k st = k tt (mkState (svc st) (f (rt st)) (world st)).
Proof. reflexivity. Qed.
Lemma bind_update_world {B} f (k : unit -> M B) st :
  bind (update_world f) k st = k tt (mkState (svc st) (rt st) (f (world st))).
Proof. reflexivity. Qed.
Lemma bind_assoc {A B C} (m : M A) (k : A -> M B) (k' : B -> M C) st :
  bind (bind m k) k' st = bind m (fun a => bind (k a) k') st.
Proof. unfold bind. destruct (m st) as [[a|e] st1]; reflexivity. Qed.
Lemma update_eq f st : update f st = (Ok tt, mkState (f (svc st)) (rt st) (world st)).
Proof. reflexivity. Qed.
Lemma update_rt_eq f st : update_rt f st = (Ok tt, mkState (svc st) (f (rt st)) (world st)).
Proof. reflexivity. Qed.
Lemma update_world_eq f st :
  update_world f st = (Ok tt, mkState (svc st) (rt st) (f (world st))).
Proof. reflexivity. Qed.
Lemma ret_eq {A} (a : A) st : ret a st = (Ok a, st).
Proof. reflexivity. Qed.
Lemma bind_cleanup {B} (k : unit -> M B) st : bind cleanup k st = k tt (snd (cleanup st)).
Proof. unfold bind. rewrite cleanup_spec. reflexivity. Qed.

Ltac run :=
  repeat match goal with
         | |- context [bind (bind ?m ?k) ?k' ?st] => rewrite (bind_assoc m k k' st)
         | |- context [bind (ret ?a) ?k ?st] => rewrite (bind_ret a k st)
         | |- context [bind (throw ?e) ?k ?st] => rewrite (bind_throw e k st)
         | |- context [bind this ?k ?st] => rewrite (bind_this k st)
         | |- context [bind runtime ?k ?st] => rewrite (bind_runtime k st)
         | |- context [bind theWorld ?k ?st] => rewrite (bind_theWorld k st)
         | |- context [bind Date_now ?k ?st] => rewrite (bind_Date_now k st)
         | |- context [bind (update ?f) ?k ?st] => rewrite (bind_update f k st)
         | |- context [bind (update_rt ?f) ?k ?st] => rewrite (bind_update_rt f k st)
         | |- context [bind (update_world ?f) ?k ?st] => rewrite (bind_update_world f k st)
         | |- context [bind cleanup ?k ?st] => rewrite (bind_cleanup k st)
         | |- context [update ?f ?st] => rewrite (update_eq f st)
         | |- context [update_rt ?f ?st] => rewrite (update_rt_eq f st)
         | |- context [update_world ?f ?st] => rewrite (update_world_eq f st)
         | |- context [ret ?a ?st] => rewrite (ret_eq a st)
         end;
  cbn [svc rt world fst snd queue matches clock fault].

Lemma bind_run {A B} (m : M A) (k : A -> M B) st r st1 :
  m st = (r, st1) ->
  bind m k st = match r with
                | Ok a => k a st1
                | Throw e => (Throw e, st1)
                end.
Proof. intros H. unfold bind. rewrite H. by destruct r. Qed.

(** Unfolding the setters of a state. *)
Ltac norm :=
  unfold set_currentQueueId, set_currentUserId, set_matchListener, set_queueListener,
    set_isMatched, set_heartbeatInterval, set_isJoiningQueue, set_isCreatingMatch, set_joinedAt,
    set_suppressPermissionWarnings, set_queue, set_matches, set_clock, set_fault, set_timers,
    set_subscriptions, set_cells, set_auth, log_onMatchFound, log_onError;
  cbn [currentQueueId currentUserId matchListener queueListener isMatched heartbeatInterval
       isJoiningQueue isCreatingMatch joinedAt suppressPermissionWarnings
       auth_currentUser timers subscriptions cells onMatchFound_calls onError_calls
       svc rt world queue matches clock fault default from_option id fst snd].

(** C10. Every call of [cleanup] returns normally, stops the heartbeat
    timer (the interval is cleared and the field nulled), cancels the
    subscriptions of the match listener and of the queue listener and nulls
    both fields, nulls [currentQueueId] and [currentUserId], sets
    [isJoiningQueue] and [isCreatingMatch] to false, and leaves [isMatched]
    (and the store) as it was. *)
Theorem cleanup_frame (st : State) :
  let st' := exec cleanup st in
  result cleanup st = Ok tt
  /\ heartbeatInterval (svc st') = None
  /\ (forall t, heartbeatInterval (svc st) = Some t -> t ∉ timers (rt st'))
  /\ matchListener (svc st') = None
  /\ (forall l i, matchListener (svc st) = Some l -> i ∈ l -> subscriptions (rt st') !! i = None)
  /\ queueListener (svc st') = None
  /\ (forall l i, queueListener (svc st) = Some l -> i ∈ l -> subscriptions (rt st') !! i = None)
  /\ currentQueueId (svc st') = None
  /\ currentUserId (svc st') = None
  /\ isJoiningQueue (svc st') = false
  /\ isCreatingMatch (svc st') = false
  /\ isMatched (svc st') = isMatched (svc st)
  /\ world st' = world st.
Proof.
  unfold exec, result. rewrite cleanup_spec. simpl.
  repeat split; try reflexivity.
  - intros t ->. rewrite elem_of_difference, elem_of_singleton. tauto.
  - intros l i -> Hi. simpl.
    destruct (queueListener (svc st)) as [u|]; simpl.
    + destruct (decide (i ∈ u)).
      * by apply lookup_foldr_delete.
      * rewrite lookup_foldr_delete_not_elem_of by done. by apply lookup_foldr_delete.
    + by apply lookup_foldr_delete.
  - intros l i -> Hi. simpl. by apply lookup_foldr_delete.
Qed.

(** ** The match-creation transaction *)

Lemma staleAge_le_entryAge now d : staleAge now d <= entryAge now d.
Proof.
  unfold staleAge, entryAge, JS.or_lit, JS.or_num, JS.truthy.
  destruct (qd_lastHeartbeat d) as [l|], (qd_timestamp d) as [t|]; simpl;
    repeat match goal with
           | |- context [?x =? 0] => destruct (Z.eqb_spec x 0); simpl
           end; lia.
Qed.

Lemma unfit_spec now d :
  unfit now d <-> qd_status d ≠ searching \/ 10000 < entryAge now d.
Proof.
  unfold unfit. pose proof (staleAge_le_entryAge now d). intuition lia.
Qed.

Lemma matchTransaction_abort cu opp o c mref st :
  mustAbort (world st) o c ->
  exists e, matchTransaction cu opp o c mref st = (Throw e, st).
Proof.
  intros Hab. unfold matchTransaction, transaction_get. unfold_m. simpl.
  destruct (queue (world st) !! o) as [od|] eqn:Ho; [|eauto].
  destruct (queue (world st) !! c) as [cd|] eqn:Hc; [|eauto].
  destruct (bool_decide (qd_status od = searching)) eqn:Eo; simpl; [|eauto].
  destruct (bool_decide (qd_status cd = searching)) eqn:Ec; simpl; [|eauto].
  destruct ((10000 <? entryAge (clock (world st)) od)
            || (10000 <? entryAge (clock (world st)) cd)) eqn:Ea; [eauto|].
  exfalso. apply bool_decide_eq_true in Eo, Ec.
  apply orb_false_iff in Ea as [Ea1 Ea2]. apply Z.ltb_ge in Ea1, Ea2.
  destruct Hab as [?|[?|[(d & Hd & Hu)|(d & Hd & Hu)]]]; try congruence;
    apply unfit_spec in Hu; simplify_eq; intuition lia.
Qed.

Lemma definedFields_writtenMatch user opp od now :
  definedFields (writtenMatch user opp od now) = bool_decide (definedCandidate opp od).
Proof.
  unfold definedFields, definedPlayer, writtenMatch, definedCandidate, JS.or_opt.
  cbn [m_player1 m_player2 m_createdAt mp_userId mp_username mp_rating mp_timestamp].
  repeat case_bool_decide; simpl; try reflexivity; exfalso;
    repeat match goal with
           | H : ~ is_Some (Some _) |- _ => apply H; eauto
           end; tauto.
Qed.

Lemma matchTransaction_commit user opp o c mref st od cd :
  queue (world st) !! o = Some od ->
  queue (world st) !! c = Some cd ->
  fit (clock (world st)) od ->
  fit (clock (world st)) cd ->
  definedCandidate opp od ->
  matchTransaction (Some user) opp o c mref st =
    (Ok tt,
     mkState (svc st) (rt st)
       (mkWorld (delete c (queue (world st)))
          (<[mref := writtenMatch user opp od (clock (world st))]> (matches (world st)))
          (clock (world st)) (fault (world st)))).
Proof.
  intros Ho Hc [So Ao] [Sc Ac] Hdef.
  pose proof (definedFields_writtenMatch user opp od (clock (world st))) as Hw.
  rewrite (bool_decide_eq_true_2 _ Hdef) in Hw. unfold writtenMatch, JS.or_opt in Hw.
  unfold matchTransaction, transaction_get, transaction_set, transaction_delete.
  unfold_m. simpl. rewrite Ho, Hc.
  rewrite !(bool_decide_eq_true_2 (_ = searching)) by done. simpl.
  apply Z.ltb_ge in Ao, Ac. rewrite Ao, Ac. simpl.
  unfold JS.or_opt. rewrite Hw. reflexivity.
Qed.

(** With an undefined field in the document, [transaction.set] throws and
    the transaction writes nothing. *)
Lemma matchTransaction_undefined user opp o c mref st od cd :
  queue (world st) !! o = Some od ->
  queue (world st) !! c = Some cd ->
  fit (clock (world st)) od ->
  fit (clock (world st)) cd ->
  ~ definedCandidate opp od ->
  exists e, matchTransaction (Some user) opp o c mref st = (Throw e, st).
Proof.
  intros Ho Hc [So Ao] [Sc Ac] Hdef.
  pose proof (definedFields_writtenMatch user opp od (clock (world st))) as Hw.
  rewrite (bool_decide_eq_false_2 _ Hdef) in Hw. unfold writtenMatch, JS.or_opt in Hw.
  unfold matchTransaction, transaction_get, transaction_set, transaction_delete.
  unfold_m. simpl. rewrite Ho, Hc.
  rewrite !(bool_decide_eq_true_2 (_ = searching)) by done. simpl.
  apply Z.ltb_ge in Ao, Ac. rewrite Ao, Ac. simpl.
  unfold JS.or_opt. rewrite Hw. eauto.
Qed.

Lemma matchTransaction_no_user opp o c mref st :
  exists e, matchTransaction None opp o c mref st = (Throw e, st).
Proof.
  unfold matchTransaction, transaction_get. unfold_m. simpl.
  destruct (queue (world st) !! o) as [od|]; [|eauto].
  destruct (queue (world st) !! c) as [cd|]; [|eauto].
  repeat (match goal with |- context [if ?b then _ else _] => destruct b end; simpl; eauto).
Qed.

Lemma runTransaction_eq (body : M unit) st :
  runTransaction body st =
    match fault (world st) OpTransaction with
    | Some e => (Throw e, st)
    | None =>
        match body st with
        | (Ok a, st') => (Ok a, st')
        | (Throw e, st') => (Throw e, mkState (svc st') (rt st') (world st))
        end
    end.
Proof.
  unfold runTransaction. unfold_m. simpl.
  destruct (fault (world st) OpTransaction); reflexivity.
Qed.

(** The transaction either commits, changing only the store, or throws and
    changes nothing. *)
Lemma runTransaction_matchTransaction cu opp o c mref st :
  (exists e, runTransaction (matchTransaction cu opp o c mref) st = (Throw e, st))
  \/ (exists user od cd,
        cu = Some user
        /\ fault (world st) OpTransaction = None
        /\ queue (world st) !! o = Some od
        /\ queue (world st) !! c = Some cd
        /\ fit (clock (world st)) od
        /\ fit (clock (world st)) cd
        /\ definedCandidate opp od
        /\ runTransaction (matchTransaction cu opp o c mref) st =
             (Ok tt,
              mkState (svc st) (rt st)
                (mkWorld (delete c (queue (world st)))
                   (<[mref := writtenMatch user opp od (clock (world st))]>
                      (matches (world st)))
                   (clock (world st)) (fault (world st))))).
Proof.
  rewrite runTransaction_eq.
  destruct (fault (world st) OpTransaction) as [e|] eqn:Hf; [left; eauto|].
  destruct cu as [user|].
  2:{ left. destruct (matchTransaction_no_user opp o c mref st) as [e ->].
      destruct st; eauto. }
  destruct (queue (world st) !! o) as [od|] eqn:Ho.
  2:{ left. destruct (matchTransaction_abort (Some user) opp o c mref st) as [e He];
        [left; done|rewrite He; destruct st; eauto]. }
  destruct (queue (world st) !! c) as [cd|] eqn:Hc.
  2:{ left. destruct (matchTransaction_abort (Some user) opp o c mref st) as [e He];
        [right; left; done|rewrite He; destruct st; eauto]. }
  destruct (decide (fit (clock (world st)) od)) as [Fo|Fo].
  2:{ left. destruct (matchTransaction_abort (Some user) opp o c mref st) as [e He];
        [|rewrite He; destruct st; eauto].
      right; right; left. exists od. split; [done|]. apply unfit_spec.
      unfold fit in Fo. destruct (decide (qd_status od = searching)); [right|left; done].
      destruct (Z.le_gt_cases (entryAge (clock (world st)) od) 10000); [tauto|lia]. }
  destruct (decide (fit (clock (world st)) cd)) as [Fc|Fc].
  2:{ left. destruct (matchTransaction_abort (Some user) opp o c mref st) as [e He];
        [|rewrite He; destruct st; eauto].
      right; right; right. exists cd. split; [done|]. apply unfit_spec.
      unfold fit in Fc. destruct (decide (qd_status cd = searching)); [right|left; done].
      destruct (Z.le_gt_cases (entryAge (clock (world st)) cd) 10000); [tauto|lia]. }
  destruct (decide (definedCandidate opp od)) as [Fd|Fd].
  2:{ left. destruct (matchTransaction_undefined user opp o c mref st od cd) as [e He];
        [done..|rewrite He; destruct st; eauto]. }
  right. exists user, od, cd.
  rewrite (matchTransaction_commit user opp o c mref st od cd) by done.
  done.
Qed.

Lemma createMatchFromQueue_spec cu opp st :
  createMatchFromQueue cu opp st =
    if isMatched (svc st) then (Ok tt, st)
    else
      let st1 := mkState (set_isCreatingMatch true (svc st)) (rt st) (world st) in
      let giveUp := (Ok tt, mkState (set_isCreatingMatch false (svc st1)) (rt st) (world st)) in
      match currentQueueId (svc st) with
      | Some cur =>
          if is_set (Some cur) then
            match runTransaction
                    (matchTransaction cu opp (qp_id opp) cur (fresh (dom (matches (world st)))))
                    st1 with
            | (Ok _, st2) => cleanup (mkState (set_isMatched true (svc st2)) (rt st2) (world st2))
            | (Throw e, st2) =>
                (Ok tt,
                 mkState (set_isCreatingMatch false (set_isMatched false (svc st2)))
                   (rt st2) (world st2))
            end
          else giveUp
      | None => giveUp
      end.
Proof.
  unfold createMatchFromQueue. unfold bind at 1. unfold this at 1.
  destruct (isMatched (svc st)) eqn:Em; [reflexivity|].
  unfold bind at 1. unfold update at 1. unfold bind at 1. unfold this at 1.
  cbn [svc rt world set_isCreatingMatch currentQueueId].
  destruct (currentQueueId (svc st)) as [cur|] eqn:Ec; [|reflexivity].
  destruct (is_set (Some cur)) eqn:Es; [|reflexivity].
  unfold bind at 1. unfold newMatchRef at 1. unfold bind at 1, theWorld at 1, ret at 1.
  cbn [svc rt world].
  unfold try_catch. unfold bind at 1.
  destruct (runTransaction _ _) as [[[]|e] st2]; [|reflexivity].
  unfold bind at 1. unfold update at 1. rewrite cleanup_spec. reflexivity.
Qed.

(** C2. When [createMatchFromQueue] reaches its transaction and the
    opponent's or the initiator's queue document does not exist, or either
    status is not [searching], or either age exceeds 10000 ms, the
    transaction throws and leaves the state as it found it, and the whole
    call leaves the store untouched: no match document is created and no
    queue entry is deleted. *)
Theorem transaction_abort_no_side_effects (currentUser : option User)
    (opponent : QueuePlayer) (st : State) (cur : string) :
  currentQueueId (svc st) = Some cur ->
  mustAbort (world st) (qp_id opponent) cur ->
  (forall matchRef,
     exists e,
       runTransaction (matchTransaction currentUser opponent (qp_id opponent) cur matchRef) st
       = (Throw e, st))
  /\ world (exec (createMatchFromQueue currentUser opponent) st) = world st
  /\ queue (world (exec (createMatchFromQueue currentUser opponent) st)) = queue (world st)
  /\ matches (world (exec (createMatchFromQueue currentUser opponent) st)) = matches (world st).
Proof.
  intros Hcur Hab.
  assert (Hw : world (exec (createMatchFromQueue currentUser opponent) st) = world st).
  { unfold exec. rewrite createMatchFromQueue_spec.
    destruct (isMatched (svc st)); [reflexivity|]. rewrite Hcur. cbn zeta.
    destruct (is_set (Some cur)); [|reflexivity].
    set (st1 := mkState _ _ _).
    destruct (runTransaction_matchTransaction currentUser opponent (qp_id opponent) cur
                (fresh (dom (matches (world st)))) st1) as [[e He]|Hok].
    - rewrite He. reflexivity.
    - exfalso.
      destruct Hok as (user & od & cd & _ & _ & Ho & Hc & [So Ao] & [Sc Ac] & _ & _).
      subst st1. cbn [world] in *.
      destruct Hab as [?|[?|[(d & Hd & Hu)|(d & Hd & Hu)]]]; try congruence;
        apply unfit_spec in Hu; simplify_eq; intuition lia. }
  split; [|rewrite Hw; auto].
  intros matchRef. rewrite runTransaction_eq.
  destruct (fault (world st) OpTransaction) as [e|]; [eauto|].
  destruct (matchTransaction_abort currentUser opponent (qp_id opponent) cur matchRef st Hab)
    as [e He].
  rewrite He. destruct st; eauto.
Qed.

(** C8. Whenever the transaction of [createMatchFromQueue] fails (its body
    throws on a precondition, or the store refuses it), the call returns
    normally, nothing is thrown to the caller, and [isMatched] and
    [isCreatingMatch] are both false afterwards. *)
Theorem transaction_failure_is_caught (currentUser : option User)
    (opponent : QueuePlayer) (st : State) (e : Error) :
  attemptedTransaction currentUser opponent st = Some (Throw e) ->
  result (createMatchFromQueue currentUser opponent) st = Ok tt
  /\ isMatched (svc (exec (createMatchFromQueue currentUser opponent) st)) = false
  /\ isCreatingMatch (svc (exec (createMatchFromQueue currentUser opponent) st)) = false.
Proof.
  unfold attemptedTransaction, result, exec. rewrite createMatchFromQueue_spec.
  destruct (isMatched (svc st)); [discriminate|].
  destruct (currentQueueId (svc st)) as [cur|]; [|discriminate]. cbn zeta.
  destruct (is_set (Some cur)); [|discriminate].
  destruct (runTransaction _ _) as [[[]|e'] st2]; cbn [fst]; [discriminate|].
  intros _. auto.
Qed.

(** [createMatchFromQueue] never throws, whatever happens. *)
Lemma createMatchFromQueue_returns cu opp st :
  result (createMatchFromQueue cu opp) st = Ok tt.
Proof.
  unfold result. rewrite createMatchFromQueue_spec.
  destruct (isMatched (svc st)); [reflexivity|].
  destruct (currentQueueId (svc st)) as [cur|]; [|reflexivity]. cbn zeta.
  destruct (is_set (Some cur)); [|reflexivity].
  destruct (runTransaction _ _) as [[[]|e'] st2]; [|reflexivity].
  rewrite cleanup_spec. reflexivity.
Qed.

Lemma transaction_abort_witness :
  let st := Scenario.aliceStale in
  world (exec (createMatchFromQueue (Some Scenario.alice) Scenario.cachedBob) st) = world st.
Proof.
  apply (transaction_abort_no_side_effects (Some Scenario.alice) Scenario.cachedBob
           Scenario.aliceStale "qa").
  - reflexivity.
  - right; right; left. exists (Scenario.entry Scenario.bob (Some 1500) (Scenario.now0 - 2000)).
    split; [reflexivity|]. right; left. vm_compute. reflexivity.
Defined.

Lemma transaction_failure_witness :
  result (createMatchFromQueue (Some Scenario.alice) Scenario.cachedBob) Scenario.aliceConflict
  = Ok tt.
Proof.
  apply (transaction_failure_is_caught (Some Scenario.alice) Scenario.cachedBob
           Scenario.aliceConflict (mkError "aborted" "contention")).
  vm_compute. reflexivity.
Defined.

Lemma is_set_Some cur : is_set (Some cur) = true <-> cur ≠ "".
Proof.
  unfold is_set. rewrite negb_true_iff, bool_decide_eq_false. tauto.
Qed.

(** What a committed attempt does to the state. *)
Lemma createMatchFromQueue_commit user opp st cur od cd :
  isMatched (svc st) = false ->
  currentQueueId (svc st) = Some cur ->
  cur ≠ "" ->
  fault (world st) OpTransaction = None ->
  queue (world st) !! qp_id opp = Some od ->
  queue (world st) !! cur = Some cd ->
  fit (clock (world st)) od ->
  fit (clock (world st)) cd ->
  definedCandidate opp od ->
  let st' := exec (createMatchFromQueue (Some user) opp) st in
  world st' =
    mkWorld (delete cur (queue (world st)))
      (<[fresh (dom (matches (world st))) := writtenMatch user opp od (clock (world st))]>
         (matches (world st)))
      (clock (world st)) (fault (world st))
  /\ isMatched (svc st') = true
  /\ currentQueueId (svc st') = None.
Proof.
  intros Hm Hcur Hne Hf Ho Hc Fo Fc Fd. unfold exec. rewrite createMatchFromQueue_spec.
  rewrite Hm, Hcur. cbn zeta. apply is_set_Some in Hne. rewrite Hne.
  rewrite runTransaction_eq. cbn [world]. rewrite Hf.
  rewrite (matchTransaction_commit user opp (qp_id opp) cur _ _ od cd) by done.
  rewrite cleanup_spec. cbn. done.
Qed.

(** C9, as the code has it.  When both entries are fit and the fields
    copied from the candidate are defined (the store's client refuses a
    document with an undefined field), the attempt commits and writes one
    new match document: [player1] is the initiator ([uid], the name
    derived from the e-mail address, rating 1000, the current time),
    [player2] has the user id, the rating and the timestamp of the
    caller's cached copy of the candidate and the username read inside the
    transaction (the cached one when that is missing or empty), the status
    is [ready] and [createdAt] is the current time; in the same step the
    initiator's own queue entry is deleted and nothing else, so the
    candidate's entry stays. *)
Theorem committed_match_document (user : User) (opponent : QueuePlayer) (st : State)
    (cur : string) (oppData curData : QueueDoc) :
  isMatched (svc st) = false ->
  currentQueueId (svc st) = Some cur ->
  cur ≠ "" ->
  fault (world st) OpTransaction = None ->
  queue (world st) !! qp_id opponent = Some oppData ->
  queue (world st) !! cur = Some curData ->
  fit (clock (world st)) oppData ->
  fit (clock (world st)) curData ->
  definedCandidate opponent oppData ->
  let st' := exec (createMatchFromQueue (Some user) opponent) st in
  let now := clock (world st) in
  exists matchRef written,
    matches (world st) !! matchRef = None
    /\ matches (world st') = <[matchRef := written]> (matches (world st))
    /\ m_player1 written
       = mkPlayer (Some (uid user)) (Some (displayName user)) (Some 1000) (Some now)
    /\ mp_userId (m_player2 written) = qp_userId opponent
    /\ mp_username (m_player2 written) =
         (if JS.truthy_str (qd_username oppData) then qd_username oppData
          else qp_username opponent)
    /\ mp_rating (m_player2 written) = Some (qp_rating opponent)
    /\ mp_timestamp (m_player2 written) = qp_timestamp opponent
    /\ m_status written = ready
    /\ m_createdAt written = Some now
    /\ queue (world st') = delete cur (queue (world st))
    /\ (qp_id opponent ≠ cur -> queue (world st') !! qp_id opponent = Some oppData).
Proof.
  intros Hm Hcur Hne Hf Ho Hc Fo Fc Fd st' now.
  destruct (createMatchFromQueue_commit user opponent st cur oppData curData)
    as (Hw & _ & _); try done.
  fold st' in Hw.
  exists (fresh (dom (matches (world st)))), (writtenMatch user opponent oppData now).
  rewrite Hw. cbn [queue matches writtenMatch m_player1 m_player2 m_status m_createdAt
                     mp_userId mp_username mp_rating mp_timestamp].
  repeat split; try reflexivity.
  - apply not_elem_of_dom. apply is_fresh.
  - intros Hd. by rewrite lookup_delete_ne.
Qed.

Lemma committed_match_witness :
  exists matchRef written,
    matches (world (exec (createMatchFromQueue (Some Scenario.alice) Scenario.cachedBob)
                      Scenario.aliceState))
    = <[matchRef := written]> (matches (world Scenario.aliceState))
    /\ mp_rating (m_player2 written) = Some 1000.
Proof.
  destruct (committed_match_document Scenario.alice Scenario.cachedBob Scenario.aliceState
              "qa" (Scenario.entry Scenario.bob (Some 1500) (Scenario.now0 - 2000))
              (Scenario.entry Scenario.alice (Some 1000) (Scenario.now0 - 2000)))
    as (matchRef & written & H);
    [reflexivity | reflexivity | discriminate | reflexivity | reflexivity | reflexivity
    | split; [reflexivity | vm_compute; discriminate]
    | split; [reflexivity | vm_compute; discriminate]
    | repeat split; eexists; reflexivity |].
  exists matchRef, written. split; apply H.
Defined.

(** Conversely, the transaction commits only then: a committed attempt
    found both entries fit and the copied fields defined. *)
Lemma commit_only_when_fit (user : User) (opponent : QueuePlayer) (st : State) :
  attemptedTransaction (Some user) opponent st = Some (Ok tt) ->
  exists cur oppData curData,
    isMatched (svc st) = false
    /\ currentQueueId (svc st) = Some cur
    /\ cur ≠ ""
    /\ fault (world st) OpTransaction = None
    /\ queue (world st) !! qp_id opponent = Some oppData
    /\ queue (world st) !! cur = Some curData
    /\ fit (clock (world st)) oppData
    /\ fit (clock (world st)) curData
    /\ definedCandidate opponent oppData.
Proof.
  unfold attemptedTransaction.
  destruct (isMatched (svc st)) eqn:Em; [discriminate|].
  destruct (currentQueueId (svc st)) as [cur|] eqn:Ec; [|discriminate].
  destruct (is_set (Some cur)) eqn:Es; [|discriminate].
  set (st1 := mkState _ _ _). unfold result.
  destruct (runTransaction_matchTransaction (Some user) opponent (qp_id opponent) cur
              (fresh (dom (matches (world st)))) st1) as [[e He]|Hok].
  - rewrite He. discriminate.
  - destruct Hok as (u & od & cd & _ & Hf & Ho & Hc & Fo & Fc & Fd & _). intros _.
    exists cur, od, cd. apply is_set_Some in Es. subst st1. cbn [world] in *. done.
Qed.

(** And a cached copy without a timestamp makes [transaction.set] throw:
    nothing is written although both entries are fit. *)
Example undefined_field_aborts :
  let opponent := mkQueuePlayer "qb" (Some "bob") (Some "bob") 1000 None searching in
  let st' := exec (createMatchFromQueue (Some Scenario.alice) opponent) Scenario.aliceState in
  world st' = world Scenario.aliceState /\ isMatched (svc st') = false.
Proof. vm_compute. split; reflexivity. Qed.

(** C9 as stated fails: bob's entry has rating 1500 when the transaction
    reads it, alice's cached copy says 1000, and the match document gets
    1000. *)
Lemma player2_rating_counterexample :
  let st := Scenario.aliceState in
  let st' := exec (createMatchFromQueue (Some Scenario.alice) Scenario.cachedBob) st in
  ~ (forall matchRef written oppData,
       matches (world st) !! matchRef = None ->
       matches (world st') !! matchRef = Some written ->
       queue (world st) !! qp_id Scenario.cachedBob = Some oppData ->
       mp_rating (m_player2 written) = qd_rating oppData).
Proof.
  intros st st' H.
  specialize (H "0"
                (writtenMatch Scenario.alice Scenario.cachedBob
                   (Scenario.entry Scenario.bob (Some 1500) (Scenario.now0 - 2000))
                   Scenario.now0)
                (Scenario.entry Scenario.bob (Some 1500) (Scenario.now0 - 2000))).
  assert (Some 1000 = Some 1500) as E; [|discriminate E].
  apply H; vm_compute; reflexivity.
Qed.

(** ** Reasoning about what a method preserves *)

Section Preserves.
Context (I : State -> Prop).

Lemma preserves_ret {A} (a : A) : preserves I (ret a).
Proof. intros st H. exact H. Qed.

Lemma preserves_throw {A} e : preserves I (@throw A e).
Proof. intros st H. exact H. Qed.

Lemma preserves_bind {A B} (m : M A) (k : A -> M B) :
  preserves I m -> (forall a, preserves I (k a)) -> preserves I (bind m k).
Proof.
  intros Hm Hk st H. specialize (Hm st H). unfold exec, bind in *.
  destruct (m st) as [[a|e] st1]; simpl in *; [by apply Hk | done].
Qed.

Lemma preserves_try_catch {A} (m : M A) (h : Error -> M A) :
  preserves I m -> (forall e, preserves I (h e)) -> preserves I (try_catch m h).
Proof.
  intros Hm Hh st H. specialize (Hm st H). unfold exec, try_catch in *.
  destruct (m st) as [[a|e] st1]; simpl in *; [done | by apply Hh].
Qed.

Lemma preserves_try_finally {A} (m : M A) (f : M unit) :
  preserves I m -> preserves I f -> preserves I (try_finally m f).
Proof.
  intros Hm Hf st H. specialize (Hm st H). unfold exec, try_finally in *.
  destruct (m st) as [r st1]; simpl in *. specialize (Hf st1 Hm). unfold exec in Hf.
  destruct (f st1) as [[[]|e] st2]; simpl in *; done.
Qed.

Lemma preserves_this : preserves I this.
Proof. intros st H. exact H. Qed.

Lemma preserves_runtime : preserves I runtime.
Proof. intros st H. exact H. Qed.

Lemma preserves_theWorld : preserves I theWorld.
Proof. intros st H. exact H. Qed.

Lemma preserves_Date_now : preserves I Date_now.
Proof. intros st H. exact H. Qed.

Lemma preserves_request {A} op (m : M A) : preserves I m -> preserves I (request op m).
Proof.
  intros Hm st H. unfold exec, request, bind, theWorld, throw. simpl.
  destruct (fault (world st) op); [done | by apply Hm].
Qed.

Lemma preserves_if {A} (b : bool) (m1 m2 : M A) :
  preserves I m1 -> preserves I m2 -> preserves I (if b then m1 else m2).
Proof. by destruct b. Qed.
End Preserves.

(** ** Validation of a candidate *)

Lemma isValidOpponent_spec opp u st :
  isValidOpponent opp u st = (Ok (validOpponent opp u st), st).
Proof.
  unfold isValidOpponent, validOpponent, getDoc. unfold_m. simpl.
  destruct (bool_decide (qp_userId opp = Some u) || bool_decide (Some (qp_id opp) = currentQueueId (svc st)));
    [reflexivity|].
  destruct (fault (world st) (OpGetQueue (qp_id opp))); [reflexivity|].
  destruct (queue (world st) !! qp_id opp) as [data|]; [|reflexivity]. simpl.
  destruct (30000 <? entryAge (clock (world st)) data); [reflexivity|].
  destruct (bool_decide (qd_status data = searching)); reflexivity.
Qed.

Lemma validOpponent_true opp u st :
  validOpponent opp u st = true ->
  qp_userId opp ≠ Some u
  /\ Some (qp_id opp) ≠ currentQueueId (svc st)
  /\ exists data,
       queue (world st) !! qp_id opp = Some data
       /\ entryAge (clock (world st)) data <= 30000
       /\ qd_status data = searching.
Proof.
  unfold validOpponent.
  destruct (bool_decide (qp_userId opp = Some u)) eqn:E1; [discriminate|].
  destruct (bool_decide (Some (qp_id opp) = currentQueueId (svc st))) eqn:E2; [discriminate|].
  simpl. apply bool_decide_eq_false in E1, E2.
  destruct (fault (world st) (OpGetQueue (qp_id opp))); [discriminate|].
  destruct (queue (world st) !! qp_id opp) as [data|]; [|discriminate].
  destruct (30000 <? entryAge (clock (world st)) data) eqn:E3; [discriminate|].
  intros E4. apply bool_decide_eq_true in E4. apply Z.ltb_ge in E3. eauto 10.
Qed.

(** C4. When the document that [isValidOpponent] reads back for the
    candidate has an age [now - max(lastHeartbeat, timestamp)] above
    30000 ms, the answer is false (and nothing is changed): a stale entry is
    never accepted as an opponent. *)
Theorem stale_candidate_rejected (opponent : QueuePlayer) (currentUserId : string)
    (st : State) (data : QueueDoc) :
  queue (world st) !! qp_id opponent = Some data ->
  30000 < staleAge (clock (world st)) data ->
  result (isValidOpponent opponent currentUserId) st = Ok false
  /\ exec (isValidOpponent opponent currentUserId) st = st.
Proof.
  intros Hd Hage. unfold result, exec. rewrite isValidOpponent_spec. simpl.
  split; [|reflexivity]. f_equal.
  destruct (validOpponent opponent currentUserId st) eqn:E; [|reflexivity].
  apply validOpponent_true in E as (_ & _ & d & Hd' & Ha & _).
  pose proof (staleAge_le_entryAge (clock (world st)) data). simplify_eq. lia.
Qed.

Lemma stale_candidate_witness :
  result (isValidOpponent Scenario.cachedBob "alice") Scenario.aliceStale = Ok false.
Proof.
  apply (stale_candidate_rejected Scenario.cachedBob "alice" Scenario.aliceStale
           (Scenario.entry Scenario.bob (Some 1500) (Scenario.now0 - 2000))).
  - reflexivity.
  - vm_compute. reflexivity.
Defined.

(** ** What one attempt to create a match does *)

(** Either the store is left as it was, or the transaction committed: the
    initiator's entry is gone, one match document is new, and the client is
    matched and torn down. *)
Lemma createMatchFromQueue_effect cu opp st :
  let st' := exec (createMatchFromQueue cu opp) st in
  rt st' = rt st /\ world st' = world st
  /\ (currentQueueId (svc st') = currentQueueId (svc st) \/ currentQueueId (svc st') = None)
  \/ exists user cur od cd,
       cu = Some user
       /\ isMatched (svc st) = false
       /\ currentQueueId (svc st) = Some cur
       /\ fault (world st) OpTransaction = None
       /\ queue (world st) !! qp_id opp = Some od
       /\ queue (world st) !! cur = Some cd
       /\ fit (clock (world st)) od
       /\ fit (clock (world st)) cd
       /\ auth_currentUser (rt st') = auth_currentUser (rt st)
       /\ onMatchFound_calls (rt st') = onMatchFound_calls (rt st)
       /\ isMatched (svc st') = true
       /\ currentQueueId (svc st') = None
       /\ world st' =
            mkWorld (delete cur (queue (world st)))
              (<[fresh (dom (matches (world st))) := writtenMatch user opp od (clock (world st))]>
                 (matches (world st)))
              (clock (world st)) (fault (world st)).
Proof.
  intros st'. subst st'. unfold exec. rewrite createMatchFromQueue_spec.
  destruct (isMatched (svc st)) eqn:Em; [left; auto|].
  destruct (currentQueueId (svc st)) as [cur|] eqn:Ec; [|left; simpl; auto]. cbn zeta.
  destruct (is_set (Some cur)) eqn:Es; [|left; simpl; auto].
  set (st1 := mkState _ _ _).
  destruct (runTransaction_matchTransaction cu opp (qp_id opp) cur
              (fresh (dom (matches (world st)))) st1) as [[e He]|Hok].
  - rewrite He. left. simpl. auto.
  - destruct Hok as (user & od & cd & -> & Hf & Ho & Hc & Fo & Fc & _ & He).
    rewrite He. rewrite cleanup_spec. right. exists user, cur, od, cd. simpl.
    subst st1. cbn [world] in *. destruct Fo, Fc. repeat split; done.
Qed.

Lemma createsNoSelfMatch_refl w : createsNoSelfMatch w w.
Proof. intros id m H. by left. Qed.

Lemma createsNoSelfMatch_trans w1 w2 w3 :
  createsNoSelfMatch w1 w2 -> createsNoSelfMatch w2 w3 -> createsNoSelfMatch w1 w3.
Proof.
  intros H12 H23 id m H. destruct (H23 id m H) as [H2|]; [|by right]. by apply H12.
Qed.

(** A step that keeps the principal and adds no match document keeps the
    invariant. *)
Lemma noSelfInv_frame user w0 st st' :
  auth_currentUser (rt st') = auth_currentUser (rt st) ->
  (forall id m, matches (world st') !! id = Some m -> matches (world st) !! id = Some m) ->
  noSelfInv user w0 st -> noSelfInv user w0 st'.
Proof.
  intros Ha Hm [Hu Hi]. split; [congruence|].
  intros id m H. apply Hi. by apply Hm.
Qed.

Lemma noSelfInv_update user w0 f : preserves (noSelfInv user w0) (update f).
Proof. intros st. by apply noSelfInv_frame. Qed.

Lemma noSelfInv_cleanup user w0 : preserves (noSelfInv user w0) cleanup.
Proof. intros st. unfold exec. rewrite cleanup_spec. by apply noSelfInv_frame. Qed.

Lemma noSelfInv_isValidOpponent user w0 opp u :
  preserves (noSelfInv user w0) (isValidOpponent opp u).
Proof. intros st. unfold exec. by rewrite isValidOpponent_spec. Qed.

Lemma noSelfInv_createMatch user w0 opp :
  qp_userId opp ≠ Some (uid user) ->
  preserves (noSelfInv user w0)
    (u <- authCurrentUser ;; createMatchFromQueue u opp ;;; ret true).
Proof.
  intros Hne st [Hu Hi]. unfold exec, authCurrentUser. unfold bind at 1 2. unfold runtime, ret at 1.
  cbn [rt fst snd]. rewrite Hu. unfold bind, ret.
  pose proof (createMatchFromQueue_effect (Some user) opp st) as He.
  pose proof (createMatchFromQueue_returns (Some user) opp st) as Hr.
  unfold exec, result in He, Hr.
  destruct (createMatchFromQueue (Some user) opp st) as [r st']. simpl in *. subst r.
  simpl. destruct He as [(Hrt & Hw & _)|He].
  - split; [by rewrite Hrt|by rewrite Hw].
  - destruct He as (user' & cur & od & cd & Hu' & _ & _ & _ & _ & _ & _ & _ & Ha & _ & _ & _ & Hw).
    simplify_eq. split; [congruence|].
    rewrite Hw. intros id m. cbn [matches].
    destruct (decide (id = fresh (dom (matches (world st))))) as [-> | Hid].
    + rewrite lookup_insert_eq. intros [= <-]. right. simpl. congruence.
    + rewrite lookup_insert_ne by done. apply Hi.
Qed.

Lemma noSelfInv_update_rt_subs user w0 (f : Runtime -> gmap nat Callback) :
  preserves (noSelfInv user w0) (update_rt (fun r => set_subscriptions (f r) r)).
Proof. intros st. by apply noSelfInv_frame. Qed.

Lemma noSelfInv_unsubscribe user w0 l : preserves (noSelfInv user w0) (unsubscribe l).
Proof. intros st. by apply noSelfInv_frame. Qed.

Lemma noSelfInv_getDocs user w0 p : preserves (noSelfInv user w0) (getDocs p).
Proof.
  apply preserves_request. apply preserves_bind; [apply preserves_theWorld|].
  intros w. apply preserves_ret.
Qed.

(** The body of both discovery loops after the candidate passed the
    same-user test. *)
Lemma noSelfInv_try_candidate user w0 opp (h : Error -> M bool) :
  qp_userId opp ≠ Some (uid user) ->
  (forall e, preserves (noSelfInv user w0) (h e)) ->
  preserves (noSelfInv user w0)
    (try_catch
       (valid <- isValidOpponent opp (uid user) ;;
        if valid then
          u <- authCurrentUser ;; createMatchFromQueue u opp ;;; ret true
        else
          update (set_isCreatingMatch false) ;;; ret false)
       h).
Proof.
  intros Hne Hh. apply preserves_try_catch; [|exact Hh].
  apply preserves_bind; [apply noSelfInv_isValidOpponent|]. intros [|].
  - by apply noSelfInv_createMatch.
  - apply preserves_bind; [apply noSelfInv_update|]. intros _. apply preserves_ret.
Qed.

Lemma noSelfInv_scanLoop user w0 docs :
  preserves (noSelfInv user w0) (scanLoop (uid user) docs).
Proof.
  induction docs as [|[id data] rest IH]; simpl.
  - apply preserves_ret.
  - apply preserves_bind; [apply preserves_this|]. intros s.
    destruct (isMatched s || isCreatingMatch s); [apply preserves_ret|].
    destruct (bool_decide (Some id = currentQueueId s)); [exact IH|].
    destruct (bool_decide (qd_userId data = Some (uid user))) eqn:E; [exact IH|].
    apply bool_decide_eq_false in E.
    apply preserves_bind; [apply noSelfInv_update|]. intros _.
    apply preserves_bind.
    + apply noSelfInv_try_candidate; [exact E|].
      intros e. apply preserves_bind; [apply noSelfInv_update|]. intros _.
      apply preserves_ret.
    + intros [|]; [apply preserves_ret|exact IH].
Qed.

Lemma noSelfInv_scanQueueForOpponents user w0 :
  preserves (noSelfInv user w0) (scanQueueForOpponents (uid user)).
Proof.
  unfold scanQueueForOpponents.
  apply preserves_bind; [apply preserves_this|]. intros s.
  apply preserves_if; [apply preserves_ret|].
  apply preserves_try_catch.
  - apply preserves_bind; [apply noSelfInv_getDocs|]. intros docs.
    apply noSelfInv_scanLoop.
  - intros e. apply noSelfInv_update.
Qed.

Lemma noSelfInv_queueLoop user w0 sub changes :
  preserves (noSelfInv user w0) (queueLoop (uid user) sub changes).
Proof.
  induction changes as [|change rest IH]; simpl.
  - apply preserves_ret.
  - apply preserves_bind; [apply preserves_this|]. intros s.
    apply preserves_if; [|exact IH].
    destruct (bool_decide (Some (change_id change) = currentQueueId s)); [exact IH|].
    destruct (bool_decide (qd_userId (change_data change) = Some (uid user))) eqn:E; [exact IH|].
    apply bool_decide_eq_false in E.
    apply preserves_bind; [apply noSelfInv_update|]. intros _.
    apply preserves_bind.
    + apply noSelfInv_try_candidate; [exact E|].
      intros e. apply preserves_bind; [apply preserves_this|]. intros s'.
      apply preserves_if.
      * apply preserves_bind; [apply noSelfInv_unsubscribe|]. intros _.
        apply preserves_bind; [apply noSelfInv_update|]. intros _.
        apply preserves_bind; [apply noSelfInv_update|]. intros _.
        apply preserves_ret.
      * apply preserves_bind.
        -- apply preserves_if; [apply noSelfInv_unsubscribe|apply preserves_ret].
        -- intros _. apply preserves_bind; [apply noSelfInv_update|]. intros _.
           apply preserves_ret.
    + intros [|]; [apply preserves_ret|exact IH].
Qed.

Lemma noSelfInv_onQueueSnapshot user w0 sub changes :
  preserves (noSelfInv user w0) (onQueueSnapshot (uid user) sub changes).
Proof.
  unfold onQueueSnapshot.
  apply preserves_bind; [apply preserves_this|]. intros s.
  apply preserves_if; [apply preserves_ret|apply noSelfInv_queueLoop].
Qed.

(** Structural steps of a preservation proof; the leaves come from the
    hint database [pres]. *)
Create HintDb pres.

Ltac pres :=
  repeat first
    [ solve [auto with pres]
    | apply preserves_ret
    | apply preserves_throw
    | apply preserves_this
    | apply preserves_runtime
    | apply preserves_theWorld
    | apply preserves_Date_now
    | apply preserves_request
    | apply preserves_bind; [|intros ?]
    | apply preserves_try_catch; [|intros ?]
    | apply preserves_try_finally
    | progress cbv zeta
    | match goal with
      | |- preserves _ (if ?b then _ else _) => destruct b
      | |- preserves _ (match ?x with _ => _ end) => destruct x
      end ].

Lemma noSelfInv_update_rt user w0 f :
  (forall r, auth_currentUser (f r) = auth_currentUser r) ->
  preserves (noSelfInv user w0) (update_rt f).
Proof. intros Hf st. apply noSelfInv_frame; simpl; auto. Qed.

Lemma noSelfInv_update_world user w0 f :
  (forall w id m, matches (f w) !! id = Some m -> matches w !! id = Some m) ->
  preserves (noSelfInv user w0) (update_world f).
Proof. intros Hf st. apply noSelfInv_frame; simpl; auto. Qed.

Lemma noSelfInv_queue_write user w0 (q : World -> gmap string QueueDoc) :
  preserves (noSelfInv user w0) (update_world (fun w => set_queue (q w) w)).
Proof. apply noSelfInv_update_world. auto. Qed.

Lemma noSelfInv_set_queue user w0 q :
  preserves (noSelfInv user w0) (update_world (set_queue q)).
Proof. apply noSelfInv_update_world. auto. Qed.

Lemma noSelfInv_sleep user w0 ms : preserves (noSelfInv user w0) (sleep ms).
Proof. apply noSelfInv_update_world. auto. Qed.

Lemma noSelfInv_deleteDoc_match user w0 id :
  preserves (noSelfInv user w0) (deleteDoc_match id).
Proof.
  apply preserves_request. apply noSelfInv_update_world.
  intros w i m. cbn [matches set_matches]. rewrite lookup_delete_Some. tauto.
Qed.

Lemma noSelfInv_log_onError user w0 e :
  preserves (noSelfInv user w0) (update_rt (log_onError e)).
Proof. by apply noSelfInv_update_rt. Qed.

Lemma noSelfInv_set_cells user w0 c :
  preserves (noSelfInv user w0) (update_rt (set_cells c)).
Proof. by apply noSelfInv_update_rt. Qed.

Lemma noSelfInv_set_subscriptions user w0 c :
  preserves (noSelfInv user w0) (update_rt (set_subscriptions c)).
Proof. by apply noSelfInv_update_rt. Qed.

Lemma noSelfInv_set_timers user w0 c :
  preserves (noSelfInv user w0) (update_rt (set_timers c)).
Proof. by apply noSelfInv_update_rt. Qed.

#[local] Hint Resolve noSelfInv_update noSelfInv_cleanup noSelfInv_isValidOpponent
  noSelfInv_unsubscribe noSelfInv_getDocs noSelfInv_scanQueueForOpponents
  noSelfInv_onQueueSnapshot noSelfInv_queue_write noSelfInv_set_queue noSelfInv_sleep
  noSelfInv_deleteDoc_match noSelfInv_log_onError noSelfInv_set_cells
  noSelfInv_set_subscriptions noSelfInv_set_timers : pres.

Lemma noSelfInv_deleteOthers user w0 docs newest :
  preserves (noSelfInv user w0) (deleteOthers docs newest).
Proof.
  induction docs as [|[id d] rest IH]; simpl; [apply preserves_ret|].
  apply preserves_bind; [|intros _; exact IH]. unfold deleteDoc. pres.
Qed.

Lemma noSelfInv_deleteStaleQueue user w0 now docs :
  preserves (noSelfInv user w0) (deleteStaleQueue now docs).
Proof.
  induction docs as [|[id d] rest IH]; simpl; [apply preserves_ret|].
  apply preserves_bind; [|intros _; exact IH]. unfold deleteDoc. pres.
Qed.

Lemma noSelfInv_deleteOldMatches user w0 docs :
  preserves (noSelfInv user w0) (deleteOldMatches docs).
Proof.
  induction docs as [|[id d] rest IH]; simpl; [apply preserves_ret|].
  apply preserves_bind; [|intros _; exact IH]. pres.
Qed.

#[local] Hint Resolve noSelfInv_deleteOthers noSelfInv_deleteStaleQueue
  noSelfInv_deleteOldMatches : pres.

Lemma noSelfInv_upsertQueueEntry user w0 u :
  preserves (noSelfInv user w0) (upsertQueueEntry u).
Proof. unfold upsertQueueEntry, updateDoc, addDoc. pres. Qed.

Lemma noSelfInv_cleanupEverything user w0 :
  preserves (noSelfInv user w0) cleanupEverything.
Proof. unfold cleanupEverything, getDocs_matches. pres. Qed.

Lemma noSelfInv_setup user w0 u :
  preserves (noSelfInv user w0) (setupMatchListeners u)
  /\ preserves (noSelfInv user w0) (setupQueueListener u)
  /\ preserves (noSelfInv user w0) startHeartbeat.
Proof.
  unfold setupMatchListeners, setupQueueListener, startHeartbeat, onSnapshot.
  split; [|split]; pres.
Qed.

Lemma waitForAuth_signed_in u signsIn t st :
  auth_currentUser (rt st) = Some u -> waitForAuth signsIn t st = (Ok (Some u), st).
Proof. intros H. unfold waitForAuth. unfold_m. simpl. by rewrite H. Qed.

Lemma noSelfInv_joinQueue user w0 signsIn jitter :
  preserves (noSelfInv user w0) (joinQueue signsIn jitter).
Proof.
  intros st HI. pose proof HI as [Hu _].
  unfold exec, joinQueue. unfold bind at 1.
  rewrite (waitForAuth_signed_in user) by done.
  revert st HI Hu. 
  match goal with
  | |- forall st, _ -> _ -> noSelfInv _ _ (snd (?m st)) =>
      intros st HI _; assert (preserves (noSelfInv user w0) m) as Hp; [|by apply Hp]
  end.
  destruct (noSelfInv_setup user w0 (uid user)) as (H1 & H2 & H3).
  pose proof (noSelfInv_upsertQueueEntry user w0 user).
  pose proof (noSelfInv_cleanupEverything user w0).
  pres.
Qed.

(** C3, as the code has it.  While the signed-in principal is [user], the
    principal the service joined for (the scan and the queue listener test
    candidates against the id captured by [joinQueue], and [player1] is
    written from the principal signed in when the match is created), no
    match document that the service creates pairs [user] with itself:
    whatever the queue holds (duplicate or stale entries of the same user
    id included), every match document that a whole [joinQueue], the
    immediate scan, or a delivery to the live queue listener adds to the
    store has [player1.userId ≠ player2.userId]; and [isValidOpponent]
    rejects every candidate with the caller's own user id or own entry
    id. *)
Theorem no_self_match (user : User) (st : State) :
  auth_currentUser (rt st) = Some user ->
  (forall signsIn jitter,
     createsNoSelfMatch (world st) (world (exec (joinQueue signsIn jitter) st)))
  /\ createsNoSelfMatch (world st) (world (exec (scanQueueForOpponents (uid user)) st))
  /\ (forall sub changes,
        createsNoSelfMatch (world st)
          (world (exec (onQueueSnapshot (uid user) sub changes) st)))
  /\ (forall opponent,
        qp_userId opponent = Some (uid user)
        \/ Some (qp_id opponent) = currentQueueId (svc st) ->
        result (isValidOpponent opponent (uid user)) st = Ok false).
Proof.
  intros Hu.
  assert (HI : noSelfInv user (world st) st) by (split; [done|apply createsNoSelfMatch_refl]).
  split; [|split; [|split]].
  - intros signsIn jitter. by apply (noSelfInv_joinQueue user (world st) signsIn jitter st).
  - by apply (noSelfInv_scanQueueForOpponents user (world st) st).
  - intros sub changes. by apply (noSelfInv_onQueueSnapshot user (world st) sub changes st).
  - intros opp Hopp. unfold result. rewrite isValidOpponent_spec. simpl. f_equal.
    unfold validOpponent.
    destruct Hopp as [H|H]; rewrite (bool_decide_eq_true_2 _ H); [done|].
    by rewrite orb_true_r.
Qed.

Lemma no_self_match_witness :
  createsNoSelfMatch (world Scenario2.aliceDup)
    (world (exec (scanQueueForOpponents "alice") Scenario2.aliceDup)).
Proof.
  pose proof (no_self_match Scenario.alice Scenario2.aliceDup eq_refl) as (_ & H & _).
  exact H.
Defined.

(** C3 as stated fails: the queue listener tests the user id that
    [joinQueue] captured (alice), and [createMatchFromQueue] writes
    [player1] from the principal signed in when the match is created.
    When bob has signed in meanwhile, the listener registered for alice
    accepts bob's entry and the match document pairs bob with bob. *)
Lemma self_match_counterexample :
  let st := Scenario6.bobSignedIn in
  let st' := exec (onQueueSnapshot "alice" 0 [Scenario6.bobAdded]) st in
  ~ createsNoSelfMatch (world st) (world st').
Proof.
  intros st st' H.
  destruct (H "0"
              (writtenMatch Scenario.bob
                 (potentialOpponent "qb"
                    (Scenario.entry Scenario.bob (Some 1500) (Scenario.now0 - 2000)))
                 (Scenario.entry Scenario.bob (Some 1500) (Scenario.now0 - 2000))
                 Scenario.now0)) as [Hold | Hne].
  - vm_compute. reflexivity.
  - vm_compute in Hold. discriminate Hold.
  - apply Hne. reflexivity.
Qed.

(** ** The match listeners *)

Lemma handleMatch_calls j cell m st :
  let st' := exec (handleMatch j cell m) st in
  onMatchFound_calls (rt st') = onMatchFound_calls (rt st)
  \/ (onMatchFound_calls (rt st') = m :: onMatchFound_calls (rt st)
      /\ j < createdAt_or_0 m).
Proof.
  unfold handleMatch, createdAt_or_0. cbv zeta.
  destruct (JS.or_lit (m_createdAt (snd m)) 0 <=? j) eqn:E; [by left|].
  apply Z.leb_gt in E. unfold exec. run.
  destruct (negb (isMatched (svc st)) && negb (default false (cells (rt st) !! cell)));
    [|by left].
  right. split; [|exact E].
  run. rewrite cleanup_spec. reflexivity.
Qed.

Lemma onMatchSnapshot_calls j cell changes st :
  exists new,
    onMatchFound_calls (rt (exec (onMatchSnapshot j cell changes) st))
    = new ++ onMatchFound_calls (rt st)
    /\ Forall (fun m => j < createdAt_or_0 m) new.
Proof.
  revert st. induction changes as [|change rest IH]; intros st; simpl.
  - by exists [].
  - unfold exec. run.
    destruct (bool_decide (change_type change = added)
              && negb (default false (cells (rt st) !! cell))).
    + pose proof (handleMatch_calls j cell (change_id change, change_data change) st) as Hh.
      unfold exec in Hh. unfold bind.
      destruct (handleMatch j cell (change_id change, change_data change) st)
        as [[[]|e] st1]; simpl in Hh |- *.
      * destruct (IH st1) as (new & Hn & Hf). unfold exec in Hn. rewrite Hn.
        destruct Hh as [-> | [-> Hm]].
        -- by exists new.
        -- exists (new ++ [(change_id change, change_data change)]).
           rewrite <- app_assoc. split; [done|].
           apply Forall_app. split; [done|]. by constructor.
      * destruct Hh as [-> | [-> Hm]].
        -- by exists [].
        -- exists [(change_id change, change_data change)]. split; [done|]. by constructor.
    + run. apply IH.
Qed.

Lemma setupMatchListeners_callbacks u j st :
  joinedAt (svc st) = Some j ->
  let st' := exec (setupMatchListeners u) st in
  exists sub1 sub2 cell,
    matchListener (svc st') = Some [sub1; sub2]
    /\ sub1 ≠ sub2
    /\ subscriptions (rt st') !! sub1 = Some (MatchCallback j cell)
    /\ subscriptions (rt st') !! sub2 = Some (MatchCallback j cell)
    /\ cells (rt st') !! cell = Some false.
Proof.
  intros Hj. unfold setupMatchListeners, onSnapshot. unfold_m. simpl. rewrite Hj. simpl.
  set (cell := fresh (dom (cells (rt st)))).
  set (sub1 := fresh (dom (subscriptions (rt st)))).
  set (subs1 := <[sub1 := MatchCallback j cell]> (subscriptions (rt st))).
  set (sub2 := fresh (dom subs1)).
  assert (sub1 ≠ sub2).
  { intros E. pose proof (is_fresh (dom subs1)) as Hf. fold sub2 in Hf. apply Hf.
    rewrite <- E. subst subs1. rewrite dom_insert_L. set_solver. }
  exists sub1, sub2, cell. repeat split; try done.
  - rewrite lookup_insert_ne by done. subst subs1. by rewrite lookup_insert_eq.
  - by rewrite lookup_insert_eq.
  - by rewrite lookup_insert_eq.
Qed.

(** C5. Both match subscriptions that [setupMatchListeners] registers in a
    session whose recorded [joinedAt] is [j] carry [j]; and whatever
    snapshot is delivered to a subscription that carries [j], every call of
    [onMatchFound] it causes is for a match with [createdAt || 0 > j]: a
    match with [createdAt <= j] (a missing [createdAt] counting as 0)
    never reaches the callback. *)
Theorem session_isolation (userId : string) (j : Z) (st : State) :
  joinedAt (svc st) = Some j ->
  let st1 := exec (setupMatchListeners userId) st in
  (exists sub1 sub2 cell,
     matchListener (svc st1) = Some [sub1; sub2]
     /\ subscriptions (rt st1) !! sub1 = Some (MatchCallback j cell)
     /\ subscriptions (rt st1) !! sub2 = Some (MatchCallback j cell))
  /\ forall st2 sub cell changes,
       subscriptions (rt st2) !! sub = Some (MatchCallback j cell) ->
       exists new,
         onMatchFound_calls (rt (exec (deliver sub (MatchSnapshot changes)) st2))
         = new ++ onMatchFound_calls (rt st2)
         /\ forall m, m ∈ new -> ~ (createdAt_or_0 m <= j).
Proof.
  intros Hj st1. split.
  - destruct (setupMatchListeners_callbacks userId j st Hj)
      as (sub1 & sub2 & cell & H1 & _ & H2 & H3 & _).
    exists sub1, sub2, cell. auto.
  - intros st2 sub cell changes Hsub.
    unfold exec, deliver. unfold bind at 1, runtime at 1. cbn [rt]. rewrite Hsub.
    destruct (onMatchSnapshot_calls j cell changes st2) as (new & Hn & Hf).
    exists new. split; [exact Hn|].
    intros m Hm. rewrite Forall_forall in Hf. specialize (Hf m Hm). lia.
Qed.

Lemma session_isolation_witness :
  exists new,
    onMatchFound_calls
      (rt (exec (deliver 0%nat
                   (MatchSnapshot [mkChange added "m_old" Scenario2.oldMatch;
                                   mkChange added "m_new" Scenario2.newMatch]))
             Scenario2.aliceListening))
    = new ++ onMatchFound_calls (rt Scenario2.aliceListening)
    /\ forall m, m ∈ new -> ~ (createdAt_or_0 m <= Scenario.now0 - 2000).
Proof.
  destruct (session_isolation "alice" (Scenario.now0 - 2000) Scenario.aliceState eq_refl)
    as [_ H].
  apply (H Scenario2.aliceListening 0%nat 0%nat). vm_compute. reflexivity.
Defined.

(** The leftover match is ignored, the new one is reported once. *)
Example old_match_ignored :
  onMatchFound_calls
    (rt (exec (deliver 0%nat (MatchSnapshot [mkChange added "m_old" Scenario2.oldMatch]))
           Scenario2.aliceListening)) = [].
Proof. vm_compute. reflexivity. Qed.

Example new_match_reported :
  onMatchFound_calls
    (rt (exec (deliver 1%nat
                 (MatchSnapshot [mkChange added "m_old" Scenario2.oldMatch;
                                 mkChange added "m_new" Scenario2.newMatch;
                                 mkChange added "m_again" Scenario2.newMatch]))
           Scenario2.aliceListening)) = [("m_new", Scenario2.newMatch)].
Proof. vm_compute. reflexivity. Qed.

(** A whole [joinQueue] with nobody else searching: the session's
    [joinedAt] is the time after the cleanup pass and the 2 s wait, both
    match subscriptions carry it, and alice has one entry, which the
    service tracks. *)
Example joinQueue_alone :
  let st := exec (joinQueue None 50) Scenario3.aliceAlone in
  joinedAt (svc st) = Some (Scenario.now0 + 2000)
  /\ map_to_list (subscriptions (rt st))
     = [(2%nat, QueueCallback "alice");
        (1%nat, MatchCallback (Scenario.now0 + 2000) 0);
        (0%nat, MatchCallback (Scenario.now0 + 2000) 0)]
  /\ currentQueueId (svc st) = Some "0"
  /\ (map_to_list (queue (world st))).*1 = ["0"]
  /\ isJoiningQueue (svc st) = false.
Proof. vm_compute. repeat split; reflexivity. Qed.

(** ** Deletion loops *)

Lemma deleteDoc_eq id st :
  deleteDoc id st =
    match fault (world st) (OpDeleteQueue id) with
    | Some e => (Throw e, st)
    | None => (Ok tt, mkState (svc st) (rt st) (set_queue (delete id (queue (world st))) (world st)))
    end.
Proof.
  unfold deleteDoc. unfold_m. simpl. destruct (fault (world st) (OpDeleteQueue id)); reflexivity.
Qed.

Lemma tryDeleteAll_spec ids st :
  tryDeleteAll ids st =
    (Ok tt,
     mkState (svc st) (rt st)
       (set_queue (foldr delete (queue (world st)) (deletable (world st) ids)) (world st))).
Proof.
  revert st. induction ids as [|id rest IH]; intros st; simpl.
  - destruct st as [s r []]; reflexivity.
  - unfold bind, try_catch. rewrite deleteDoc_eq. unfold deletable. simpl.
    destruct (fault (world st) (OpDeleteQueue id)) as [e|] eqn:Ef; simpl.
    + rewrite IH. reflexivity.
    + rewrite IH. simpl. unfold deletable. simpl. f_equal. f_equal. unfold set_queue. simpl.
      f_equal. symmetry. apply delete_foldr_delete.
Qed.

Lemma deleteOthers_tryDeleteAll docs newest :
  deleteOthers docs newest =
    tryDeleteAll (List.filter (fun id => negb (bool_decide (Some id = newest))) (docs.*1)).
Proof.
  induction docs as [|[id d] rest IH]; simpl; [reflexivity|].
  rewrite IH. destruct (bool_decide (Some id = newest)); simpl; [|reflexivity].
  unfold bind, ret. reflexivity.
Qed.

Lemma deleteStaleQueue_tryDeleteAll now docs :
  deleteStaleQueue now docs =
    tryDeleteAll
      (List.filter
         (fun ds =>
            JS.gt (JS.minus now (JS.or_num (qd_lastHeartbeat (snd ds)) (qd_timestamp (snd ds))))
              30000)
         docs).*1.
Proof.
  induction docs as [|[id d] rest IH]; simpl; [reflexivity|].
  rewrite IH. destruct (JS.gt _ _); simpl; [|reflexivity]. reflexivity.
Qed.

(** ** [upsertQueueEntry] *)

Lemma newestLoop_spec docs acc :
  let r := newestLoop docs acc in
  ((r = acc /\ forall k d, (k, d) ∈ docs -> JS.or_lit (qd_timestamp d) 0 <= snd acc)
   \/ (exists k d,
         (k, d) ∈ docs /\ r = (Some k, JS.or_lit (qd_timestamp d) 0) /\ snd acc < snd r))
  /\ forall k d, (k, d) ∈ docs -> JS.or_lit (qd_timestamp d) 0 <= snd r.
Proof.
  revert acc. induction docs as [|[id data] rest IH]; intros acc; simpl.
  - split; [left; split; [done|]|]; intros k d H; inversion H.
  - destruct (snd acc <? JS.or_lit (qd_timestamp data) 0) eqn:E.
    + apply Z.ltb_lt in E.
      destruct (IH (Some id, JS.or_lit (qd_timestamp data) 0)) as [[[Hr Hle]|Hex] Hmax];
        simpl in *.
      * split.
        -- right. exists id, data. rewrite Hr. simpl. split; [by left|done].
        -- intros k d Hin. apply elem_of_cons in Hin as [[= -> ->]|Hin]; [|by eapply Hmax].
           rewrite Hr. simpl. lia.
      * destruct Hex as (k & d & Hin & Hr & Hlt). split.
        -- right. exists k, d. split; [by right|]. split; [done|]. lia.
        -- intros k' d' Hin'. apply elem_of_cons in Hin' as [[= -> ->]|Hin']; [|by eapply Hmax].
           lia.
    + apply Z.ltb_ge in E.
      destruct (IH acc) as [[[Hr Hle]|Hex] Hmax].
      * split.
        -- left. split; [done|]. intros k d Hin.
           apply elem_of_cons in Hin as [[= -> ->]|Hin]; [done|by eapply Hle].
        -- intros k d Hin. apply elem_of_cons in Hin as [[= -> ->]|Hin]; [|by eapply Hmax].
           rewrite Hr. done.
      * destruct Hex as (k & d & Hin & Hr & Hlt). split.
        -- right. exists k, d. split; [by right|done].
        -- intros k' d' Hin'. apply elem_of_cons in Hin' as [[= -> ->]|Hin']; [|by eapply Hmax].
           lia.
Qed.

Lemma elem_of_upsertSnapshot u q k d :
  (k, d) ∈ upsertSnapshot u q <-> q !! k = Some d /\ searchingOf u d.
Proof.
  unfold upsertSnapshot, searchingOf, selects.
  rewrite list_elem_of_In, filter_In, <- list_elem_of_In.
  rewrite elem_of_map_to_list. simpl.
  rewrite andb_true_iff, !bool_decide_eq_true. tauto.
Qed.

Lemma getDocs_eq p st :
  fault (world st) (OpQueryQueue p) = None ->
  getDocs p st =
    (Ok (List.filter (fun ds => selects p (snd ds)) (map_to_list (queue (world st)))), st).
Proof. intros H. unfold getDocs. unfold_m. simpl. by rewrite H. Qed.

Lemma updateDoc_eq id f st d :
  fault (world st) (OpUpdateQueue id) = None ->
  queue (world st) !! id = Some d ->
  updateDoc id f st =
    (Ok tt, mkState (svc st) (rt st) (set_queue (<[id := f d]> (queue (world st))) (world st))).
Proof. intros H Hd. unfold updateDoc. unfold_m. simpl. by rewrite H, Hd. Qed.

Lemma addDoc_eq data st :
  fault (world st) OpAddQueue = None ->
  addDoc data st =
    (Ok (fresh ({[""]} ∪ dom (queue (world st)))),
     mkState (svc st) (rt st)
       (set_queue (<[fresh ({[""]} ∪ dom (queue (world st))) := data]> (queue (world st)))
          (world st))).
Proof. intros H. unfold addDoc. unfold_m. simpl. by rewrite H. Qed.

Lemma fresh_queue_id (q : gmap string QueueDoc) :
  fresh ({[""]} ∪ dom q) ≠ "" /\ q !! fresh ({[""]} ∪ dom q) = None.
Proof.
  pose proof (is_fresh ({[""]} ∪ dom q)) as H.
  split.
  - intros E. apply H. rewrite E. set_solver.
  - apply not_elem_of_dom. set_solver.
Qed.

Lemma deletable_noFault w ids :
  (forall op, fault w op = None) -> deletable w ids = ids.
Proof.
  intros H. unfold deletable. induction ids as [|i l IH]; simpl; [done|].
  rewrite bool_decide_eq_true_2 by apply H. by rewrite IH.
Qed.

(** One call of [upsertQueueEntry] on a store that answers. *)
Lemma upsert_once user st :
  (forall op, fault (world st) op = None) ->
  queue (world st) !! "" = None ->
  stamped (uid user) (queue (world st)) ->
  exists id q',
    upsertQueueEntry user st =
      (Ok (Some id), mkState (svc st) (rt st) (set_queue q' (world st)))
    /\ id ≠ ""
    /\ q' !! "" = None
    /\ upserted user (clock (world st)) (queue (world st)) q' id.
Proof.
  intros Hf Hempty Hst.
  unfold upsertQueueEntry. unfold bind at 1. rewrite getDocs_eq by apply Hf.
  fold (upsertSnapshot (uid user) (queue (world st))).
  set (q := queue (world st)) in *. set (now := clock (world st)).
  destruct (upsertSnapshot (uid user) q) as [|[k0 d0] rest] eqn:EL.
  - (* no entry: create one *)
    assert (Hnone : forall k d, q !! k = Some d -> ~ searchingOf (uid user) d).
    { intros k d Hk Hs. assert ((k, d) ∈ upsertSnapshot (uid user) q) as Hin
        by (by apply elem_of_upsertSnapshot).
      rewrite EL in Hin. inversion Hin. }
    run. unfold bind. rewrite addDoc_eq by apply Hf. fold q now.
    destruct (fresh_queue_id q) as [Hne Hfr].
    set (id := fresh ({[""]} ∪ dom q)) in *.
    exists id, (<[id := newQueueEntry user now]> q). split; [reflexivity|].
    split; [done|]. split; [by rewrite lookup_insert_ne|].
    split; [|split; [|split]].
    + split.
      * exists (newQueueEntry user now). rewrite lookup_insert_eq. by repeat split.
      * intros k d Hk Hs. destruct (decide (k = id)) as [-> | Hkid]; [done|].
        rewrite lookup_insert_ne in Hk by done. by destruct (Hnone k d).
    + intros k d Hk _. rewrite lookup_insert_ne; [done|]. intros <-. congruence.
    + intros _. split; [done|]. by rewrite lookup_insert_eq.
    + intros (k & d & Hk & Hs). by destruct (Hnone k d).
  - (* some entries: refresh the newest, delete the others *)
    assert (Hin0 : (k0, d0) ∈ upsertSnapshot (uid user) q) by (rewrite EL; by left).
    cbv beta iota. rewrite <- EL. clear EL. set (L := upsertSnapshot (uid user) q) in *.
    destruct (newestLoop_spec L (None, 0)) as [[[Hr Hle]|(k & d & Hin & Hr & Hlt)] Hmax].
    { exfalso. apply elem_of_upsertSnapshot in Hin0 as [Hk0 Hs0].
      specialize (Hst k0 d0 Hk0 Hs0).
      assert ((k0, d0) ∈ L) as Hin by (by apply elem_of_upsertSnapshot).
      specialize (Hle k0 d0 Hin). simpl in Hle. lia. }
    rewrite Hr in *. cbn [fst snd] in *.
    pose proof Hin as Hin'. apply elem_of_upsertSnapshot in Hin' as [Hk Hs].
    assert (Hne : k ≠ "") by (intros ->; congruence).
    rewrite (proj2 (is_set_Some k) Hne).
    set (others := List.filter (fun id => negb (bool_decide (Some id = Some k))) (L.*1)).
    assert (Hothers : forall k', k' ∈ others <-> k' ≠ k /\ exists d', (k', d') ∈ L).
    { intros k'. subst others. rewrite list_elem_of_In, filter_In, <- list_elem_of_In.
      rewrite negb_true_iff, bool_decide_eq_false, list_elem_of_fmap.
      split.
      - intros [([k1 d1] & -> & H1) H2]. split; [congruence|]. by exists d1.
      - intros [H1 (d' & H2)]. split; [by exists (k', d')|congruence]. }
    set (q' := foldr delete (<[k := refreshEntry user now d]> q) others).
    assert (Hq'k : q' !! k = Some (refreshEntry user now d)).
    { subst q'. rewrite lookup_foldr_delete_not_elem_of.
      - by rewrite lookup_insert_eq.
      - rewrite Hothers. tauto. }
    assert (Hq'in : forall k' d', (k', d') ∈ L -> k' ≠ k -> q' !! k' = None).
    { intros k' d' H1 H2. subst q'. apply lookup_foldr_delete. apply Hothers. eauto. }
    assert (Hq'out : forall k', (forall d', (k', d') ∉ L) -> q' !! k' = q !! k').
    { intros k' H1. subst q'. rewrite lookup_foldr_delete_not_elem_of.
      - rewrite lookup_insert_ne; [done|]. intros <-. by apply (H1 d).
      - rewrite Hothers. intros [_ (d' & H2)]. by apply (H1 d'). }
    exists k, q'. split.
    { unfold bind at 1. unfold try_catch. run. unfold bind at 1.
      rewrite (updateDoc_eq k _ st d) by (try apply Hf; done). run.
      rewrite deleteOthers_tryDeleteAll. unfold bind. rewrite tryDeleteAll_spec.
      rewrite deletable_noFault by (intros op; apply Hf). reflexivity. }
    split; [done|]. split.
    { rewrite Hq'out; [done|].
      intros d' H2. apply elem_of_upsertSnapshot in H2 as [H2 _]. congruence. }
    split; [|split; [|split]].
    + split.
      * exists (refreshEntry user now d). destruct Hs as [Hs1 Hs2]. by repeat split.
      * intros k' d' Hk' Hs'. destruct (decide (k' = k)) as [-> | Hkk]; [done|]. exfalso.
        destruct (q !! k') as [d1|] eqn:Eq1.
        -- destruct (decide (searchingOf (uid user) d1)) as [Hs1|Hs1].
           ++ assert ((k', d1) ∈ L) as H1 by (by apply elem_of_upsertSnapshot).
              rewrite (Hq'in k' d1 H1 Hkk) in Hk'. discriminate.
           ++ rewrite Hq'out in Hk'.
              ** congruence.
              ** intros d2 H2. apply elem_of_upsertSnapshot in H2 as [H2 H3]. congruence.
        -- rewrite Hq'out in Hk'; [congruence|].
           intros d2 H2. apply elem_of_upsertSnapshot in H2 as [H2 H3]. congruence.
    + intros k' d' Hk' Hns. rewrite Hq'out; [done|].
      intros d2 H2. apply elem_of_upsertSnapshot in H2 as [H2 H3]. congruence.
    + intros Hnone. exfalso. by apply (Hnone k d).
    + intros _. exists d. split; [done|]. split; [done|]. split; [|split; [done|]].
      * intros k' d' Hk' Hs'. apply (Hmax k' d'). by apply elem_of_upsertSnapshot.
      * intros k' d' Hk' Hs' Hkk. apply (Hq'in k' d'); [|done].
        by apply elem_of_upsertSnapshot.
Qed.

(** alice's newer entry survives, her older one is gone, bob's stays. *)
Example upsert_keeps_newest :
  let st := exec (upsertQueueEntry Scenario.alice) Scenario3.aliceRejoins in
  result (upsertQueueEntry Scenario.alice) Scenario3.aliceRejoins = Ok (Some "qa")
  /\ (map_to_list (queue (world st))).*1 = ["qa"; "qb"]
  /\ queue (world st) !! "qa"
     = Some (mkQueueDoc (Some "alice") (Some "alice") (Some 1000) (Some Scenario.now0) searching
               (Some Scenario.now0) "alice_1700000050000").
Proof. vm_compute. repeat split; reflexivity. Qed.

(** Two whole [joinQueue] calls in a row leave alice with one entry, the
    one the first call created, refreshed by the second. *)
Example joinQueue_twice :
  let st1 := exec (joinQueue None 50) Scenario3.aliceAlone in
  let st2 := exec (joinQueue None 50) st1 in
  currentQueueId (svc st1) = Some "0"
  /\ currentQueueId (svc st2) = Some "0"
  /\ (map_to_list (queue (world st2))).*1 = ["0"]
  /\ (qd_timestamp <$> queue (world st2) !! "0") = Some (Some (Scenario.now0 + 4050)).
Proof. vm_compute. repeat split; reflexivity. Qed.

(** The search for the newest entry starts from timestamp 0 and compares
    strictly: entries without a positive timestamp are never the newest,
    so a principal whose only entry has none loses it. *)
Example upsert_unstamped_entry :
  let st := exec (upsertQueueEntry Scenario.alice) Scenario3.aliceUnstamped in
  result (upsertQueueEntry Scenario.alice) Scenario3.aliceUnstamped = Ok None
  /\ queue (world st) = ∅.
Proof. vm_compute. split; reflexivity. Qed.

Lemma request_eq {A} op (m : M A) st :
  request op m st =
    match fault (world st) op with
    | Some e => (Throw e, st)
    | None => m st
    end.
Proof. unfold request. unfold_m. simpl. destruct (fault (world st) op); reflexivity. Qed.

Lemma bind_request {A B} op (m : M A) (k : A -> M B) st :
  bind (request op m) k st =
    match fault (world st) op with
    | Some e => (Throw e, st)
    | None => bind m k st
    end.
Proof. unfold bind at 1. rewrite request_eq. destruct (fault (world st) op); reflexivity. Qed.

(** ** Which documents the service deletes *)

Lemma deleteDoc_match_eq id st :
  deleteDoc_match id st =
    match fault (world st) (OpDeleteMatch id) with
    | Some e => (Throw e, st)
    | None =>
        (Ok tt, mkState (svc st) (rt st) (set_matches (delete id (matches (world st))) (world st)))
    end.
Proof.
  unfold deleteDoc_match. unfold_m. simpl.
  destruct (fault (world st) (OpDeleteMatch id)); reflexivity.
Qed.

Lemma deleteOldMatches_spec docs st :
  deleteOldMatches docs st =
    (Ok tt,
     mkState (svc st) (rt st)
       (set_matches (foldr delete (matches (world st)) (deletable_matches (world st) (docs.*1)))
          (world st))).
Proof.
  revert st. induction docs as [|[id m] rest IH]; intros st; simpl.
  - destruct st as [s r []]; reflexivity.
  - unfold bind, try_catch. rewrite deleteDoc_match_eq. unfold deletable_matches. simpl.
    destruct (fault (world st) (OpDeleteMatch id)) as [e|] eqn:Ef; simpl.
    + rewrite IH. reflexivity.
    + rewrite IH. simpl. unfold deletable_matches. simpl. f_equal. f_equal.
      unfold set_matches. simpl. f_equal. symmetry. apply delete_foldr_delete.
Qed.

Lemma deletable_subseteq w ids k : k ∈ deletable w ids -> k ∈ ids.
Proof.
  unfold deletable. rewrite !list_elem_of_In, filter_In. tauto.
Qed.

Lemma deletable_matches_subseteq w ids k : k ∈ deletable_matches w ids -> k ∈ ids.
Proof.
  unfold deletable_matches. rewrite !list_elem_of_In, filter_In. tauto.
Qed.

Lemma removesOnly_foldr_delete {A} (P : string -> A -> Prop) (q : gmap string A) ids :
  (forall k d, k ∈ ids -> q !! k = Some d -> P k d) ->
  removesOnly P q (foldr delete q ids).
Proof.
  intros H k d Hk Hn. destruct (decide (k ∈ ids)) as [Hin|Hin]; [by apply H|].
  rewrite lookup_foldr_delete_not_elem_of in Hn by done. congruence.
Qed.

Lemma removesOnly_refl {A} (P : string -> A -> Prop) (q : gmap string A) : removesOnly P q q.
Proof. intros k d H1 H2. congruence. Qed.

(** [cleanupEverything] in closed form. *)
Lemma cleanupEverything_spec st :
  let now := clock (world st) in
  let stale :=
    (List.filter (fun ds => abandoned now (snd ds)) (map_to_list (queue (world st)))).*1 in
  let old :=
    (List.filter (fun ds => createdBefore (now - 60000) (snd ds))
       (map_to_list (matches (world st)))).*1 in
  cleanupEverything st =
    (Ok tt,
     match fault (world st) (OpQueryQueue AllEntries) with
     | Some _ => st
     | None =>
         mkState (svc st) (rt st)
           (mkWorld (foldr delete (queue (world st)) (deletable (world st) stale))
              (match fault (world st) OpQueryMatches with
               | Some _ => matches (world st)
               | None => foldr delete (matches (world st)) (deletable_matches (world st) old)
               end)
              (clock (world st)) (fault (world st)))
     end).
Proof.
  cbv zeta. unfold cleanupEverything, try_catch. unfold bind at 1.
  unfold getDocs at 1. unfold request at 1. rewrite bind_theWorld.
  destruct (fault (world st) (OpQueryQueue AllEntries)) as [e|] eqn:Eq; [reflexivity|].
  run. unfold bind at 1. cbn [selects].
  rewrite List.filter_true. rewrite deleteStaleQueue_tryDeleteAll, tryDeleteAll_spec.
  unfold bind at 1. unfold getDocs_matches, request. rewrite bind_theWorld.
  cbn [world set_queue fault matches].
  destruct (fault (world st) OpQueryMatches) as [e|] eqn:Em; [reflexivity|].
  run. rewrite deleteOldMatches_spec. reflexivity.
Qed.

(** The cleanup pass works on the store alone: what it leaves depends on
    the store it found, and it keeps the clock and what the store
    refuses. *)
Lemma cleanupEverything_world st :
  let w := world (exec cleanupEverything st) in
  clock w = clock (world st)
  /\ fault w = fault (world st)
  /\ (fault (world st) (OpQueryQueue AllEntries) <> None -> w = world st)
  /\ forall st0, world st0 = world st ->
                 cleanupEverything st0 = (Ok tt, mkState (svc st0) (rt st0) w).
Proof.
  cbv zeta. unfold exec. rewrite cleanupEverything_spec. cbn [snd].
  split; [|split; [|split]].
  - by destruct (fault (world st) (OpQueryQueue AllEntries)).
  - by destruct (fault (world st) (OpQueryQueue AllEntries)).
  - by destruct (fault (world st) (OpQueryQueue AllEntries)).
  - intros st0 H0. rewrite cleanupEverything_spec, H0.
    destruct (fault (world st) (OpQueryQueue AllEntries)); [|reflexivity].
    destruct st0. simpl in *. by subst.
Qed.

(** The shape of every run of [upsertQueueEntry], whatever the store
    refuses: at most one document is written, the documents deleted are
    among those the query returned, and a returned id names a document of
    the principal that is in the queue afterwards. *)
Lemma upsert_shape user st :
  exists r q1 ids,
    upsertQueueEntry user st =
      (r, mkState (svc st) (rt st) (set_queue (foldr delete q1 ids) (world st)))
    /\ (forall k, k ∈ ids -> exists d, queue (world st) !! k = Some d /\ searchingOf (uid user) d)
    /\ (forall k d, queue (world st) !! k = Some d -> is_Some (q1 !! k))
    /\ (forall id, r = Ok (Some id) ->
                   (id ∉ ids) /\ exists e, q1 !! id = Some e /\ qd_userId e = Some (uid user)).
Proof.
  destruct st as [s rtm [q m c f]].
  set (st := mkState s rtm (mkWorld q m c f)).
  assert (Hnil : forall r q1,
            (forall k d, q !! k = Some d -> is_Some (q1 !! k)) ->
            (forall id, r = Ok (Some id) -> exists e, q1 !! id = Some e /\ qd_userId e = Some (uid user)) ->
            exists (r' : Result (option string)) q1' ids,
              (r, mkState s rtm (mkWorld q1 m c f)) =
                (r', mkState (svc st) (rt st) (set_queue (foldr delete q1' ids) (world st)))
              /\ (forall k, k ∈ ids ->
                            exists d, queue (world st) !! k = Some d /\ searchingOf (uid user) d)
              /\ (forall k d, queue (world st) !! k = Some d -> is_Some (q1' !! k))
              /\ (forall id, r' = Ok (Some id) ->
                             (id ∉ ids) /\ exists e, q1' !! id = Some e /\ qd_userId e = Some (uid user))).
  { intros r q1 H1 H2. exists r, q1, []. split; [reflexivity|].
    split; [intros k Hk; inversion Hk|]. split; [exact H1|].
    intros id Hid. split; [intros Hk; inversion Hk|by apply H2]. }
  assert (Hkeep : forall k d, q !! k = Some d -> is_Some (q !! k)) by eauto.
  assert (Hins : forall i x k d, q !! k = Some d -> is_Some ((<[i := x]> q) !! k)).
  { intros i x k d Hk. destruct (decide (i = k)) as [-> | Hne].
    - rewrite lookup_insert_eq. eauto.
    - rewrite lookup_insert_ne by done. eauto. }
  unfold upsertQueueEntry. unfold getDocs. rewrite bind_request. subst st.
  cbn [svc rt world fault queue] in *.
  destruct (f (OpQueryQueue (OwnSearching (uid user)))) as [e|] eqn:Eq.
  { apply Hnil; [exact Hkeep|discriminate]. }
  run. fold (upsertSnapshot (uid user) q).
  destruct (upsertSnapshot (uid user) q) as [|[k0 d0] rest] eqn:EL.
  - (* nothing found: [addDoc] *)
    run. unfold addDoc. rewrite bind_request. cbn [world fault queue].
    destruct (f OpAddQueue) as [e|] eqn:Ea.
    { apply Hnil; [exact Hkeep|discriminate]. }
    run. apply Hnil; [apply Hins|].
    intros id [= <-]. rewrite lookup_insert_eq. eauto.
  - cbv beta iota. rewrite <- EL. clear k0 d0 rest EL.
    set (L := upsertSnapshot (uid user) q).
    set (others := fun newest : option string =>
                     deletable (mkWorld q m c f)
                       (List.filter (fun id => negb (bool_decide (Some id = newest))) (L.*1))).
    assert (Hothers : forall newest k,
              k ∈ others newest ->
              Some k ≠ newest /\ exists d, q !! k = Some d /\ searchingOf (uid user) d).
    { intros newest k Hk. subst others. cbv beta in Hk. apply deletable_subseteq in Hk.
      rewrite list_elem_of_In, filter_In, <- list_elem_of_In in Hk.
      destruct Hk as [Hk Hn]. rewrite negb_true_iff, bool_decide_eq_false in Hn.
      split; [done|]. apply list_elem_of_fmap in Hk as ([k1 d1] & -> & Hk).
      apply elem_of_upsertSnapshot in Hk. eauto. }
    assert (Hfin : forall newest q1,
              (forall k d, q !! k = Some d -> is_Some (q1 !! k)) ->
              (forall id, newest = Some id ->
                          exists e, q1 !! id = Some e /\ qd_userId e = Some (uid user)) ->
              exists (r' : Result (option string)) q1' ids,
                (deleteOthers L newest ;;; ret newest) (mkState s rtm (mkWorld q1 m c f)) =
                  (r', mkState s rtm (mkWorld (foldr delete q1' ids) m c f))
                /\ (forall k, k ∈ ids ->
                              exists d, q !! k = Some d
                                        /\ searchingOf (uid user) d)
                /\ (forall k d, q !! k = Some d -> is_Some (q1' !! k))
                /\ (forall id, r' = Ok (Some id) ->
                               (id ∉ ids)
                               /\ exists e, q1' !! id = Some e /\ qd_userId e = Some (uid user))).
    { intros newest q1 H1 H2. exists (Ok newest), q1, (others newest).
      split.
      { unfold bind. rewrite deleteOthers_tryDeleteAll, tryDeleteAll_spec. reflexivity. }
      split; [intros k Hk; by apply (Hothers newest)|]. split; [exact H1|].
      intros id [= ->]. split; [|by apply H2].
      intros Hk. by apply Hothers in Hk as [Hk _]. }
    destruct (newestLoop_spec L (None, 0)) as [[[Hr _]|(k & d & Hin & Hr & _)] _];
      rewrite Hr; cbn [fst].
    { rewrite bind_ret. apply Hfin; [exact Hkeep|discriminate]. }
    apply elem_of_upsertSnapshot in Hin as [Hk [Hu Hs]].
    destruct (is_set (Some k)).
    2:{ rewrite bind_ret. apply Hfin; [exact Hkeep|]. intros id [= <-]. eauto. }
    unfold bind at 1. unfold try_catch. run. unfold updateDoc. rewrite bind_request.
    cbn [world fault queue].
    destruct (f (OpUpdateQueue k)) as [e|] eqn:Eu.
    + (* the update is refused: [addDoc] instead *)
      run. unfold addDoc. rewrite bind_request. cbn [world fault queue].
      destruct (f OpAddQueue) as [e'|] eqn:Ea.
      { apply Hnil; [exact Hkeep|discriminate]. }
      run. apply Hfin; [apply Hins|].
      intros id [= <-]. rewrite lookup_insert_eq. eauto.
    + run. rewrite Hk. run. apply Hfin; [apply Hins|].
      intros id [= <-]. rewrite lookup_insert_eq. eauto.
Qed.

Lemma removeFromQueue_spec qid st :
  removeFromQueue qid st = (Ok tt, st)
  \/ exists id,
       qid = Some id
       /\ removeFromQueue qid st =
            (Ok tt, mkState (svc st) (rt st) (set_queue (delete id (queue (world st))) (world st))).
Proof.
  unfold removeFromQueue. destruct qid as [id|]; [|by left].
  destruct (is_set (Some id)); [|by left].
  unfold try_catch. rewrite deleteDoc_eq.
  destruct (fault (world st) (OpDeleteQueue id)); [by left|right; eauto].
Qed.

Lemma removesOnly_delete {A} (P : string -> A -> Prop) (q : gmap string A) id :
  (forall d, q !! id = Some d -> P id d) -> removesOnly P q (delete id q).
Proof.
  intros H k d Hk Hn. apply lookup_delete_None in Hn as [-> | Hn]; [by apply H|congruence].
Qed.

Lemma removesOnly_insert {A} (P : string -> A -> Prop) (q : gmap string A) id x :
  removesOnly P q (<[id := x]> q).
Proof.
  intros k d Hk Hn. apply lookup_insert_None in Hn as [Hn _]. congruence.
Qed.

Lemma stopListening_spec st :
  exists s' r',
    stopListening st = (Ok tt, mkState s' r' (world st))
    /\ currentQueueId s' = currentQueueId (svc st).
Proof.
  unfold stopListening. unfold bind at 1. unfold try_catch at 1. rewrite stopHeartbeat_spec.
  set (st1 := match heartbeatInterval (svc st) with Some _ => _ | None => _ end).
  assert (H1 : world st1 = world st /\ currentQueueId (svc st1) = currentQueueId (svc st))
    by (subst st1; destruct (heartbeatInterval (svc st)); done).
  destruct H1 as [Hw Hc]. clearbody st1. run. unfold try_catch, unsubscribe.
  rewrite <- Hw, <- Hc.
  destruct (matchListener (svc st1)), (queueListener (svc st1)); unfold_m; simpl;
    eexists _, _; split; reflexivity.
Qed.

(** The paths that delete the entry the client tracks. *)
Lemma tracked_entry_paths st :
  let tracked := fun (k : string) (_ : QueueDoc) => currentQueueId (svc st) = Some k in
  (forall m : M unit,
     m = leaveQueue \/ m = onBeforeUnload \/ (exists h, m = onVisibilityChange h)
     \/ (exists u, m = onAuthStateChanged u) \/ m = removeFromQueue (currentQueueId (svc st)) ->
     removesOnly tracked (queue (world st)) (queue (world (exec m st)))
     /\ matches (world (exec m st)) = matches (world st)).
Proof.
  intros tracked.
  assert (Hrm : forall st1 : State,
            currentQueueId (svc st1) = currentQueueId (svc st) ->
            world st1 = world st ->
            let st2 := snd (removeFromQueue (currentQueueId (svc st1)) st1) in
            removesOnly tracked (queue (world st)) (queue (world st2))
            /\ matches (world st2) = matches (world st)
            /\ fst (removeFromQueue (currentQueueId (svc st1)) st1) = Ok tt).
  { intros st1 Hc Hw. cbv zeta.
    destruct (removeFromQueue_spec (currentQueueId (svc st1)) st1) as [-> | (id & Hid & ->)];
      simpl; rewrite Hw.
    - split; [apply removesOnly_refl|done].
    - split; [|done]. apply removesOnly_delete. intros d _. subst tracked. simpl. congruence. }
  assert (Hleave : forall st1 : State,
            currentQueueId (svc st1) = currentQueueId (svc st) ->
            world st1 = world st ->
            removesOnly tracked (queue (world st)) (queue (world (exec leaveQueue st1)))
            /\ matches (world (exec leaveQueue st1)) = matches (world st)).
  { intros st1 Hc Hw. unfold exec, leaveQueue. run.
    destruct (Hrm st1 Hc Hw) as (H1 & H2 & H3). cbv zeta in *.
    unfold bind. destruct (removeFromQueue (currentQueueId (svc st1)) st1) as [[[]|e] st2];
      simpl in *; [|discriminate].
    rewrite cleanup_spec. simpl. done. }
  intros m [-> | [-> | [[h ->] | [[u ->] | ->]]]].
  - by apply Hleave.
  - unfold exec, onBeforeUnload. run.
    destruct (Hrm st eq_refl eq_refl) as (H1 & H2 & _). cbv zeta in *.
    unfold removeFromQueue in H1, H2.
    destruct (currentQueueId (svc st)) as [id|]; [|split; [apply removesOnly_refl|done]].
    destruct (is_set (Some id)); [done|split; [apply removesOnly_refl|done]].
  - unfold exec, onVisibilityChange. run.
    destruct (_ && _); [by apply Hleave|split; [apply removesOnly_refl|done]].
  - assert (Hasync : forall (wrapped : bool) (st1 : State),
              currentQueueId (svc st1) = currentQueueId (svc st) ->
              world st1 = world st ->
              exists st2,
                (s <- this ;;
                 (if is_set (currentQueueId s)
                  then (if wrapped
                        then try_catch (removeFromQueue (currentQueueId s)) (fun _ => ret tt)
                        else removeFromQueue (currentQueueId s))
                  else ret tt) ;;;
                 cleanup) st1 = (Ok tt, st2)
                /\ removesOnly tracked (queue (world st)) (queue (world st2))
                /\ matches (world st2) = matches (world st)).
    { intros wrapped st1 Hc Hw. rewrite bind_this.
      destruct (Hrm st1 Hc Hw) as (H1 & H2 & H3). cbv zeta in *.
      assert (Hwrap : (if wrapped
                       then try_catch (removeFromQueue (currentQueueId (svc st1)))
                              (fun _ => ret tt)
                       else removeFromQueue (currentQueueId (svc st1))) st1
                      = removeFromQueue (currentQueueId (svc st1)) st1).
      { destruct wrapped; [|reflexivity]. unfold try_catch.
        destruct (removeFromQueue (currentQueueId (svc st1)) st1) as [[[]|e] st2];
          [reflexivity|discriminate]. }
      destruct (is_set (currentQueueId (svc st1))).
      - unfold bind. rewrite Hwrap.
        destruct (removeFromQueue (currentQueueId (svc st1)) st1) as [[[]|e] st2];
          simpl in *; [|discriminate].
        rewrite cleanup_spec. eexists. split; [reflexivity|]. simpl. done.
      - rewrite bind_ret, cleanup_spec. eexists. split; [reflexivity|]. simpl.
        rewrite Hw. split; [apply removesOnly_refl|done]. }
    assert (Hex : exists st2,
              snd (onAuthStateChanged u st) = st2
              /\ removesOnly tracked (queue (world st)) (queue (world st2))
              /\ matches (world st2) = matches (world st)).
    2:{ destruct Hex as (st2 & Hst2 & H1 & H2). unfold exec. rewrite Hst2. done. }
    unfold onAuthStateChanged.
    destruct u as [u|].
    + unfold try_catch at 1. rewrite bind_this.
      destruct (_ && _).
      2:{ eexists. split; [reflexivity|]. simpl. split; [apply removesOnly_refl|done]. }
      rewrite bind_update. unfold bind at 1.
      destruct (stopListening_spec
                  (mkState (set_suppressPermissionWarnings true (svc st)) (rt st) (world st)))
        as (s' & r' & -> & Hc).
      simpl in Hc.
      destruct (Hasync true (mkState s' r' (world st)) Hc eq_refl) as (st2 & He & H1 & H2).
      unfold bind at 1. unfold try_catch at 1. cbn [world] in He |- *. rewrite He.
      rewrite update_eq. eexists. split; [reflexivity|]. simpl. done.
    + unfold try_catch at 1. unfold bind at 1.
      destruct (stopListening_spec st) as (s' & r' & -> & Hc).
      destruct (Hasync false (mkState s' r' (world st)) Hc eq_refl) as (st2 & He & H1 & H2).
      unfold try_catch at 1. cbn [world] in He |- *. rewrite He.
      eexists. split; [reflexivity|]. simpl. done.
  - destruct (Hrm st eq_refl eq_refl) as (H1 & H2 & _). done.
Qed.

Lemma trackedInv_refl st : trackedInv st st.
Proof. split; [by left|]. split; apply removesOnly_refl. Qed.

(** One step that removes at most the tracked entry. *)
Lemma trackedInv_step st0 st st' :
  trackedInv st0 st ->
  (currentQueueId (svc st') = currentQueueId (svc st) \/ currentQueueId (svc st') = None) ->
  (forall k, queue (world st') !! k = None ->
             queue (world st) !! k = None \/ currentQueueId (svc st) = Some k) ->
  (forall k, matches (world st') !! k = None -> matches (world st) !! k = None) ->
  trackedInv st0 st'.
Proof.
  intros (Hc & Hq & Hm) Hc' Hq' Hm'. split; [|split].
  - destruct Hc' as [-> | ->]; [done|by right].
  - intros k d Hk Hn. destruct (Hq' k Hn) as [Hn'|Hcur]; [by apply (Hq k d)|].
    destruct Hc as [<- | Hc]; [done|congruence].
  - intros k d Hk Hn. apply (Hm k d Hk). by apply Hm'.
Qed.

Lemma trackedInv_same st0 st st' :
  currentQueueId (svc st') = currentQueueId (svc st) \/ currentQueueId (svc st') = None ->
  world st' = world st ->
  trackedInv st0 st -> trackedInv st0 st'.
Proof.
  intros Hc Hw HI. apply (trackedInv_step st0 st st' HI Hc); rewrite Hw; auto.
Qed.

Lemma trackedInv_update st0 f :
  (forall s, currentQueueId (f s) = currentQueueId s \/ currentQueueId (f s) = None) ->
  preserves (trackedInv st0) (update f).
Proof. intros Hf st. apply trackedInv_same; simpl; auto. Qed.

Lemma trackedInv_update_rt st0 f : preserves (trackedInv st0) (update_rt f).
Proof. intros st. apply trackedInv_same; simpl; auto. Qed.

Lemma trackedInv_unsubscribe st0 l : preserves (trackedInv st0) (unsubscribe l).
Proof. apply trackedInv_update_rt. Qed.

Lemma trackedInv_cleanup st0 : preserves (trackedInv st0) cleanup.
Proof. intros st. unfold exec. rewrite cleanup_spec. apply trackedInv_same; simpl; auto. Qed.

Lemma trackedInv_isValidOpponent st0 opp u : preserves (trackedInv st0) (isValidOpponent opp u).
Proof. intros st. unfold exec. by rewrite isValidOpponent_spec. Qed.

Lemma trackedInv_getDocs st0 p : preserves (trackedInv st0) (getDocs p).
Proof.
  apply preserves_request. apply preserves_bind; [apply preserves_theWorld|].
  intros w. apply preserves_ret.
Qed.

Lemma trackedInv_createMatch st0 cu opp :
  preserves (trackedInv st0) (createMatchFromQueue cu opp).
Proof.
  intros st HI. destruct (createMatchFromQueue_effect cu opp st) as [(Hr & Hw & Hc)|He].
  - by apply (trackedInv_same st0 st).
  - destruct He as (user & cur & od & cd & _ & _ & Hcur & _ & _ & _ & _ & _ & _ & _ & _ & Hc & Hw).
    apply (trackedInv_step st0 st _ HI); [by right| |]; rewrite Hw; cbn [queue matches].
    + intros k Hk. apply lookup_delete_None in Hk as [-> | Hk]; auto.
    + intros k Hk. apply lookup_insert_None in Hk. tauto.
Qed.

Lemma trackedInv_removeCurrent st0 :
  preserves (trackedInv st0) (s <- this ;; removeFromQueue (currentQueueId s)).
Proof.
  intros st HI. unfold exec. rewrite bind_this.
  destruct (removeFromQueue_spec (currentQueueId (svc st)) st) as [-> | (id & Hid & ->)];
    [done|].
  apply (trackedInv_step st0 st _ HI); simpl; auto.
  intros k Hk. apply lookup_delete_None in Hk as [-> | Hk]; auto.
Qed.

Lemma trackedInv_heartbeat_write st0 id t :
  preserves (trackedInv st0) (updateDoc id (set_lastHeartbeat t)).
Proof.
  intros st HI. unfold exec, updateDoc. rewrite request_eq.
  destruct (fault (world st) (OpUpdateQueue id)); [done|]. rewrite bind_theWorld.
  destruct (queue (world st) !! id) eqn:E; [|done].
  apply (trackedInv_step st0 st _ HI); simpl; auto.
  intros k Hk. apply lookup_insert_None in Hk. tauto.
Qed.

#[local] Hint Resolve trackedInv_update_rt trackedInv_unsubscribe trackedInv_cleanup
  trackedInv_isValidOpponent trackedInv_getDocs trackedInv_createMatch
  trackedInv_removeCurrent trackedInv_heartbeat_write : pres.

#[local] Hint Extern 1 (preserves (trackedInv _) (update _)) =>
  apply trackedInv_update; intros ?; simpl; auto : pres.

Lemma trackedInv_scanLoop st0 userId docs :
  preserves (trackedInv st0) (scanLoop userId docs).
Proof.
  induction docs as [|[id data] rest IH]; simpl; [apply preserves_ret|].
  unfold authCurrentUser. pres.
Qed.

Lemma trackedInv_queueLoop st0 userId sub changes :
  preserves (trackedInv st0) (queueLoop userId sub changes).
Proof.
  induction changes as [|change rest IH]; simpl; [apply preserves_ret|].
  unfold authCurrentUser. pres.
Qed.

Lemma trackedInv_onMatchSnapshot st0 j cell changes :
  preserves (trackedInv st0) (onMatchSnapshot j cell changes).
Proof.
  induction changes as [|change rest IH]; simpl; [apply preserves_ret|].
  unfold handleMatch. pres.
Qed.

#[local] Hint Resolve trackedInv_scanLoop trackedInv_queueLoop trackedInv_onMatchSnapshot
  : pres.

Lemma trackedInv_heartbeat st0 : preserves (trackedInv st0) heartbeat.
Proof. unfold heartbeat. pres. Qed.

Lemma trackedInv_scan st0 userId : preserves (trackedInv st0) (scanQueueForOpponents userId).
Proof. unfold scanQueueForOpponents. pres. Qed.

Lemma trackedInv_deliver st0 sub snapshot : preserves (trackedInv st0) (deliver sub snapshot).
Proof. unfold deliver, onQueueSnapshot. pres. Qed.

(** On every path of [trackedPath], the only queue document that can
    disappear is the one the client tracks, and no match document
    disappears. *)
Lemma trackedPath_removes m st :
  trackedPath m ->
  removesOnly (fun k _ => currentQueueId (svc st) = Some k)
    (queue (world st)) (queue (world (exec m st)))
  /\ removesOnly (fun _ _ => False) (matches (world st)) (matches (world (exec m st))).
Proof.
  intros Hp.
  assert (Hinv : preserves (trackedInv st) m -> 
                 removesOnly (fun k _ => currentQueueId (svc st) = Some k)
                   (queue (world st)) (queue (world (exec m st)))
                 /\ removesOnly (fun _ _ => False) (matches (world st))
                      (matches (world (exec m st)))).
  { intros H. by destruct (H st (trackedInv_refl st)) as (_ & H1 & H2). }
  assert (Hold : forall m' : M unit,
            m' = leaveQueue \/ m' = onBeforeUnload \/ (exists h, m' = onVisibilityChange h)
            \/ (exists u, m' = onAuthStateChanged u)
            \/ m' = removeFromQueue (currentQueueId (svc st)) ->
            removesOnly (fun k _ => currentQueueId (svc st) = Some k)
              (queue (world st)) (queue (world (exec m' st)))
            /\ removesOnly (fun _ _ => False) (matches (world st))
                 (matches (world (exec m' st)))).
  { intros m' Hm'. destruct (tracked_entry_paths st m' Hm') as [H1 H2].
    split; [exact H1|]. rewrite H2. apply removesOnly_refl. }
  destruct Hp.
  - apply Hold. auto.
  - apply Hinv. apply trackedInv_removeCurrent.
  - apply Hold. auto.
  - apply Hold. eauto 10.
  - apply Hold. eauto 10.
  - apply Hinv. apply trackedInv_createMatch.
  - apply Hinv. apply trackedInv_scan.
  - apply Hinv. apply trackedInv_deliver.
  - apply Hinv. apply trackedInv_heartbeat.
Qed.

Lemma deletable_matches_noFault w ids :
  (forall op, fault w op = None) -> deletable_matches w ids = ids.
Proof.
  intros H. unfold deletable_matches. induction ids as [|i l IH]; simpl; [done|].
  rewrite bool_decide_eq_true_2 by apply H. by rewrite IH.
Qed.

Lemma elem_of_filter_keys {A} (p : A -> bool) (q : gmap string A) k :
  k ∈ (List.filter (fun ds => p (snd ds)) (map_to_list q)).*1
  <-> exists d, q !! k = Some d /\ p d = true.
Proof.
  rewrite list_elem_of_fmap. split.
  - intros ([k' d] & -> & H). rewrite list_elem_of_In, filter_In, <- list_elem_of_In in H.
    destruct H as [H1 H2]. apply elem_of_map_to_list in H1. eauto.
  - intros (d & H1 & H2). exists (k, d). split; [done|].
    rewrite list_elem_of_In, filter_In, <- list_elem_of_In. split; [|done].
    by apply elem_of_map_to_list.
Qed.

(** *** Whose entry the service tracks *)

Lemma lookup_foldr_delete_Some {A} (m : gmap string A) ids k x :
  foldr delete m ids !! k = Some x -> m !! k = Some x.
Proof.
  intros H. destruct (decide (k ∈ ids)) as [Hin | Hnin].
  - rewrite lookup_foldr_delete in H by done. discriminate.
  - by rewrite lookup_foldr_delete_not_elem_of in H.
Qed.

Lemma tracksOwn_step st st' :
  tracksOwn st ->
  (currentQueueId (svc st') = None
   \/ (currentQueueId (svc st') = currentQueueId (svc st)
       /\ currentUserId (svc st') = currentUserId (svc st))) ->
  (forall k d, queue (world st') !! k = Some d ->
               exists d0, queue (world st) !! k = Some d0 /\ qd_userId d0 = qd_userId d) ->
  tracksOwn st'.
Proof.
  intros HI Hc Hq id d Hid Hd. destruct Hc as [Hc | [Hc Hu]]; [congruence|].
  destruct (Hq id d Hd) as (d0 & Hd0 & <-). rewrite Hu. apply (HI id d0); congruence.
Qed.

Lemma tracksOwn_same st st' :
  (currentQueueId (svc st') = None
   \/ (currentQueueId (svc st') = currentQueueId (svc st)
       /\ currentUserId (svc st') = currentUserId (svc st))) ->
  world st' = world st ->
  tracksOwn st -> tracksOwn st'.
Proof.
  intros Hc Hw HI. apply (tracksOwn_step st st' HI Hc). rewrite Hw. eauto.
Qed.

Lemma tracksOwn_update f :
  (forall s, currentQueueId (f s) = None
             \/ (currentQueueId (f s) = currentQueueId s
                 /\ currentUserId (f s) = currentUserId s)) ->
  preserves tracksOwn (update f).
Proof. intros Hf st. apply tracksOwn_same; simpl; [apply Hf|done]. Qed.

Lemma tracksOwn_update_rt f : preserves tracksOwn (update_rt f).
Proof. intros st. apply tracksOwn_same; simpl; [by right|done]. Qed.

Lemma tracksOwn_unsubscribe l : preserves tracksOwn (unsubscribe l).
Proof. apply tracksOwn_update_rt. Qed.

Lemma tracksOwn_cleanup : preserves tracksOwn cleanup.
Proof.
  intros st _. unfold exec. rewrite cleanup_spec. intros id d Hid. discriminate Hid.
Qed.

Lemma tracksOwn_isValidOpponent opp u : preserves tracksOwn (isValidOpponent opp u).
Proof. intros st. unfold exec. by rewrite isValidOpponent_spec. Qed.

Lemma tracksOwn_getDocs p : preserves tracksOwn (getDocs p).
Proof.
  apply preserves_request. apply preserves_bind; [apply preserves_theWorld|].
  intros w. apply preserves_ret.
Qed.

Lemma tracksOwn_sleep ms : preserves tracksOwn (sleep ms).
Proof. intros st HI. apply (tracksOwn_step st _ HI); simpl; [by right|eauto]. Qed.

Lemma tracksOwn_deleteDoc id : preserves tracksOwn (deleteDoc id).
Proof.
  intros st HI. unfold exec. rewrite deleteDoc_eq.
  destruct (fault (world st) (OpDeleteQueue id)); [done|].
  apply (tracksOwn_step st _ HI); simpl; [by right|].
  intros k d Hk. apply lookup_delete_Some in Hk as [_ Hk]. eauto.
Qed.

Lemma tracksOwn_removeFromQueue qid : preserves tracksOwn (removeFromQueue qid).
Proof.
  intros st HI. unfold exec.
  destruct (removeFromQueue_spec qid st) as [-> | (id & _ & ->)]; [done|].
  apply (tracksOwn_step st _ HI); simpl; [by right|].
  intros k d Hk. apply lookup_delete_Some in Hk as [_ Hk]. eauto.
Qed.

Lemma tracksOwn_heartbeat_write id t :
  preserves tracksOwn (updateDoc id (set_lastHeartbeat t)).
Proof.
  intros st HI. unfold exec, updateDoc. rewrite request_eq.
  destruct (fault (world st) (OpUpdateQueue id)); [done|]. rewrite bind_theWorld.
  destruct (queue (world st) !! id) as [d0|] eqn:E; [|done].
  apply (tracksOwn_step st _ HI); simpl; [by right|].
  intros k d Hk. destruct (decide (k = id)) as [-> | Hne].
  - rewrite lookup_insert_eq in Hk. injection Hk as <-. eauto.
  - rewrite lookup_insert_ne in Hk by done. eauto.
Qed.

Lemma tracksOwn_createMatch cu opp : preserves tracksOwn (createMatchFromQueue cu opp).
Proof.
  intros st HI. unfold exec. rewrite createMatchFromQueue_spec.
  destruct (isMatched (svc st)); [done|]. cbn zeta.
  destruct (currentQueueId (svc st)) as [cur|] eqn:Ec.
  2:{ apply (tracksOwn_same st); simpl; first [by right | done]. }
  destruct (is_set (Some cur)); [|apply (tracksOwn_same st); simpl; auto].
  set (st1 := mkState _ _ _).
  destruct (runTransaction_matchTransaction cu opp (qp_id opp) cur
              (fresh (dom (matches (world st)))) st1) as [[e He]|Hok].
  - rewrite He. apply (tracksOwn_same st); simpl; first [by right | done].
  - destruct Hok as (user & od & cd & _ & _ & _ & _ & _ & _ & _ & He).
    rewrite He, cleanup_spec. intros id d Hid. discriminate Hid.
Qed.

#[local] Hint Resolve tracksOwn_update_rt tracksOwn_unsubscribe tracksOwn_cleanup
  tracksOwn_isValidOpponent tracksOwn_getDocs tracksOwn_sleep tracksOwn_deleteDoc
  tracksOwn_removeFromQueue tracksOwn_heartbeat_write tracksOwn_createMatch : pres.

#[local] Hint Extern 1 (preserves tracksOwn (update _)) =>
  apply tracksOwn_update; intros ?; simpl; first [by left | by right] : pres.

Lemma tracksOwn_scanLoop userId docs : preserves tracksOwn (scanLoop userId docs).
Proof.
  induction docs as [|[id data] rest IH]; simpl; [apply preserves_ret|].
  unfold authCurrentUser. pres.
Qed.

Lemma tracksOwn_queueLoop userId sub changes :
  preserves tracksOwn (queueLoop userId sub changes).
Proof.
  induction changes as [|change rest IH]; simpl; [apply preserves_ret|].
  unfold authCurrentUser. pres.
Qed.

Lemma tracksOwn_onMatchSnapshot j cell changes :
  preserves tracksOwn (onMatchSnapshot j cell changes).
Proof.
  induction changes as [|change rest IH]; simpl; [apply preserves_ret|].
  unfold handleMatch. pres.
Qed.

#[local] Hint Resolve tracksOwn_scanLoop tracksOwn_queueLoop tracksOwn_onMatchSnapshot
  : pres.

Lemma tracksOwn_scan userId : preserves tracksOwn (scanQueueForOpponents userId).
Proof. unfold scanQueueForOpponents. pres. Qed.

Lemma tracksOwn_startHeartbeat : preserves tracksOwn startHeartbeat.
Proof. unfold startHeartbeat. pres. Qed.

Lemma tracksOwn_cleanupEverything : preserves tracksOwn cleanupEverything.
Proof.
  intros st HI. unfold exec. rewrite cleanupEverything_spec. cbn [snd].
  destruct (fault (world st) (OpQueryQueue AllEntries)); [done|].
  apply (tracksOwn_step st _ HI); simpl; [by right|].
  intros k d Hk. apply lookup_foldr_delete_Some in Hk. eauto.
Qed.

(** A new service tracks nothing. *)
Lemma tracksOwn_initial r w : tracksOwn (mkState initialService r w).
Proof. intros id d Hid. discriminate Hid. Qed.

(** Every path of [trackedPath] keeps [tracksOwn]. *)
Lemma trackedPath_tracksOwn m : trackedPath m -> preserves tracksOwn m.
Proof.
  intros [];
    unfold leaveQueue, onBeforeUnload, onVisibilityChange, onAuthStateChanged, leaveQueue,
      stopListening, stopHeartbeat, scanQueueForOpponents, deliver, onQueueSnapshot,
      heartbeat;
    pres.
Qed.

(** [joinQueue] records the principal it joins for and then tracks the
    entry that [upsertQueueEntry] returned for that principal. *)
Lemma tracksOwn_joinQueue signsIn jitter : preserves tracksOwn (joinQueue signsIn jitter).
Proof.
  intros st HI. unfold exec, joinQueue.
  assert (Hw : exists a st1,
            waitForAuth signsIn 5000 st = (Ok a, st1)
            /\ svc st1 = svc st /\ queue (world st1) = queue (world st)).
  { unfold waitForAuth. rewrite bind_runtime.
    destruct (auth_currentUser (rt st)); [by eexists _, _|].
    destruct signsIn; by eexists _, _. }
  destruct Hw as (a & st1 & Hw & Hs1 & Hq1). rewrite (bind_run _ _ _ _ _ Hw).
  assert (HI1 : tracksOwn st1) by (intros id d; rewrite Hs1, Hq1; apply HI).
  clear Hw HI Hs1 Hq1 st. destruct a as [user|]; [|by apply tracksOwn_update_rt].
  rewrite bind_this. destruct (isJoiningQueue (svc st1)); [done|].
  run. unfold try_finally.
  match goal with
  | |- context [try_catch ?b ?h ?s] => assert (Hb : tracksOwn (snd (try_catch b h s)))
  end.
  2:{ destruct (try_catch _ _ _) as [r st2]. rewrite update_eq. cbn [snd] in Hb |- *.
      apply (tracksOwn_same st2); [by right|done..]. }
  unfold try_catch.
  match goal with
  | |- context [match ?b ?s with _ => _ end] => destruct (b s) as [[[]|e] st2] eqn:Eb
  end.
  2:{ rewrite bind_update_rt, cleanup_spec. intros id d Hid. discriminate Hid. }
  cbn [snd]. revert Eb.
  match goal with
  | |- context [bind cleanupEverything _ ?s] =>
      destruct (cleanupEverything_world s) as (_ & _ & _ & Hrun);
        rewrite (bind_run _ _ _ _ _ (Hrun s eq_refl)); clear Hrun;
        generalize (world (exec cleanupEverything s)); intros w
  end.
  norm. unfold sleep. run. norm.
  unfold setupMatchListeners. run. norm.
  unfold onSnapshot. run. norm.
  unfold setupQueueListener, onSnapshot. run. norm.
  match goal with
  | |- context [bind (upsertQueueEntry user) _ ?s] =>
      destruct (upsert_shape user s) as (r & q1 & ids & Hup & _ & _ & Hr);
        rewrite (bind_run _ _ _ _ _ Hup); clear Hup
  end.
  destruct r as [oid|e]; [|discriminate].
  rewrite bind_update. norm.
  match goal with
  | |- ?m ?s = _ -> _ =>
      assert (Hp : preserves tracksOwn m)
        by (pose proof (tracksOwn_scan (uid user)); pose proof tracksOwn_startHeartbeat; pres);
        intros Eb; specialize (Hp s); unfold exec in Hp; rewrite Eb in Hp; apply Hp
  end.
  intros id d Hid Hd. cbn [svc world queue currentQueueId currentUserId] in Hid, Hd |- *.
  subst oid. destruct (Hr id eq_refl) as (Hnin & e & He & Hu).
  rewrite lookup_foldr_delete_not_elem_of in Hd by done. congruence.
Qed.




(** The listener of the authentication state deletes the entry of the
    principal the service joined for, alice, after bob has signed in. *)
Example previous_principal_entry_deleted :
  let st := Scenario6.bobSignedIn in
  let st' := exec (onAuthStateChanged (Some Scenario.bob)) st in
  auth_currentUser (rt st) = Some Scenario.bob
  /\ currentUserId (svc st) = Some "alice"
  /\ (qd_userId <$> queue (world st) !! "qa") = Some (Some "alice")
  /\ queue (world st') !! "qa" = None
  /\ tracksOwn st.
Proof.
  repeat split; try (vm_compute; reflexivity).
  intros id d [= <-]. vm_compute. by intros [= <-].
Qed.

(** The same pass deletes the old match between bob and carol. *)
Example foreign_match_deleted :
  matches (world (exec forceCleanup Scenario4.aliceCleans)) = ∅
  /\ matches (world Scenario4.aliceCleans) !! "m0" = Some Scenario4.theirMatch.
Proof. vm_compute. split; reflexivity. Qed.

(** ** Two clients racing for one match *)

Lemma quietInv_refl st : quietInv st st.
Proof. repeat split; auto. Qed.

Lemma quietInv_step st0 st st' :
  quietInv st0 st ->
  auth_currentUser (rt st') = auth_currentUser (rt st) ->
  (currentQueueId (svc st') = currentQueueId (svc st) \/ currentQueueId (svc st') = None) ->
  matches (world st') = matches (world st) ->
  (forall k, queue (world st) !! k = None -> queue (world st') !! k = None) ->
  quietInv st0 st'.
Proof.
  intros (Ha & Hc & Hm & Hq) Ha' Hc' Hm' Hq'. split; [congruence|]. split; [|split].
  - destruct Hc' as [-> | ->]; [done|by right].
  - congruence.
  - auto.
Qed.

Lemma quietInv_update st0 f :
  (forall s, currentQueueId (f s) = currentQueueId s \/ currentQueueId (f s) = None) ->
  preserves (quietInv st0) (update f).
Proof. intros Hf st HI. apply (quietInv_step st0 st); simpl; auto. Qed.

Lemma quietInv_update_rt st0 f :
  (forall r, auth_currentUser (f r) = auth_currentUser r) ->
  preserves (quietInv st0) (update_rt f).
Proof. intros Hf st HI. apply (quietInv_step st0 st); simpl; auto. Qed.

Lemma quietInv_cleanup st0 : preserves (quietInv st0) cleanup.
Proof.
  intros st HI. unfold exec. rewrite cleanup_spec. apply (quietInv_step st0 st); simpl; auto.
Qed.

Lemma quietInv_unsubscribe st0 l : preserves (quietInv st0) (unsubscribe l).
Proof. by apply quietInv_update_rt. Qed.

Lemma quietInv_removeFromQueue st0 qid : preserves (quietInv st0) (removeFromQueue qid).
Proof.
  intros st HI. unfold exec.
  destruct (removeFromQueue_spec qid st) as [-> | (id & Hid & ->)]; [done|].
  apply (quietInv_step st0 st); simpl; auto.
  intros k Hk. rewrite lookup_delete_None. auto.
Qed.

Lemma quietInv_heartbeat_write st0 id t :
  preserves (quietInv st0) (updateDoc id (set_lastHeartbeat t)).
Proof.
  intros st HI. unfold exec, updateDoc. rewrite request_eq.
  destruct (fault (world st) (OpUpdateQueue id)); [done|]. rewrite bind_theWorld.
  destruct (queue (world st) !! id) eqn:E; [|done].
  apply (quietInv_step st0 st); simpl; auto.
  intros k Hk. rewrite lookup_insert_None. split; [done|]. intros <-. congruence.
Qed.

#[local] Hint Resolve quietInv_cleanup quietInv_unsubscribe quietInv_removeFromQueue
  quietInv_heartbeat_write : pres.

#[local] Hint Extern 1 (preserves (quietInv _) (update _)) =>
  apply quietInv_update; intros ?; simpl; auto : pres.

#[local] Hint Extern 1 (preserves (quietInv _) (update_rt _)) =>
  apply quietInv_update_rt; intros ?; reflexivity : pres.

Lemma quietInv_onMatchSnapshot st0 j cell changes :
  preserves (quietInv st0) (onMatchSnapshot j cell changes).
Proof.
  induction changes as [|change rest IH]; simpl; [apply preserves_ret|].
  unfold handleMatch. pres.
Qed.

#[local] Hint Resolve quietInv_onMatchSnapshot : pres.

(** The events other than an attempt. *)
Lemma quiet_methods st0 :
  preserves (quietInv st0) heartbeat
  /\ preserves (quietInv st0) leaveQueue
  /\ forall sub changes, preserves (quietInv st0) (deliver sub (MatchSnapshot changes)).
Proof.
  split; [|split].
  - unfold heartbeat. pres.
  - unfold leaveQueue. pres.
  - intros sub changes. unfold deliver. pres.
Qed.

Section PairProofs.
Variables (ex ey : string) (ux uy : User).

Local Abbreviation own := (ownEntry ex ey).
Local Abbreviation theirs := (theirEntry ex ey).
Local Abbreviation me := (principalOf ux uy).
Local Abbreviation them := (opponentOf ux uy).
Local Abbreviation other := otherOf.

Lemma pairInv_alt sys :
  pairInv ex ey ux uy sys <->
  forall who,
    auth_currentUser (c_rt (client who sys)) = Some (me who)
    /\ (currentQueueId (c_svc (client who sys)) = Some (own who)
        \/ currentQueueId (c_svc (client who sys)) = None).
Proof.
  unfold pairInv. split.
  - intros (H1 & H2 & H3 & H4) [|]; simpl; auto.
  - intros H. destruct (H X) as [H1 H3], (H Y) as [H2 H4]. simpl in *. auto.
Qed.

Lemma runClient_spec who m sys :
  let c := client who sys in
  let st' := exec m (mkState (c_svc c) (c_rt c) (store sys)) in
  client who (runClient who m sys) = mkClient (svc st') (rt st')
  /\ client (other who) (runClient who m sys) = client (other who) sys
  /\ store (runClient who m sys) = world st'.
Proof. destruct who; simpl; auto. Qed.

Lemma queue_absent_theirs_own who (q : gmap string QueueDoc) :
  q !! own who = None \/ q !! theirs who = None <-> q !! ex = None \/ q !! ey = None.
Proof. destruct who; simpl; tauto. Qed.

Lemma references_me_them who (m : MatchData) :
  mp_userId (m_player1 m) = Some (uid (me who)) ->
  mp_userId (m_player2 m) = Some (uid (them who)) ->
  references ux uy m.
Proof. unfold references. destruct who; simpl; auto. Qed.

(** What one event does: it keeps [pairInv], and either it writes no match
    document and creates no queue document, or it is an attempt that found
    both entries and committed, after which the initiator's entry is gone. *)
Lemma step_cases ev sys :
  pairInv ex ey ux uy sys ->
  targetsPair ex ey ux uy ev ->
  pairInv ex ey ux uy (step ev sys)
  /\ ((matches (store (step ev sys)) = matches (store sys)
       /\ forall k, queue (store sys) !! k = None -> queue (store (step ev sys)) !! k = None)
      \/ (exists m,
            matches (store (step ev sys))
            = <[fresh (dom (matches (store sys))) := m]> (matches (store sys))
            /\ references ux uy m
            /\ is_Some (queue (store sys) !! ex)
            /\ is_Some (queue (store sys) !! ey)
            /\ (queue (store (step ev sys)) !! ex = None
                \/ queue (store (step ev sys)) !! ey = None))).
Proof.
  intros Hinv Ht.
  assert (Hquiet : forall who m,
            (forall st0, preserves (quietInv st0) m) ->
            pairInv ex ey ux uy (runClient who m sys)
            /\ matches (store (runClient who m sys)) = matches (store sys)
            /\ forall k, queue (store sys) !! k = None ->
                         queue (store (runClient who m sys)) !! k = None).
  { intros who m Hm.
    destruct (runClient_spec who m sys) as (Hc & Ho & Hs). cbv zeta in *.
    set (st := mkState (c_svc (client who sys)) (c_rt (client who sys)) (store sys)) in *.
    destruct (Hm st st (quietInv_refl st)) as (Ha & Hq & Hmm & Hqq).
    rewrite Hs. split; [|split; [exact Hmm|exact Hqq]].
    apply pairInv_alt. intros w. apply pairInv_alt with (who := w) in Hinv.
    destruct (decide (w = who)) as [-> | Hne].
    - rewrite Hc. simpl. destruct Hinv as [H1 H2]. split; [by rewrite Ha|].
      destruct Hq as [-> | ->]; auto.
    - assert (w = other who) as -> by (destruct w, who; done). by rewrite Ho. }
  destruct ev as [who cached|who|who|who sub changes|dt|f|who jitter]; simpl.
  - (* an attempt *)
    destruct (runClient_spec who (user <- authCurrentUser ;; createMatchFromQueue user cached)
                sys) as (Hc & Ho & Hs). cbv zeta in *.
    set (st := mkState (c_svc (client who sys)) (c_rt (client who sys)) (store sys)) in *.
    pose proof Hinv as Hw. apply pairInv_alt with (who := who) in Hw. destruct Hw as [Hau Hcq].
    assert (Hex : exec (user <- authCurrentUser ;; createMatchFromQueue user cached) st
                  = exec (createMatchFromQueue (Some (me who)) cached) st).
    { unfold exec, authCurrentUser. rewrite bind_assoc, bind_runtime, bind_ret. subst st.
      cbn [rt]. by rewrite Hau. }
    rewrite Hex in Hc, Hs. clear Hex.
    assert (Hid : qp_id cached = theirs who /\ qp_userId cached = Some (uid (them who)))
      by (destruct who; exact Ht).
    destruct Hid as [Hid Huid].
    destruct (createMatchFromQueue_effect (Some (me who)) cached st) as [(Hr & Hwd & Hq)|He].
    + (* nothing written *)
      split.
      * apply pairInv_alt. intros w. apply pairInv_alt with (who := w) in Hinv.
        destruct (decide (w = who)) as [-> | Hne].
        -- rewrite Hc. simpl. rewrite Hr. split; [done|].
           destruct Hq as [-> | ->]; auto.
        -- assert (w = other who) as -> by (destruct w, who; done). by rewrite Ho.
      * left. rewrite Hs, Hwd. auto.
    + destruct He as (user & cur & od & cd & [= <-] & _ & Hcur & _ & Ho' & Hc' & _ & _
                      & Ha & _ & _ & Hq & Hw).
      subst st. cbn [svc rt world] in *.
      assert (cur = own who) as -> by (destruct Hcq; congruence).
      rewrite Hid in Ho'.
      split.
      * apply pairInv_alt. intros w. apply pairInv_alt with (who := w) in Hinv.
        destruct (decide (w = who)) as [-> | Hne].
        -- rewrite Hc. simpl. split; [congruence|auto].
        -- assert (w = other who) as -> by (destruct w, who; done). by rewrite Ho.
      * right. eexists. rewrite Hs, Hw. cbn [matches queue]. split; [reflexivity|].
        split; [by apply (references_me_them who)|].
        split; [destruct who; simpl in *; eauto|].
        split; [destruct who; simpl in *; eauto|].
        apply (queue_absent_theirs_own who). left. apply lookup_delete_eq.
  - destruct (Hquiet who heartbeat) as (H1 & H2 & H3); [intros st0; apply quiet_methods|].
    auto.
  - destruct (Hquiet who leaveQueue) as (H1 & H2 & H3); [intros st0; apply quiet_methods|].
    auto.
  - destruct (Hquiet who (deliver sub (MatchSnapshot changes))) as (H1 & H2 & H3);
      [intros st0; apply quiet_methods|].
    auto.
  - auto.
  - auto.
  - destruct Ht.
Qed.

Lemma oneMatch_step m0 ev sys :
  pairInv ex ey ux uy sys ->
  targetsPair ex ey ux uy ev ->
  oneMatch ex ey ux uy m0 sys ->
  oneMatch ex ey ux uy m0 (step ev sys).
Proof.
  intros Hinv Ht (id & m & Hid & Hm & Hr & Habs).
  destruct (step_cases ev sys Hinv Ht) as [_ [[Hm' Hq']|(m' & _ & _ & [dx Hx] & [dy Hy] & _)]].
  - exists id, m. rewrite Hm'. repeat split; try done.
    destruct Habs as [H|H]; [left|right]; by apply Hq'.
  - destruct Habs; congruence.
Qed.

Lemma atMostOneMatch_step m0 ev sys :
  pairInv ex ey ux uy sys ->
  targetsPair ex ey ux uy ev ->
  atMostOneMatch ex ey ux uy m0 sys ->
  atMostOneMatch ex ey ux uy m0 (step ev sys).
Proof.
  intros Hinv Ht [Hm|Hone]; [|right; by apply oneMatch_step].
  destruct (step_cases ev sys Hinv Ht) as [_ [[Hm' Hq']|(m' & Hm' & Hr & _ & _ & Habs)]].
  - left. congruence.
  - right. exists (fresh (dom (matches (store sys)))), m'. rewrite <- Hm.
    split; [apply not_elem_of_dom, is_fresh|]. done.
Qed.

Lemma runEvents_invariants m0 evs sys :
  pairInv ex ey ux uy sys ->
  Forall (targetsPair ex ey ux uy) evs ->
  pairInv ex ey ux uy (runEvents evs sys)
  /\ (atMostOneMatch ex ey ux uy m0 sys -> atMostOneMatch ex ey ux uy m0 (runEvents evs sys))
  /\ (oneMatch ex ey ux uy m0 sys -> oneMatch ex ey ux uy m0 (runEvents evs sys)).
Proof.
  intros Hinv Hevs. revert sys Hinv.
  induction Hevs as [|ev evs Hev Hevs IH]; intros sys Hinv; simpl; [auto|].
  destruct (step_cases ev sys Hinv Hev) as [Hinv' _].
  destruct (IH (step ev sys) Hinv') as (H1 & H2 & H3).
  split; [exact H1|]. split; intros H.
  - apply H2. by apply atMostOneMatch_step.
  - apply H3. by apply oneMatch_step.
Qed.

(** An attempt that finds both entries fit commits. *)
Lemma attempt_commits who cached sys :
  pairInv ex ey ux uy sys ->
  targetsPair ex ey ux uy (Attempt who cached) ->
  bothFresh ex ey who cached sys ->
  oneMatch ex ey ux uy (matches (store sys)) (step (Attempt who cached) sys).
Proof.
  intros Hinv Ht (Hm & Hset & Hf & (dx & Hx & Fx) & (dy & Hy & Fy) & Hdef).
  pose proof Hinv as Hw. apply pairInv_alt with (who := who) in Hw. destruct Hw as [Hau Hcq].
  assert (Hcur : currentQueueId (c_svc (client who sys)) = Some (own who)).
  { destruct Hcq as [H|H]; [done|]. rewrite H in Hset. discriminate. }
  rewrite Hcur in Hset. apply is_set_Some in Hset.
  assert (Hid : qp_id cached = theirs who /\ qp_userId cached = Some (uid (them who)))
    by (destruct who; exact Ht).
  destruct Hid as [Hid Huid].
  simpl.
  destruct (runClient_spec who (user <- authCurrentUser ;; createMatchFromQueue user cached)
              sys) as (_ & _ & Hs). cbv zeta in *.
  set (st := mkState (c_svc (client who sys)) (c_rt (client who sys)) (store sys)) in *.
  assert (Hex : exec (user <- authCurrentUser ;; createMatchFromQueue user cached) st
                = exec (createMatchFromQueue (Some (me who)) cached) st).
  { unfold exec, authCurrentUser. rewrite bind_assoc, bind_runtime, bind_ret. subst st.
    cbn [rt]. by rewrite Hau. }
  rewrite Hex in Hs. clear Hex.
  assert (Hod : exists od cd,
            queue (store sys) !! qp_id cached = Some od
            /\ queue (store sys) !! own who = Some cd
            /\ fit (clock (store sys)) od /\ fit (clock (store sys)) cd
            /\ definedCandidate cached od).
  { rewrite Hid. destruct who; simpl in *; eauto 10. }
  destruct Hod as (od & cd & Hod & Hcd & Fo & Fc & Fd).
  destruct (createMatchFromQueue_commit (me who) cached st (own who) od cd)
    as (Hw & _ & _); try done.
  exists (fresh (dom (matches (store sys)))), (writtenMatch (me who) cached od (clock (store sys))).
  rewrite Hs, Hw. subst st. cbn [world queue matches].
  split; [apply not_elem_of_dom, is_fresh|]. split; [done|].
  split; [by apply (references_me_them who)|].
  apply (queue_absent_theirs_own who). left. apply lookup_delete_eq.
Qed.
End PairProofs.

(** C1, as the code has it: one match per pair of queue entries.  Two
    clients, X signed in as [ux] and tracking its queue entry [ex], Y
    signed in as [uy] and tracking [ey], share the store.  In every
    interleaving of their attempts to create the match with each other's
    entry (each attempt one atomic transaction), together with heartbeats,
    leaving, match snapshots, the passing of time and changes in what the
    store refuses, and as long as neither client joins the queue again, at
    most one match document is created, and it references both
    principals; and when some attempt in the interleaving finds both
    entries present, [searching] and not older than 10000 ms (its client
    still searching, the store not refusing the transaction, the fields
    copied from the candidate defined), exactly one is created: the first
    commit deletes the initiator's entry, so every later transaction
    finds a document missing and aborts. *)
Theorem at_most_one_match (ex ey : string) (ux uy : User) (evs : list Event) (sys : System) :
  pairInv ex ey ux uy sys ->
  Forall (targetsPair ex ey ux uy) evs ->
  atMostOneMatch ex ey ux uy (matches (store sys)) (runEvents evs sys)
  /\ forall pre who cached post,
       evs = pre ++ Attempt who cached :: post ->
       bothFresh ex ey who cached (runEvents pre sys) ->
       oneMatch ex ey ux uy (matches (store sys)) (runEvents evs sys).
Proof.
  intros Hinv Hevs. split.
  - destruct (runEvents_invariants ex ey ux uy (matches (store sys)) evs sys Hinv Hevs)
      as (_ & H & _).
    apply H. by left.
  - intros pre who cached post -> Hfresh.
    apply Forall_app in Hevs as [Hpre Hrest]. apply Forall_cons in Hrest as [Ha Hpost].
    unfold runEvents. rewrite fold_left_app. simpl.
    fold (runEvents pre sys). set (sys1 := runEvents pre sys) in *.
    fold (runEvents post (step (Attempt who cached) sys1)).
    destruct (runEvents_invariants ex ey ux uy (matches (store sys)) pre sys Hinv Hpre)
      as (Hinv1 & Hat & _).
    fold sys1 in Hinv1, Hat.
    assert (Hone : oneMatch ex ey ux uy (matches (store sys)) (step (Attempt who cached) sys1)).
    { destruct Hat as [Hm|Hone]; [by left| |].
      - rewrite <- Hm. by apply attempt_commits.
      - by apply oneMatch_step. }
    destruct (step_cases ex ey ux uy (Attempt who cached) sys1 Hinv1 Ha) as [Hinv2 _].
    destruct (runEvents_invariants ex ey ux uy (matches (store sys)) post
                (step (Attempt who cached) sys1) Hinv2 Hpost) as (_ & _ & H).
    by apply H.
Qed.

Lemma at_most_one_match_witness :
  oneMatch "qa" "qb" Scenario.alice Scenario.bob ∅ (runEvents Race.race Race.sys0).
Proof.
  destruct (at_most_one_match "qa" "qb" Scenario.alice Scenario.bob Race.race Race.sys0)
    as [_ H].
  - repeat split; auto.
  - unfold Race.race. repeat constructor.
  - apply (H [Heartbeat X] Y Race.cachedAlice
             [Attempt X Scenario.cachedBob; Tick 5000; Heartbeat X;
              Attempt X Scenario.cachedBob; Attempt Y Race.cachedAlice]); [reflexivity|].
    split; [reflexivity|]. split; [reflexivity|]. split; [reflexivity|].
    split; [|split];
      [eexists; (split; [vm_compute; reflexivity|]);
         (split; [reflexivity|vm_compute; discriminate])..|].
    intros d Hd. vm_compute in Hd. injection Hd as <-.
    repeat split; eexists; reflexivity.
Defined.

(** C1 as stated fails for the two principals: the transaction leaves the
    candidate's entry in place, so when alice's attempt has committed and
    she joins the queue again while bob's entry is still fresh, the scan of
    her second [joinQueue] pairs her new entry with bob's and commits: two
    match documents reference alice and bob. *)
Lemma rejoin_second_match_counterexample :
  let sys := runEvents Race.rejoin Race.sys0 in
  ~ (forall id1 id2 m1 m2,
       matches (store sys) !! id1 = Some m1 ->
       matches (store sys) !! id2 = Some m2 ->
       references Scenario.alice Scenario.bob m1 ->
       references Scenario.alice Scenario.bob m2 ->
       id1 = id2).
Proof.
  intros sys H.
  assert (E : exists m1 m2,
            matches (store sys) !! "0" = Some m1
            /\ matches (store sys) !! "1" = Some m2
            /\ references Scenario.alice Scenario.bob m1
            /\ references Scenario.alice Scenario.bob m2).
  { vm_compute. eexists _, _. split; [reflexivity|]. split; [reflexivity|].
    split; left; split; reflexivity. }
  destruct E as (m1 & m2 & H1 & H2 & R1 & R2).
  discriminate (H "0" "1" m1 m2 H1 H2 R1 R2).
Qed.

(** The store after [Race.rejoin]: no match before, two matches after,
    and bob's entry still in the queue. *)
Example rejoin_outcome :
  let sys := runEvents Race.rejoin Race.sys0 in
  matches (store Race.sys0) = ∅
  /\ (map_to_list (matches (store sys))).*1 = ["1"; "0"]
  /\ (map_to_list (queue (store sys))).*1 = ["qb"].
Proof. vm_compute. repeat split; reflexivity. Qed.

(** The race of [Race.race]: bob's transaction commits first; alice's two
    attempts and bob's second one leave the store alone. *)
Example race_outcome :
  let sys := runEvents Race.race Race.sys0 in
  (map_to_list (matches (store sys))).*1 = ["0"]
  /\ (map_to_list (queue (store sys))).*1 = ["qa"]
  /\ isMatched (c_svc (clientY sys)) = true
  /\ isMatched (c_svc (clientX sys)) = false
  /\ isCreatingMatch (c_svc (clientX sys)) = false.
Proof. vm_compute. repeat split; reflexivity. Qed.

(** * Further properties of the service *)

(** ** The heartbeat *)

(** X1.  While the client is searching and the store takes the write, the
    heartbeat returns normally and changes one thing: [lastHeartbeat] of the
    tracked entry becomes the current time.  The service, the runtime, the
    other entries and the matches stay as they were, and the entry's age is
    0 again. *)
Theorem heartbeat_refreshes (st : State) (id : string) (d : QueueDoc) :
  currentQueueId (svc st) = Some id ->
  id ≠ "" ->
  isMatched (svc st) = false ->
  fault (world st) (OpUpdateQueue id) = None ->
  queue (world st) !! id = Some d ->
  clock (world st) ≠ 0 ->
  heartbeat st =
    (Ok tt,
     mkState (svc st) (rt st)
       (set_queue (<[id := set_lastHeartbeat (clock (world st)) d]> (queue (world st)))
          (world st)))
  /\ entryAge (clock (world st)) (set_lastHeartbeat (clock (world st)) d) = 0.
Proof.
  intros Hc Hne Hm Hf Hd Hnow. split.
  - unfold heartbeat. rewrite bind_this, Hc. apply is_set_Some in Hne. rewrite Hne, Hm.
    cbn [negb andb]. unfold try_catch. rewrite bind_Date_now.
    by rewrite (updateDoc_eq id _ st d).
  - unfold entryAge, set_lastHeartbeat, JS.or_lit, JS.or_num, JS.truthy. simpl.
    destruct (Z.eqb_spec (clock (world st)) 0); simpl; [done|].
    destruct (Z.eqb_spec (clock (world st)) 0); [done|lia].
Qed.

Lemma heartbeat_refreshes_witness :
  queue (world (exec heartbeat Scenario.aliceState)) !! "qa"
  = Some (set_lastHeartbeat Scenario.now0
            (Scenario.entry Scenario.alice (Some 1000) (Scenario.now0 - 2000))).
Proof.
  destruct (heartbeat_refreshes Scenario.aliceState "qa"
              (Scenario.entry Scenario.alice (Some 1000) (Scenario.now0 - 2000)))
    as [H _]; [reflexivity|discriminate|reflexivity|reflexivity|reflexivity|discriminate|].
  unfold exec. rewrite H. reflexivity.
Defined.

(** X2.  When the heartbeat cannot write (the store refuses the update, or the
    tracked entry is gone), nothing is thrown: the client does what
    [cleanup] does, so it stops its timer, cancels its listeners and
    forgets its entry, and the store is left alone. *)
Theorem heartbeat_failure_cleans_up (st : State) (id : string) :
  currentQueueId (svc st) = Some id ->
  id ≠ "" ->
  isMatched (svc st) = false ->
  fault (world st) (OpUpdateQueue id) ≠ None \/ queue (world st) !! id = None ->
  result heartbeat st = Ok tt
  /\ exec heartbeat st = exec cleanup st
  /\ world (exec heartbeat st) = world st
  /\ currentQueueId (svc (exec heartbeat st)) = None
  /\ heartbeatInterval (svc (exec heartbeat st)) = None.
Proof.
  intros Hc Hne Hm Hfail.
  assert (H : heartbeat st = cleanup st).
  { unfold heartbeat. rewrite bind_this, Hc. apply is_set_Some in Hne. rewrite Hne, Hm.
    cbn [negb andb]. unfold try_catch. rewrite bind_Date_now. unfold updateDoc.
    rewrite request_eq.
    destruct (fault (world st) (OpUpdateQueue id)) as [e|] eqn:Ef; [reflexivity|].
    destruct Hfail as [Hf|Hq]; [done|]. rewrite bind_theWorld, Hq. reflexivity. }
  unfold result, exec. rewrite H, cleanup_spec. simpl. done.
Qed.

Lemma heartbeat_failure_witness :
  currentQueueId
    (svc (exec heartbeat
            (mkState (Scenario.searchingService Scenario.alice "gone")
               (Scenario.runtimeOf Scenario.alice) Scenario.world0))) = None.
Proof.
  apply (heartbeat_failure_cleans_up
           (mkState (Scenario.searchingService Scenario.alice "gone")
              (Scenario.runtimeOf Scenario.alice) Scenario.world0) "gone");
    [reflexivity | discriminate | reflexivity | right; reflexivity].
Defined.

(** ** Leaving *)

(** X3.  [leaveQueue] never throws and always ends with the client torn down.
    When the store accepts the delete, the tracked entry and nothing else
    leaves the queue; when it refuses, or nothing is tracked, the store is
    left as it was (the entry stays behind until it goes stale). *)
Theorem leaveQueue_effect (st : State) :
  let st' := exec leaveQueue st in
  result leaveQueue st = Ok tt
  /\ currentQueueId (svc st') = None
  /\ currentUserId (svc st') = None
  /\ heartbeatInterval (svc st') = None
  /\ matchListener (svc st') = None
  /\ queueListener (svc st') = None
  /\ isMatched (svc st') = isMatched (svc st)
  /\ matches (world st') = matches (world st)
  /\ (forall id,
        currentQueueId (svc st) = Some id -> id ≠ "" ->
        fault (world st) (OpDeleteQueue id) = None ->
        queue (world st') = delete id (queue (world st)))
  /\ (currentQueueId (svc st) = None
      \/ (exists id e, currentQueueId (svc st) = Some id
                       /\ fault (world st) (OpDeleteQueue id) = Some e) ->
      world st' = world st).
Proof.
  cbv zeta. unfold result, exec, leaveQueue. rewrite bind_this. unfold bind.
  unfold removeFromQueue.
  destruct (currentQueueId (svc st)) as [id|] eqn:Hc.
  - destruct (is_set (Some id)) eqn:Hs.
    + unfold try_catch. rewrite deleteDoc_eq.
      destruct (fault (world st) (OpDeleteQueue id)) as [e|] eqn:Hf;
        rewrite ?ret_eq, cleanup_spec; simpl; repeat split; try done.
      * intros id' [= <-] _ H. congruence.
      * intros id' [= <-] _ _. done.
      * intros [[=]|(id' & e & [= <-] & He)]. congruence.
    + rewrite ret_eq, cleanup_spec. simpl. repeat split; try done.
      intros id' [= <-] Hne. apply is_set_Some in Hne. congruence.
  - rewrite ret_eq, cleanup_spec. simpl. repeat split; try done.
Qed.

(** ** Joining *)

Lemma try_catch_cleanup_returns (body : M unit) (msg : string) st :
  fst (try_catch body (fun _ => update_rt (log_onError msg) ;;; cleanup) st) = Ok tt.
Proof.
  unfold try_catch. destruct (body st) as [[[]|e] st1]; [reflexivity|].
  rewrite bind_update_rt, cleanup_spec. reflexivity.
Qed.

Lemma try_finally_flag (m : M unit) st :
  isJoiningQueue (svc (snd (try_finally m (update (set_isJoiningQueue false)) st))) = false
  /\ fst (try_finally m (update (set_isJoiningQueue false)) st) = fst (m st).
Proof.
  unfold try_finally. destruct (m st) as [r st1]. rewrite update_eq. simpl. done.
Qed.

(** X4.  [joinQueue] never throws, whatever the store does.  A call made while
    another one is joining changes nothing; a call without a principal
    (none signed in, none signing in before the timeout) reports
    ["Not authenticated"] once and touches neither the service nor the
    queue; and every call that starts with [isJoiningQueue] false ends with
    it false again, also when joining fails. *)
Theorem joinQueue_guards (signsIn : option User) (jitter : Z) (st : State) :
  result (joinQueue signsIn jitter) st = Ok tt
  /\ (forall u, auth_currentUser (rt st) = Some u -> isJoiningQueue (svc st) = true ->
                exec (joinQueue signsIn jitter) st = st)
  /\ (auth_currentUser (rt st) = None -> signsIn = None ->
      exec (joinQueue signsIn jitter) st =
        mkState (svc st) (log_onError "Not authenticated" (rt st))
          (set_clock (clock (world st) + 5000) (world st)))
  /\ (isJoiningQueue (svc st) = false ->
      isJoiningQueue (svc (exec (joinQueue signsIn jitter) st)) = false).
Proof.
  pose (body := fun user : User =>
          s <- this ;;
          if isJoiningQueue s then ret tt
          else
            update (set_isJoiningQueue true) ;;;
            update (set_isMatched false) ;;;
            update (set_isCreatingMatch false) ;;;
            update (set_currentUserId (Some (uid user))) ;;;
            try_finally
              (try_catch
                 (cleanupEverything ;;;
                  sleep 2000 ;;;
                  now <- Date_now ;;
                  update (set_joinedAt (Some now)) ;;;
                  setupMatchListeners (uid user) ;;;
                  setupQueueListener (uid user) ;;;
                  id <- upsertQueueEntry user ;;
                  update (set_currentQueueId id) ;;;
                  sleep jitter ;;;
                  scanQueueForOpponents (uid user) ;;;
                  startHeartbeat)
                 (fun error =>
                    update_rt (log_onError "Failed to join queue") ;;;
                    cleanup))
              (update (set_isJoiningQueue false))).
  assert (Hin : forall (user : User) (st0 : State),
            svc st0 = svc st ->
            fst (body user st0) = Ok tt
            /\ (isJoiningQueue (svc st) = true -> snd (body user st0) = st0)
            /\ (isJoiningQueue (svc st) = false ->
                isJoiningQueue (svc (snd (body user st0))) = false)).
  { intros u st0 Hs. subst body. cbv beta. rewrite bind_this, Hs.
    destruct (isJoiningQueue (svc st)) eqn:Ej.
    - rewrite ret_eq. simpl. repeat split; done.
    - rewrite !bind_update.
      match goal with
      | |- context [try_finally ?m ?f ?s] =>
          destruct (try_finally_flag m s) as [H1 H2]
      end.
      rewrite H2, try_catch_cleanup_returns. repeat split; [discriminate|]. by intros _. }
  assert (Hj : forall a st1,
            waitForAuth signsIn 5000 st = (Ok a, st1) ->
            joinQueue signsIn jitter st =
              match a with
              | None => update_rt (log_onError "Not authenticated") st1
              | Some user => body user st1
              end).
  { intros a st1 H. unfold joinQueue. unfold bind at 1. rewrite H. by destruct a. }
  clearbody body.
  unfold result, exec. unfold waitForAuth in Hj. rewrite bind_runtime in Hj.
  destruct (auth_currentUser (rt st)) as [u|] eqn:Ea.
  - rewrite (Hj (Some u) st eq_refl).
    destruct (Hin u st eq_refl) as (H1 & H2 & H3).
    split; [exact H1|]. split; [intros u' _; exact H2|]. split; [done|exact H3].
  - destruct signsIn as [u|].
    + rewrite (Hj (Some u) (mkState (svc st) (set_auth (Some u) (rt st)) (world st)) eq_refl).
      destruct (Hin u (mkState (svc st) (set_auth (Some u) (rt st)) (world st)) eq_refl)
        as (H1 & H2 & H3).
      split; [exact H1|]. split; [discriminate|]. split; [discriminate|exact H3].
    + rewrite (Hj None (mkState (svc st) (rt st)
                          (set_clock (clock (world st) + 5000) (world st))) eq_refl).
      rewrite update_rt_eq. simpl. split; [done|]. split; [discriminate|]. done.
Qed.

(** Three subscriptions made one after the other and then cancelled leave
    the registry as it was. *)
Lemma subscribe_cancel (subs : gmap nat Callback) c1 c2 c3 :
  let u1 := fresh (dom subs) in
  let s1 := <[u1 := c1]> subs in
  let u2 := fresh (dom s1) in
  let s2 := <[u2 := c2]> s1 in
  let u3 := fresh (dom s2) in
  let s3 := <[u3 := c3]> s2 in
  foldr delete (foldr delete s3 [u1; u2]) [u3] = subs.
Proof.
  intros u1 s1 u2 s2 u3 s3.
  assert (H1 : subs !! u1 = None) by apply not_elem_of_dom, is_fresh.
  assert (H2 : s1 !! u2 = None) by apply not_elem_of_dom, is_fresh.
  assert (H3 : s2 !! u3 = None) by apply not_elem_of_dom, is_fresh.
  apply lookup_insert_None in H2 as [H2 N12].
  apply lookup_insert_None in H3 as [H3 N23].
  apply lookup_insert_None in H3 as [H3 N13].
  apply map_eq. intros i. simpl.
  destruct (decide (i = u3)) as [-> | n3]; [by rewrite lookup_delete_eq|].
  rewrite lookup_delete_ne; [|done].
  destruct (decide (i = u1)) as [-> | n1]; [by rewrite lookup_delete_eq|].
  rewrite lookup_delete_ne; [|done].
  destruct (decide (i = u2)) as [-> | n2]; [by rewrite lookup_delete_eq|].
  rewrite lookup_delete_ne; [|done].
  subst s3 s2 s1. by rewrite !lookup_insert_ne.
Qed.

(** X5.  A join that the store refuses.  When the query for the user's own
    entries is refused, [joinQueue] reports "Failed to join queue" once,
    returns normally, and tears the service down: no entry, no heartbeat,
    no listeners, the subscription registry as it was before the call.
    Queue and matches are as the cleanup pass at the start of the call
    left them: nothing is written after it, and when the store refuses
    the query of that pass too, they are untouched. *)
Theorem joinQueue_failure_reported (user : User) (jitter : Z) (e : Error) (st : State) :
  auth_currentUser (rt st) = Some user ->
  isJoiningQueue (svc st) = false ->
  fault (world st) (OpQueryQueue (OwnSearching (uid user))) = Some e ->
  let st' := exec (joinQueue None jitter) st in
  let cleaned := world (exec cleanupEverything st) in
  result (joinQueue None jitter) st = Ok tt
  /\ onError_calls (rt st') = "Failed to join queue" :: onError_calls (rt st)
  /\ onMatchFound_calls (rt st') = onMatchFound_calls (rt st)
  /\ subscriptions (rt st') = subscriptions (rt st)
  /\ currentQueueId (svc st') = None
  /\ heartbeatInterval (svc st') = None
  /\ matchListener (svc st') = None
  /\ queueListener (svc st') = None
  /\ isJoiningQueue (svc st') = false
  /\ queue (world st') = queue cleaned
  /\ matches (world st') = matches cleaned
  /\ (fault (world st) (OpQueryQueue AllEntries) <> None ->
      queue (world st') = queue (world st) /\ matches (world st') = matches (world st)).
Proof.
  intros Hu Hj He. cbv zeta.
  destruct (cleanupEverything_world st) as (Hclock & Hfault & Hsame & Hrun).
  set (w := world (exec cleanupEverything st)) in *.
  unfold exec, result.
  eassert (E : joinQueue None jitter st = (Ok tt, _)).
  { unfold joinQueue. unfold bind at 1. rewrite (waitForAuth_signed_in user) by done.
    rewrite bind_this, Hj.
    run. unfold try_finally, try_catch.
    erewrite (bind_run cleanupEverything); [|by apply Hrun].
    cbn [world set_isJoiningQueue set_isMatched set_isCreatingMatch set_currentUserId svc rt].
    unfold sleep. run.
    unfold setupMatchListeners, setupQueueListener, onSnapshot. run.
    unfold upsertQueueEntry, getDocs. rewrite bind_assoc, bind_request.
    cbn [world set_clock fault]. rewrite Hfault, He.
    rewrite bind_update_rt, cleanup_spec, update_eq.
    reflexivity. }
  rewrite E. clearbody w. cbn [fst snd svc rt world set_isJoiningQueue].
  cbn -[cancelled fresh dom].
  split; [done|]. split; [done|]. split; [done|].
  split; [unfold cancelled; apply subscribe_cancel|].
  repeat (split; [done|]). intros H. by rewrite (Hsame H).
Qed.

Lemma joinQueue_failure_witness :
  onError_calls (rt (exec (joinQueue None 50) Scenario5.aliceNoOwnQuery))
  = ["Failed to join queue"]
  /\ queue (world (exec (joinQueue None 50) Scenario5.aliceNoOwnQuery)) = ∅.
Proof.
  pose proof (joinQueue_failure_reported Scenario.alice 50 permissionDenied
                Scenario5.aliceNoOwnQuery eq_refl eq_refl eq_refl) as H.
  cbv zeta in H. destruct H as (_ & H1 & _ & _ & _ & _ & _ & _ & _ & H2 & _).
  split; [exact H1 | rewrite H2; vm_compute; reflexivity].
Defined.

(** ** The match callbacks accept one match *)

Lemma handleMatch_step j cell m st :
  handleMatch j cell m st = (Ok tt, st)
  \/ (~ latched cell st
      /\ j < createdAt_or_0 m
      /\ exists st1,
           handleMatch j cell m st = (Ok tt, st1)
           /\ world st1 = world st
           /\ onMatchFound_calls (rt st1) = m :: onMatchFound_calls (rt st)
           /\ isMatched (svc st1) = true
           /\ cells (rt st1) !! cell = Some true
           /\ currentQueueId (svc st1) = None).
Proof.
  unfold handleMatch, createdAt_or_0, latched.
  destruct (JS.or_lit (m_createdAt (snd m)) 0 <=? j) eqn:E; [by left|].
  apply Z.leb_gt in E. run.
  destruct (isMatched (svc st)) eqn:Em; [by left|].
  destruct (cells (rt st) !! cell) as [[]|] eqn:Ec; simpl; try by left.
  - right. split; [intros [? | ?]; congruence|]. split; [done|].
    run. rewrite cleanup_spec. eexists. split; [reflexivity|].
    simpl. by rewrite lookup_insert_eq.
  - right. split; [intros [? | ?]; congruence|]. split; [done|].
    run. rewrite cleanup_spec. eexists. split; [reflexivity|].
    simpl. by rewrite lookup_insert_eq.
Qed.

Lemma onMatchSnapshot_latched j cell changes st :
  latched cell st -> onMatchSnapshot j cell changes st = (Ok tt, st).
Proof.
  intros Hl. induction changes as [|change rest IH]; simpl; [done|].
  run.
  destruct (bool_decide (change_type change = added)
            && negb (default false (cells (rt st) !! cell))) eqn:Ec.
  - destruct (handleMatch_step j cell (change_id change, change_data change) st)
      as [Hh | (Hn & _)]; [|done].
    unfold bind at 1. rewrite Hh. exact IH.
  - run. exact IH.
Qed.

(** X6.  The two match callbacks share one latch.  Whatever a snapshot
    reports, the callback returns normally and writes nothing to the
    store; once the client is matched or the flag [hasFoundMatch] is set
    the callback changes nothing at all; otherwise it either changes
    nothing or hands exactly one match to [onMatchFound], a match that the
    snapshot reports as added and that is newer than [joinedAt], and then
    the client is matched, the flag is set and no queue entry is
    tracked any more. *)
Theorem match_accepted_once (j : Z) (cell : nat) (changes : list (DocChange MatchData))
    (st : State) :
  let st' := exec (onMatchSnapshot j cell changes) st in
  result (onMatchSnapshot j cell changes) st = Ok tt
  /\ world st' = world st
  /\ (latched cell st -> st' = st)
  /\ (st' = st
      \/ exists m,
           In m (addedMatches changes)
           /\ j < createdAt_or_0 m
           /\ onMatchFound_calls (rt st') = m :: onMatchFound_calls (rt st)
           /\ isMatched (svc st') = true
           /\ cells (rt st') !! cell = Some true
           /\ currentQueueId (svc st') = None).
Proof.
  cbv zeta. unfold exec, result.
  assert (H : onMatchSnapshot j cell changes st = (Ok tt, st)
              \/ exists m st1,
                   onMatchSnapshot j cell changes st = (Ok tt, st1)
                   /\ In m (addedMatches changes)
                   /\ j < createdAt_or_0 m
                   /\ world st1 = world st
                   /\ onMatchFound_calls (rt st1) = m :: onMatchFound_calls (rt st)
                   /\ isMatched (svc st1) = true
                   /\ cells (rt st1) !! cell = Some true
                   /\ currentQueueId (svc st1) = None).
  { induction changes as [|change rest IH]; simpl; [by left|].
    run. unfold addedMatches. simpl.
    destruct (bool_decide (change_type change = added)) eqn:Ea; simpl.
    - destruct (negb (default false (cells (rt st) !! cell))) eqn:Ec.
      + destruct (handleMatch_step j cell (change_id change, change_data change) st)
          as [Hh | (_ & Hj & st1 & Hh & Hw & Hc & Hm & Hcell & Hq)].
        * rewrite (bind_run _ _ _ _ _ Hh).
          destruct IH as [IH | (m & st1 & IH & Hin & Hrest)]; [by left|].
          right. exists m, st1. split; [done|]. split; [by right|]. done.
        * right. exists (change_id change, change_data change), st1.
          rewrite (bind_run _ _ _ _ _ Hh).
          rewrite onMatchSnapshot_latched by (by left).
          split; [done|]. split; [by left|]. done.
      + run. destruct IH as [IH | (m & st1 & IH & Hin & Hrest)]; [by left|].
        right. exists m, st1. split; [done|]. split; [by right|]. done.
    - run. destruct IH as [IH | (m & st1 & IH & Hin & Hrest)]; [by left|].
      right. by exists m, st1. }
  split; [|split; [|split]].
  - by destruct H as [-> | (m & st1 & -> & _)].
  - destruct H as [-> | (m & st1 & -> & _ & _ & Hw & _)]; done.
  - intros Hl. by rewrite onMatchSnapshot_latched.
  - destruct H as [-> | (m & st1 & -> & Hin & Hj & Hw & Hc & Hm & Hcell & Hq)]; [by left|].
    right. by exists m.
Qed.

(** ** The flag [isCreatingMatch] is released *)

Lemma createMatchFromQueue_flag cu opp st :
  isMatched (svc st) = false ->
  exists st2,
    createMatchFromQueue cu opp st = (Ok tt, st2) /\ isCreatingMatch (svc st2) = false.
Proof.
  intros Hm. rewrite createMatchFromQueue_spec, Hm. cbv zeta.
  destruct (currentQueueId (svc st)) as [cur|]; [|by eexists].
  destruct (is_set (Some cur)); [|by eexists].
  destruct (runTransaction _ _) as [[[]|e] st2].
  - rewrite cleanup_spec. by eexists.
  - by eexists.
Qed.

(** One candidate of the scan or of the queue callback: the guarded block
    returns with the flag released, and with the client unmatched when the
    loop is to go on. *)
Lemma candidate_block_flag opp u (handler : Error -> M bool) st :
  isMatched (svc st) = false ->
  exists stop st2,
    bind (update (set_isCreatingMatch true))
      (fun _ =>
         try_catch
           (valid <- isValidOpponent opp u ;;
            if valid then
              user <- authCurrentUser ;;
              createMatchFromQueue user opp ;;;
              ret true
            else
              update (set_isCreatingMatch false) ;;;
              ret false)
           handler) st = (Ok stop, st2)
    /\ isCreatingMatch (svc st2) = false
    /\ (stop = false -> isMatched (svc st2) = false).
Proof.
  intros Hm. rewrite bind_update. unfold try_catch.
  rewrite (bind_run _ _ _ _ _ (isValidOpponent_spec opp u _)).
  destruct (validOpponent opp u _).
  - unfold authCurrentUser. run.
    destruct (createMatchFromQueue_flag (auth_currentUser (rt st)) opp
                (mkState (set_isCreatingMatch true (svc st)) (rt st) (world st)) Hm)
      as (st2 & Hc & Hf).
    rewrite (bind_run _ _ _ _ _ Hc). run. exists true, st2. done.
  - run. exists false. eexists. split; [reflexivity|]. done.
Qed.

Lemma scanLoop_flag u docs st :
  isCreatingMatch (svc st) = false ->
  exists st2, scanLoop u docs st = (Ok tt, st2) /\ isCreatingMatch (svc st2) = false.
Proof.
  revert st. induction docs as [|[id data] rest IH]; intros st Hf; simpl; [by eexists|].
  run. rewrite Hf, orb_false_r.
  destruct (isMatched (svc st)) eqn:Hm; [by eexists|].
  destruct (bool_decide (Some id = currentQueueId (svc st))); [by apply IH|].
  destruct (bool_decide (qd_userId data = Some u)); [by apply IH|].
  match goal with
  | |- context [try_catch _ ?h] =>
      destruct (candidate_block_flag (potentialOpponent id data) u h st Hm)
        as (stop & st2 & Hb & Hf2 & Hm2)
  end.
  rewrite bind_update in Hb. run. rewrite (bind_run _ _ _ _ _ Hb).
  destruct stop; [by eexists|]. by apply IH.
Qed.

Lemma queueLoop_flag u sub changes st :
  isCreatingMatch (svc st) = false ->
  isMatched (svc st) = false ->
  exists st2, queueLoop u sub changes st = (Ok tt, st2) /\ isCreatingMatch (svc st2) = false.
Proof.
  revert st. induction changes as [|change rest IH]; intros st Hf Hm; simpl; [by eexists|].
  run. rewrite Hf.
  destruct (bool_decide (change_type change = added)); simpl; [|by apply IH].
  destruct (bool_decide (Some (change_id change) = currentQueueId (svc st))); [by apply IH|].
  destruct (bool_decide (qd_userId (change_data change) = Some u)); [by apply IH|].
  match goal with
  | |- context [try_catch _ ?h] =>
      destruct (candidate_block_flag
                  (potentialOpponent (change_id change) (change_data change)) u h st Hm)
        as (stop & st2 & Hb & Hf2 & Hm2)
  end.
  rewrite bind_update in Hb. run. rewrite (bind_run _ _ _ _ _ Hb).
  destruct stop; [by eexists|]. by apply IH; [|apply Hm2].
Qed.

(** X7.  Discovery releases its mutex.  Started with [isCreatingMatch]
    clear, the scan of the queue and the snapshot callback of the queue
    listener both return normally, whatever the store answers, and leave
    [isCreatingMatch] clear: a later scan or snapshot is never locked out
    by an earlier one. *)
Theorem creating_flag_released (userId : string) (sub : nat)
    (changes : list (DocChange QueueDoc)) (st : State) :
  isCreatingMatch (svc st) = false ->
  (result (scanQueueForOpponents userId) st = Ok tt
   /\ isCreatingMatch (svc (exec (scanQueueForOpponents userId) st)) = false)
  /\ (result (onQueueSnapshot userId sub changes) st = Ok tt
      /\ isCreatingMatch (svc (exec (onQueueSnapshot userId sub changes) st)) = false).
Proof.
  intros Hf. unfold exec, result. split.
  - unfold scanQueueForOpponents. rewrite bind_this, Hf, orb_false_r.
    destruct (negb (is_set (currentQueueId (svc st))) || isMatched (svc st)); [done|].
    unfold try_catch, getDocs. rewrite bind_request.
    destruct (fault (world st) (OpQueryQueue AllSearching)); [done|].
    run. destruct (scanLoop_flag userId
                     (List.filter (fun ds => selects AllSearching (snd ds))
                        (map_to_list (queue (world st)))) st Hf) as (st2 & Hs & Hf2).
    rewrite Hs. done.
  - unfold onQueueSnapshot. rewrite bind_this, Hf, orb_false_r.
    destruct (isMatched (svc st)) eqn:Hm; [done|]. simpl.
    destruct (negb (is_set (currentQueueId (svc st)))); [done|].
    destruct (queueLoop_flag userId sub changes st Hf Hm) as (st2 & Hs & Hf2).
    rewrite Hs. done.
Qed.

Lemma creating_flag_witness :
  isCreatingMatch (svc (exec (scanQueueForOpponents "alice") Scenario.aliceState)) = false.
Proof.
  exact (proj2 (proj1 (creating_flag_released "alice" 0 [] Scenario.aliceState eq_refl))).
Defined.

(** ** The scan finds an opponent *)

Lemma validOpponent_fresh id d u st :
  qd_userId d ≠ Some u ->
  Some id ≠ currentQueueId (svc st) ->
  fault (world st) (OpGetQueue id) = None ->
  queue (world st) !! id = Some d ->
  qd_status d = searching ->
  entryAge (clock (world st)) d <= 30000 ->
  validOpponent (potentialOpponent id d) u st = true.
Proof.
  intros Hu Hi Hf Hq Hs Ha. unfold validOpponent. simpl.
  rewrite (bool_decide_eq_false_2 _ Hu), (bool_decide_eq_false_2 _ Hi). simpl.
  rewrite Hf, Hq.
  destruct (30000 <? entryAge (clock (world st)) d) eqn:E; [apply Z.ltb_lt in E; lia|].
  by apply bool_decide_eq_true_2.
Qed.

Lemma scanLoop_commits user cur cd docs st :
  auth_currentUser (rt st) = Some user ->
  currentQueueId (svc st) = Some cur ->
  cur ≠ "" ->
  isMatched (svc st) = false ->
  isCreatingMatch (svc st) = false ->
  (forall op, fault (world st) op = None) ->
  queue (world st) !! cur = Some cd ->
  fit (clock (world st)) cd ->
  (forall id d, (id, d) ∈ docs -> queue (world st) !! id = Some d /\ qd_status d = searching) ->
  (forall id d, (id, d) ∈ docs -> qd_userId d ≠ Some (uid user) -> id ≠ cur ->
                entryAge (clock (world st)) d <= 10000
                /\ definedCandidate (potentialOpponent id d) d) ->
  (exists id d, (id, d) ∈ docs /\ qd_userId d ≠ Some (uid user) /\ id ≠ cur) ->
  exists id d st2,
    (id, d) ∈ docs /\ qd_userId d ≠ Some (uid user) /\ id ≠ cur
    /\ scanLoop (uid user) docs st = (Ok tt, st2)
    /\ (isMatched (svc st2) = true /\ currentQueueId (svc st2) = None)
    /\ world st2 =
         mkWorld (delete cur (queue (world st)))
           (<[fresh (dom (matches (world st))) :=
                writtenMatch user (potentialOpponent id d) d (clock (world st))]>
              (matches (world st)))
           (clock (world st)) (fault (world st)).
Proof.
  intros Hau Hcur Hne Hm Hf Hno Hcd Hfit.
  induction docs as [|[id d] rest IH]; intros Hin Hfresh (id0 & d0 & Hex & Hu0 & Hi0).
  { by apply elem_of_nil in Hex. }
  assert (Hrest : (bool_decide (Some id = currentQueueId (svc st)) = true
                   \/ bool_decide (qd_userId d = Some (uid user)) = true) ->
                  exists id1 d1 st2,
                    (id1, d1) ∈ (id, d) :: rest /\ qd_userId d1 ≠ Some (uid user) /\ id1 ≠ cur
                    /\ scanLoop (uid user) rest st = (Ok tt, st2)
                    /\ (isMatched (svc st2) = true /\ currentQueueId (svc st2) = None)
                    /\ world st2 =
                         mkWorld (delete cur (queue (world st)))
                           (<[fresh (dom (matches (world st))) :=
                                writtenMatch user (potentialOpponent id1 d1) d1
                                  (clock (world st))]>
                              (matches (world st)))
                           (clock (world st)) (fault (world st))).
  { intros Hskip.
    destruct IH as (id1 & d1 & st2 & H1 & H2 & H3 & H4).
    - intros i x Hi. apply Hin. by right.
    - intros i x Hi. apply Hfresh. by right.
    - exists id0, d0. split; [|done].
      apply elem_of_cons in Hex as [[= -> ->] | Hex]; [|done].
      destruct Hskip as [Hs | Hs]; apply bool_decide_eq_true_1 in Hs.
      + rewrite Hcur in Hs. by injection Hs.
      + done.
    - exists id1, d1, st2. split; [by right|]. done. }
  simpl. run. rewrite Hm, Hf. simpl.
  destruct (bool_decide (Some id = currentQueueId (svc st))) eqn:E1; [apply Hrest; by left|].
  destruct (bool_decide (qd_userId d = Some (uid user))) eqn:E2; [apply Hrest; by right|].
  clear Hrest IH.
  apply bool_decide_eq_false_1 in E1. apply bool_decide_eq_false_1 in E2.
  assert (Hid : id ≠ cur) by (intros ->; by rewrite Hcur in E1).
  destruct (Hin id d) as [Hq Hs]; [by left|].
  assert (Hage : entryAge (clock (world st)) d <= 10000
                 /\ definedCandidate (potentialOpponent id d) d)
    by (apply (Hfresh id d); [by left|done..]).
  destruct Hage as [Hage Hdef].
  exists id, d.
  pose (st1 := mkState (set_isCreatingMatch true (svc st)) (rt st) (world st)).
  assert (Hv : validOpponent (potentialOpponent id d) (uid user) st1 = true).
  { apply validOpponent_fresh; try done. simpl. lia. }
  pose proof (createMatchFromQueue_commit user (potentialOpponent id d) st1 cur d cd
                Hm Hcur Hne (Hno _) Hq Hcd (conj Hs Hage) Hfit Hdef) as Hc.
  cbv zeta in Hc. unfold exec in Hc.
  pose proof (createMatchFromQueue_returns (Some user) (potentialOpponent id d) st1) as Hr.
  unfold result in Hr.
  destruct (createMatchFromQueue (Some user) (potentialOpponent id d) st1) as [r st2] eqn:Ecm.
  simpl in Hc, Hr. subst r. destruct Hc as (Hw & Hm2 & Hq2).
  exists st2. split; [by left|]. split; [done|]. split; [done|].
  subst st1. rewrite bind_update.
  match goal with
  | |- context [bind (try_catch ?b ?h) ?k ?s] =>
      assert (Hb : try_catch b h s = (Ok true, st2))
  end.
  { unfold try_catch. rewrite (bind_run _ _ _ _ _ (isValidOpponent_spec _ _ _)), Hv.
    unfold authCurrentUser. run. rewrite Hau, (bind_run _ _ _ _ _ Ecm). done. }
  rewrite (bind_run _ _ _ _ _ Hb). done.
Qed.

(** X8.  The scan commits a match.  A signed-in, searching client whose own
    entry is fresh, with a store that refuses nothing, in which every
    [searching] entry of another user is at most 10 s old and carries the
    fields that the match document copies (a user id, a timestamp and a
    username), and at least one exists: [scanQueueForOpponents] returns
    matched, having written exactly one match document (player 1 the
    client, player 2 one of those candidates) and deleted exactly its own
    entry; the candidate's entry is still in the queue. *)
Theorem scan_commits (user : User) (cur : string) (cd : QueueDoc) (st : State) :
  auth_currentUser (rt st) = Some user ->
  currentQueueId (svc st) = Some cur ->
  cur ≠ "" ->
  isMatched (svc st) = false ->
  isCreatingMatch (svc st) = false ->
  (forall op, fault (world st) op = None) ->
  queue (world st) !! cur = Some cd ->
  fit (clock (world st)) cd ->
  (forall id d, queue (world st) !! id = Some d -> foreignCandidate (uid user) cur id d ->
                entryAge (clock (world st)) d <= 10000) ->
  (forall id d, queue (world st) !! id = Some d -> foreignCandidate (uid user) cur id d ->
                definedCandidate (potentialOpponent id d) d) ->
  (exists id d, queue (world st) !! id = Some d /\ foreignCandidate (uid user) cur id d) ->
  let st' := exec (scanQueueForOpponents (uid user)) st in
  result (scanQueueForOpponents (uid user)) st = Ok tt
  /\ isMatched (svc st') = true
  /\ currentQueueId (svc st') = None
  /\ queue (world st') = delete cur (queue (world st))
  /\ exists id d,
       queue (world st) !! id = Some d
       /\ foreignCandidate (uid user) cur id d
       /\ queue (world st') !! id = Some d
       /\ matches (world st') =
            <[fresh (dom (matches (world st))) :=
                writtenMatch user (potentialOpponent id d) d (clock (world st))]>
              (matches (world st)).
Proof.
  intros Hau Hcur Hne Hm Hf Hno Hcd Hfit Hfresh Hdef (id0 & d0 & Hq0 & Hs0 & Hu0 & Hi0).
  cbv zeta. unfold exec, result.
  pose (docs := List.filter (fun ds : string * QueueDoc => selects AllSearching (snd ds))
                  (map_to_list (queue (world st)))).
  assert (Hdocs : forall id d, (id, d) ∈ docs <->
                               queue (world st) !! id = Some d /\ qd_status d = searching).
  { intros id d. subst docs.
    rewrite list_elem_of_In, filter_In, <- list_elem_of_In, elem_of_map_to_list. simpl.
    by rewrite bool_decide_eq_true. }
  destruct (scanLoop_commits user cur cd docs st Hau Hcur Hne Hm Hf Hno Hcd Hfit)
    as (id & d & st2 & Hin & Hu & Hi & Hloop & [Hm2 Hq2] & Hw).
  { intros id d Hin. by apply Hdocs. }
  { intros id d Hin Hu Hi. apply Hdocs in Hin as [Hq Hs].
    split; [by apply (Hfresh id d)|by apply (Hdef id d)]. }
  { exists id0, d0. split; [by apply Hdocs|done]. }
  apply Hdocs in Hin as [Hq Hs].
  assert (E : scanQueueForOpponents (uid user) st = (Ok tt, st2)).
  { unfold scanQueueForOpponents. rewrite bind_this, Hcur, Hm, Hf.
    rewrite (proj2 (is_set_Some cur) Hne). simpl.
    unfold try_catch. rewrite (bind_run _ _ _ _ _ (getDocs_eq _ _ (Hno _))).
    fold docs. by rewrite Hloop. }
  rewrite E. simpl. rewrite Hw. simpl.
  split; [done|]. split; [done|]. split; [done|]. split; [done|].
  exists id, d. split; [done|]. split; [done|]. split; [|done].
  by rewrite lookup_delete_ne.
Qed.

Lemma scan_commits_witness :
  isMatched (svc (exec (scanQueueForOpponents "alice") Scenario.aliceState)) = true
  /\ queue (world (exec (scanQueueForOpponents "alice") Scenario.aliceState))
     = delete "qa" Scenario.queue0.
Proof.
  destruct (scan_commits Scenario.alice "qa"
              (Scenario.entry Scenario.alice (Some 1000) (Scenario.now0 - 2000))
              Scenario.aliceState) as (_ & H1 & _ & H2 & _).
  - reflexivity.
  - reflexivity.
  - discriminate.
  - reflexivity.
  - reflexivity.
  - intros op. reflexivity.
  - reflexivity.
  - split; [reflexivity | vm_compute; discriminate].
  - intros id d Hq _. revert Hq.
    unfold Scenario.aliceState, Scenario.world0, Scenario.queue0. cbn [world queue].
    rewrite !lookup_insert_Some, lookup_empty.
    intros [[_ <-] | [_ [[_ <-] | [_ ?]]]]; try discriminate; vm_compute; discriminate.
  - intros id d Hq _. revert Hq.
    unfold Scenario.aliceState, Scenario.world0, Scenario.queue0. cbn [world queue].
    rewrite !lookup_insert_Some, lookup_empty.
    intros [[_ <-] | [_ [[_ <-] | [_ ?]]]]; try discriminate;
      repeat split; eexists; reflexivity.
  - exists "qb", (Scenario.entry Scenario.bob (Some 1500) (Scenario.now0 - 2000)).
    split; [reflexivity|]. split; [reflexivity|]. split; discriminate.
  - split; [exact H1 | exact H2].
Defined.

(** ** [upsertQueueEntry] off the usual path *)

Lemma filter_not_none (ids : list string) :
  List.filter (fun id => negb (bool_decide (Some id = None))) ids = ids.
Proof.
  induction ids as [|i l IH]; [done|].
  change (i :: List.filter (fun id => negb (bool_decide (Some id = None))) l = i :: l).
  by rewrite IH.
Qed.

Lemma filter_not_newest (new : string) (ids : list string) :
  new ∉ ids ->
  List.filter (fun id => negb (bool_decide (Some id = Some new))) ids = ids.
Proof.
  induction ids as [|i l IH]; [done|].
  intros Hn. apply not_elem_of_cons in Hn as [Hn Hl].
  cbn [List.filter]. rewrite bool_decide_eq_false_2 by congruence.
  cbn [negb]. by rewrite IH.
Qed.

Lemma deletable_all w ids :
  (forall id, fault w (OpDeleteQueue id) = None) -> deletable w ids = ids.
Proof.
  intros H. unfold deletable. induction ids as [|i l IH]; simpl; [done|].
  rewrite bool_decide_eq_true_2 by apply H. by rewrite IH.
Qed.

(** X9.  Entries without a positive timestamp.  When the principal has
    [searching] entries but none of them carries a positive [timestamp]
    (missing, zero or negative), the loop of [upsertQueueEntry] selects no
    entry: on a store that accepts the query and the deletions the call
    returns [null], every [searching] entry of the principal is deleted,
    no entry is created, and the entries of other principals stay. *)
Theorem upsert_unstamped_returns_null (user : User) (st : State) :
  fault (world st) (OpQueryQueue (OwnSearching (uid user))) = None ->
  (forall id, fault (world st) (OpDeleteQueue id) = None) ->
  (exists k d, queue (world st) !! k = Some d /\ searchingOf (uid user) d) ->
  (forall k d, queue (world st) !! k = Some d -> searchingOf (uid user) d ->
               JS.or_lit (qd_timestamp d) 0 <= 0) ->
  let st' := exec (upsertQueueEntry user) st in
  result (upsertQueueEntry user) st = Ok None
  /\ (forall k d, queue (world st') !! k = Some d -> ~ searchingOf (uid user) d)
  /\ (forall k, queue (world st') !! k = None ->
                queue (world st) !! k = None
                \/ exists d, queue (world st) !! k = Some d /\ searchingOf (uid user) d)
  /\ (forall k d, queue (world st') !! k = Some d -> queue (world st) !! k = Some d)
  /\ matches (world st') = matches (world st)
  /\ svc st' = svc st.
Proof.
  intros Hq Hdel (k0 & d0 & Hk0 & Hs0) Hts. cbv zeta. unfold exec, result.
  set (L := upsertSnapshot (uid user) (queue (world st))).
  assert (Hin0 : (k0, d0) ∈ L) by (by apply elem_of_upsertSnapshot).
  assert (E : upsertQueueEntry user st =
              (Ok None,
               mkState (svc st) (rt st)
                 (set_queue (foldr delete (queue (world st)) (L.*1)) (world st)))).
  { unfold upsertQueueEntry. rewrite (bind_run _ _ _ _ _ (getDocs_eq _ _ Hq)).
    fold (upsertSnapshot (uid user) (queue (world st))). fold L.
    destruct L as [|[k1 d1] rest] eqn:EL; [by apply elem_of_nil in Hin0|].
    cbv beta iota. rewrite <- EL.
    destruct (newestLoop_spec L (None, 0)) as [[[Hr Hle]|(k & d & Hin & Hr & Hlt)] Hmax].
    - rewrite Hr. cbn [fst]. run.
      rewrite deleteOthers_tryDeleteAll, filter_not_none.
      rewrite (bind_run _ _ _ _ _ (tryDeleteAll_spec _ _)). run.
      by rewrite deletable_all.
    - exfalso. rewrite Hr in Hlt. simpl in Hlt.
      subst L. apply elem_of_upsertSnapshot in Hin as [Hk Hs].
      specialize (Hts k d Hk Hs). lia. }
  rewrite E. simpl.
  assert (Hids : forall k, k ∈ L.*1 <->
                           exists d, queue (world st) !! k = Some d /\ searchingOf (uid user) d).
  { intros k. rewrite list_elem_of_fmap. split.
    - intros ([k' d] & -> & Hin). apply elem_of_upsertSnapshot in Hin. by exists d.
    - intros (d & Hk & Hs). exists (k, d). split; [done|]. by apply elem_of_upsertSnapshot. }
  split; [done|]. split; [|split; [|split]].
  - intros k d Hk Hs. destruct (decide (k ∈ L.*1)) as [Hin | Hnin].
    + rewrite lookup_foldr_delete in Hk by done. discriminate.
    + rewrite lookup_foldr_delete_not_elem_of in Hk by done.
      apply Hnin, Hids. by exists d.
  - intros k Hk. destruct (decide (k ∈ L.*1)) as [Hin | Hnin].
    + right. by apply Hids.
    + left. by rewrite lookup_foldr_delete_not_elem_of in Hk.
  - intros k d Hk. destruct (decide (k ∈ L.*1)) as [Hin | Hnin].
    + rewrite lookup_foldr_delete in Hk by done. discriminate.
    + by rewrite lookup_foldr_delete_not_elem_of in Hk.
  - done.
Qed.

Lemma upsert_unstamped_witness :
  result (upsertQueueEntry Scenario.alice) Scenario3.aliceUnstamped = Ok None.
Proof.
  destruct (upsert_unstamped_returns_null Scenario.alice Scenario3.aliceUnstamped)
    as (H & _).
  - reflexivity.
  - intros id. reflexivity.
  - exists "qa", Scenario3.unstamped. split; [reflexivity|]. split; reflexivity.
  - intros k d Hk _. revert Hk. unfold Scenario3.aliceUnstamped. cbn [world queue].
    rewrite lookup_insert_Some, lookup_empty.
    intros [[_ <-] | [_ ?]]; [vm_compute; discriminate | discriminate].
  - exact H.
Defined.

(** X10.  The fallback of [upsertQueueEntry].  The principal has
    [searching] entries with positive timestamps, but the store refuses to
    update any entry, while it accepts the query, the creation and the
    deletions.  Then the call creates a new entry and returns its id, and
    deletes every earlier [searching] entry of the principal, the newest
    one included: the principal is left with exactly the new entry, and
    the entries of other principals stay. *)
Theorem upsert_fallback_creates (user : User) (st : State) :
  fault (world st) (OpQueryQueue (OwnSearching (uid user))) = None ->
  fault (world st) OpAddQueue = None ->
  (forall id, fault (world st) (OpDeleteQueue id) = None) ->
  (forall id, fault (world st) (OpUpdateQueue id) ≠ None) ->
  queue (world st) !! "" = None ->
  stamped (uid user) (queue (world st)) ->
  (exists k d, queue (world st) !! k = Some d /\ searchingOf (uid user) d) ->
  let st' := exec (upsertQueueEntry user) st in
  let new := fresh ({[""]} ∪ dom (queue (world st))) in
  result (upsertQueueEntry user) st = Ok (Some new)
  /\ queue (world st) !! new = None
  /\ queue (world st') !! new = Some (newQueueEntry user (clock (world st)))
  /\ (forall k d, queue (world st') !! k = Some d -> searchingOf (uid user) d -> k = new)
  /\ (forall k d, queue (world st) !! k = Some d -> ~ searchingOf (uid user) d ->
                  queue (world st') !! k = Some d)
  /\ matches (world st') = matches (world st)
  /\ svc st' = svc st.
Proof.
  intros Hq Hadd Hdel Hupd Hempty Hst (k0 & d0 & Hk0 & Hs0). cbv zeta. unfold exec, result.
  set (L := upsertSnapshot (uid user) (queue (world st))).
  destruct (fresh_queue_id (queue (world st))) as [Hne Hfr].
  assert (Hin0 : (k0, d0) ∈ L) by (by apply elem_of_upsertSnapshot).
  assert (Hids : forall k, k ∈ L.*1 <->
                           exists d, queue (world st) !! k = Some d /\ searchingOf (uid user) d).
  { intros k. rewrite list_elem_of_fmap. split.
    - intros ([k' d] & -> & Hin). apply elem_of_upsertSnapshot in Hin. by exists d.
    - intros (d & Hk & Hs). exists (k, d). split; [done|]. by apply elem_of_upsertSnapshot. }
  assert (Hnew : fresh ({[""]} ∪ dom (queue (world st))) ∉ L.*1).
  { rewrite Hids. intros (d & Hk & _). congruence. }
  assert (E : upsertQueueEntry user st =
              (Ok (Some (fresh ({[""]} ∪ dom (queue (world st))))),
               mkState (svc st) (rt st)
                 (set_queue
                    (foldr delete
                       (<[fresh ({[""]} ∪ dom (queue (world st))) :=
                            newQueueEntry user (clock (world st))]> (queue (world st)))
                       (L.*1))
                    (world st)))).
  { unfold upsertQueueEntry. rewrite (bind_run _ _ _ _ _ (getDocs_eq _ _ Hq)).
    fold (upsertSnapshot (uid user) (queue (world st))). fold L.
    destruct L as [|[k1 d1] rest] eqn:EL; [by apply elem_of_nil in Hin0|].
    cbv beta iota. rewrite <- EL.
    destruct (newestLoop_spec L (None, 0)) as [[[Hr Hle]|(k & d & Hin & Hr & Hlt)] Hmax].
    { exfalso. specialize (Hst k0 d0 Hk0 Hs0).
      assert ((k0, d0) ∈ L) as Hin by (rewrite EL; exact Hin0).
      specialize (Hle k0 d0 Hin). simpl in Hle. lia. }
    rewrite Hr. cbn [fst].
    assert (Hk : queue (world st) !! k = Some d).
    { subst L. by apply elem_of_upsertSnapshot in Hin as [Hk _]. }
    assert (Hkne : k ≠ "") by (intros ->; congruence).
    rewrite (proj2 (is_set_Some k) Hkne).
    assert (Hu : exists e, updateDoc k (refreshEntry user (clock (world st))) st = (Throw e, st)).
    { unfold updateDoc. rewrite request_eq.
      destruct (fault (world st) (OpUpdateQueue k)) as [e|] eqn:Ef; [by exists e|].
      by destruct (Hupd k). }
    destruct Hu as (e & Hu).
    match goal with
    | |- context [bind (try_catch ?b ?h) ?kk st] =>
        assert (Htc : try_catch b h st =
                      (Ok (Some (fresh ({[""]} ∪ dom (queue (world st))))),
                       mkState (svc st) (rt st)
                         (set_queue
                            (<[fresh ({[""]} ∪ dom (queue (world st))) :=
                                 newQueueEntry user (clock (world st))]> (queue (world st)))
                            (world st))))
    end.
    { unfold try_catch. rewrite bind_Date_now. rewrite (bind_run _ _ _ _ _ Hu).
      rewrite bind_Date_now. rewrite (bind_run _ _ _ _ _ (addDoc_eq _ _ Hadd)).
      reflexivity. }
    rewrite (bind_run _ _ _ _ _ Htc).
    rewrite deleteOthers_tryDeleteAll.
    rewrite (bind_run _ _ _ _ _ (tryDeleteAll_spec _ _)). run.
    rewrite deletable_all by (intros id; apply Hdel).
    rewrite filter_not_newest by (rewrite EL; exact Hnew).
    reflexivity. }
  rewrite E. simpl.
  split; [done|]. split; [done|]. split; [|split; [|split]].
  - rewrite lookup_foldr_delete_not_elem_of by done. by rewrite lookup_insert_eq.
  - intros k d Hk Hs.
    destruct (decide (k = fresh ({[""]} ∪ dom (queue (world st))))) as [-> | Hkn]; [done|].
    exfalso. destruct (decide (k ∈ L.*1)) as [Hin | Hnin].
    + rewrite lookup_foldr_delete in Hk by done. discriminate.
    + rewrite lookup_foldr_delete_not_elem_of, lookup_insert_ne in Hk by done.
      apply Hnin, Hids. by exists d.
  - intros k d Hk Hns. rewrite lookup_foldr_delete_not_elem_of.
    + rewrite lookup_insert_ne; [done|]. intros <-. congruence.
    + rewrite Hids. intros (d' & Hk' & Hs'). congruence.
  - done.
Qed.

Lemma upsert_fallback_witness :
  exists new,
    result (upsertQueueEntry Scenario.alice) Scenario5.aliceNoUpdates = Ok (Some new)
    /\ Scenario.queue0 !! new = None.
Proof.
  destruct (upsert_fallback_creates Scenario.alice Scenario5.aliceNoUpdates)
    as (H1 & H2 & _).
  - reflexivity.
  - reflexivity.
  - intros id. reflexivity.
  - intros id. discriminate.
  - reflexivity.
  - intros k d Hk _. revert Hk.
    unfold Scenario5.aliceNoUpdates, Scenario.queue0. cbn [world queue].
    rewrite !lookup_insert_Some, lookup_empty.
    intros [[_ <-] | [_ [[_ <-] | [_ ?]]]]; try discriminate; vm_compute; reflexivity.
  - exists "qa", (Scenario.entry Scenario.alice (Some 1000) (Scenario.now0 - 2000)).
    split; [reflexivity|]. split; reflexivity.
  - eexists. split; [exact H1 | exact H2].
Defined.

(** ** The listener of the authentication state *)

Lemma removeFromQueue_wrapped qid (h : Error -> M unit) st :
  try_catch (removeFromQueue qid) h st = removeFromQueue qid st.
Proof.
  unfold try_catch.
  by destruct (removeFromQueue_spec qid st) as [-> | (id & _ & ->)].
Qed.

Lemma auth_teardown_block (R : option string -> M unit) st :
  (forall qid st0, R qid st0 = removeFromQueue qid st0) ->
  exists st2,
    bind stopListening
      (fun _ =>
         try_catch
           (s <- this ;;
            (if is_set (currentQueueId s) then R (currentQueueId s) else ret tt) ;;;
            cleanup)
           (fun _ => ret tt)) st = (Ok tt, st2)
    /\ tornDown st st2.
Proof.
  intros HR.
  destruct (stopListening_spec st) as (s1 & r1 & Hs & Hc).
  rewrite (bind_run _ _ _ _ _ Hs). unfold try_catch. rewrite bind_this. cbn [svc].
  rewrite Hc.
  assert (Hrem : exists st1',
            (if is_set (currentQueueId (svc st)) then R (currentQueueId (svc st)) else ret tt)
              (mkState s1 r1 (world st)) = (Ok tt, st1')
            /\ svc st1' = s1 /\ rt st1' = r1
            /\ matches (world st1') = matches (world st)
            /\ (queue (world st1') = queue (world st)
                \/ exists id, currentQueueId (svc st) = Some id
                              /\ queue (world st1') = delete id (queue (world st)))
            /\ (forall id, currentQueueId (svc st) = Some id -> id ≠ "" ->
                           fault (world st) (OpDeleteQueue id) = None ->
                           queue (world st1') = delete id (queue (world st)))).
  { destruct (currentQueueId (svc st)) as [id|] eqn:Eq; [|eexists; split; [reflexivity|]; simpl; repeat (split; [done|]); split; [by left|done]].
    destruct (is_set (Some id)) eqn:Es.
    - rewrite HR. unfold removeFromQueue. rewrite Es. unfold try_catch. rewrite deleteDoc_eq.
      cbn [world]. destruct (fault (world st) (OpDeleteQueue id)) as [e|] eqn:Ef.
      + eexists. split; [reflexivity|]. simpl. repeat (split; [done|]). split; [by left|].
        intros id' [= <-]. congruence.
      + eexists. split; [reflexivity|]. simpl. repeat (split; [done|]).
        split; [right; by exists id|]. by intros id' [= <-].
    - eexists. split; [reflexivity|]. simpl. repeat (split; [done|]). split; [by left|].
      intros id' [= <-] Hne. apply is_set_Some in Hne. congruence. }
  destruct Hrem as (st1' & Hr & Hs1 & Hr1 & Hm & Hq & Hq').
  rewrite (bind_run _ _ _ _ _ Hr). rewrite cleanup_spec.
  eexists. split; [reflexivity|]. unfold tornDown. simpl. done.
Qed.

(** X11.  Changes of the authentication state.  The listener never throws.
    When the user it reports is the one the service joined for, or the
    service joined for nobody, nothing changes.  On a sign-out, and when
    another user has signed in, the service is torn down: nothing is
    tracked, no heartbeat and no listener is left, match documents are
    untouched, and the only queue document that can disappear is the entry
    the service tracked, which does disappear when the store accepts its
    deletion. *)
Theorem auth_change_teardown (user : option User) (st : State) :
  let st' := exec (onAuthStateChanged user) st in
  result (onAuthStateChanged user) st = Ok tt
  /\ (forall u, user = Some u ->
                currentUserId (svc st) = None \/ currentUserId (svc st) = Some (uid u) ->
                st' = st)
  /\ (user = None
      \/ (exists u c, user = Some u /\ currentUserId (svc st) = Some c
                      /\ c ≠ "" /\ c ≠ uid u) ->
      tornDown st st').
Proof.
  cbv zeta. unfold exec, result.
  assert (H : exists st2,
            onAuthStateChanged user st = (Ok tt, st2)
            /\ ((st2 = st
                 /\ exists u, user = Some u
                              /\ (currentUserId (svc st) = None
                                  \/ currentUserId (svc st) = Some ""
                                  \/ currentUserId (svc st) = Some (uid u)))
                \/ (tornDown st st2
                    /\ (user = None
                        \/ exists u c, user = Some u /\ currentUserId (svc st) = Some c
                                        /\ c ≠ "" /\ c ≠ uid u)))).
  { destruct user as [u|].
    - assert (Hsame : currentUserId (svc st) = None
                      \/ currentUserId (svc st) = Some ""
                      \/ currentUserId (svc st) = Some (uid u) ->
                      onAuthStateChanged (Some u) st = (Ok tt, st)).
      { intros Hc. unfold onAuthStateChanged, try_catch. rewrite bind_this.
        destruct Hc as [-> | [-> | ->]]; [done|done|].
        by rewrite bool_decide_eq_true_2, andb_false_r. }
      destruct (currentUserId (svc st)) as [c|] eqn:Ec;
        [|exists st; split; [by apply Hsame; left|left; split; [done|]; exists u; auto]].
      destruct (decide (c = "")) as [-> | Hne];
        [exists st; split; [by apply Hsame; auto|left; split; [done|]; exists u; auto]|].
      destruct (decide (c = uid u)) as [-> | Hcu];
        [exists st; split; [by apply Hsame; auto|left; split; [done|]; exists u; auto]|].
      clear Hsame.
      pose (st0 := mkState (set_suppressPermissionWarnings true (svc st)) (rt st) (world st)).
      destruct (auth_teardown_block
                  (fun qid => try_catch (removeFromQueue qid) (fun _ => ret tt)) st0)
        as (st2 & Hb & Ht).
      { intros qid s0. apply removeFromQueue_wrapped. }
      eexists. split.
      + unfold onAuthStateChanged. unfold try_catch at 1. rewrite bind_this, Ec.
        rewrite (proj2 (is_set_Some c) Hne).
        rewrite bool_decide_eq_false_2 by congruence. cbn [negb andb].
        rewrite bind_update. fold st0.
        match goal with
        | |- context [bind stopListening (fun _ => bind ?t ?k') ?s] =>
            rewrite <- (bind_assoc stopListening (fun _ => t) k' s)
        end.
        rewrite (bind_run _ _ _ _ _ Hb). rewrite update_eq. reflexivity.
      + right. split; [|right; by exists u, c].
        unfold tornDown in *. simpl in *. done.
    - destruct (auth_teardown_block removeFromQueue st) as (st2 & Hb & Ht); [done|].
      exists st2. split.
      + unfold onAuthStateChanged. unfold try_catch at 1. by rewrite Hb.
      + right. split; [done|]. by left. }
  destruct H as (st2 & E & [[-> (u & -> & Hc)] | (Ht & Hc)]); rewrite E; simpl.
  - split; [done|]. split; [done|].
    intros [[=] | (u' & c & [= <-] & Hc' & Hne & Hcu)].
    destruct Hc as [Hc | [Hc | Hc]]; congruence.
  - split; [done|]. split; [|done].
    intros u -> Hcur. destruct Hc as [[=] | (u' & c & [= <-] & Hc' & Hne & Hcu)].
    destruct Hcur; congruence.
Qed.

(** ** What [upsertQueueEntry] writes *)

Lemma upsert_writes user st :
  exists r q1 ids,
    upsertQueueEntry user st =
      (r, mkState (svc st) (rt st) (set_queue (foldr delete q1 ids) (world st)))
    /\ (q1 = queue (world st)
        \/ exists id e, q1 = <[id := e]> (queue (world st))
                        /\ r = Ok (Some id) /\ searchingOf (uid user) e).
Proof.
  destruct st as [s rtm [q m c f]].
  assert (Hnil : forall (r : Result (option string)) q1,
            (q1 = q \/ exists id e, q1 = <[id := e]> q
                                    /\ r = Ok (Some id) /\ searchingOf (uid user) e) ->
            exists (r' : Result (option string)) q1' ids,
              (r, mkState s rtm (mkWorld q1 m c f)) =
                (r', mkState s rtm (mkWorld (foldr delete q1' ids) m c f))
              /\ (q1' = q \/ exists id e, q1' = <[id := e]> q
                                          /\ r' = Ok (Some id) /\ searchingOf (uid user) e)).
  { intros r q1 H. by exists r, q1, []. }
  assert (Hfin : forall L newest q1,
            (q1 = q \/ exists id e, q1 = <[id := e]> q
                                    /\ newest = Some id /\ searchingOf (uid user) e) ->
            exists (r' : Result (option string)) q1' ids,
              (deleteOthers L newest ;;; ret newest) (mkState s rtm (mkWorld q1 m c f)) =
                (r', mkState s rtm (mkWorld (foldr delete q1' ids) m c f))
              /\ (q1' = q \/ exists id e, q1' = <[id := e]> q
                                          /\ r' = Ok (Some id) /\ searchingOf (uid user) e)).
  { intros L newest q1 H.
    exists (Ok newest), q1,
      (deletable (mkWorld q1 m c f)
         (List.filter (fun id => negb (bool_decide (Some id = newest))) (L.*1))).
    split.
    { unfold bind. rewrite deleteOthers_tryDeleteAll, tryDeleteAll_spec. reflexivity. }
    destruct H as [-> | (id & e & -> & -> & He)]; [by left|].
    right. by exists id, e. }
  unfold upsertQueueEntry. unfold getDocs. rewrite bind_request.
  cbn [svc rt world fault queue set_queue clock matches] in *.
  destruct (f (OpQueryQueue (OwnSearching (uid user)))) as [e|] eqn:Eq.
  { apply Hnil. by left. }
  run. fold (upsertSnapshot (uid user) q).
  destruct (upsertSnapshot (uid user) q) as [|[k0 d0] rest] eqn:EL.
  - run. unfold addDoc. rewrite bind_request. cbn [world fault queue].
    destruct (f OpAddQueue) as [e|] eqn:Ea.
    { apply Hnil. by left. }
    run. apply Hnil. right. eexists _, _. split; [reflexivity|]. split; [reflexivity|].
    by split.
  - cbv beta iota. rewrite <- EL. clear k0 d0 rest EL.
    set (L := upsertSnapshot (uid user) q).
    destruct (newestLoop_spec L (None, 0)) as [[[Hr _]|(k & d & Hin & Hr & _)] _];
      rewrite Hr; cbn [fst].
    { rewrite bind_ret. apply Hfin. by left. }
    apply elem_of_upsertSnapshot in Hin as [Hk [Hu Hs]].
    destruct (is_set (Some k)).
    2:{ rewrite bind_ret. apply Hfin. by left. }
    unfold bind at 1. unfold try_catch. run. unfold updateDoc. rewrite bind_request.
    cbn [world fault queue].
    destruct (f (OpUpdateQueue k)) as [e|] eqn:Eu.
    + run. unfold addDoc. rewrite bind_request. cbn [world fault queue].
      destruct (f OpAddQueue) as [e'|] eqn:Ea.
      { apply Hnil. by left. }
      run. apply Hfin. right. eexists _, _. split; [reflexivity|]. split; [reflexivity|].
      by split.
    + run. rewrite Hk. run. apply Hfin. right. eexists _, _.
      split; [reflexivity|]. split; [reflexivity|]. by split.
Qed.

(** X12.  What [upsertQueueEntry] writes.  Whatever the store answers, a
    queue document found after the call was either there before, unchanged,
    or is the document whose id the call returns, and that one is a
    [searching] entry of the principal: the call writes at most one
    document, its own, and no match document. *)
Theorem upsert_writes_own_entry (user : User) (st : State) :
  let st' := exec (upsertQueueEntry user) st in
  (forall k d,
     queue (world st') !! k = Some d ->
     queue (world st) !! k = Some d
     \/ (result (upsertQueueEntry user) st = Ok (Some k) /\ searchingOf (uid user) d))
  /\ matches (world st') = matches (world st)
  /\ svc st' = svc st
  /\ rt st' = rt st.
Proof.
  cbv zeta. unfold exec, result.
  destruct (upsert_writes user st) as (r & q1 & ids & -> & H). simpl.
  split; [|done].
  intros k d Hk. destruct (decide (k ∈ ids)) as [Hin | Hnin].
  { rewrite lookup_foldr_delete in Hk by done. discriminate. }
  rewrite lookup_foldr_delete_not_elem_of in Hk by done.
  destruct H as [-> | (id & e & -> & -> & He)]; [by left|].
  destruct (decide (id = k)) as [-> | Hne].
  - rewrite lookup_insert_eq in Hk. injection Hk as <-. by right.
  - rewrite lookup_insert_ne in Hk by done. by left.
Qed.

(** ** Joining a quiet queue *)

Lemma scanLoop_skips u docs st :
  (forall id d, (id, d) ∈ docs -> Some id = currentQueueId (svc st) \/ qd_userId d = Some u) ->
  scanLoop u docs st = (Ok tt, st).
Proof.
  induction docs as [|[id d] rest IH]; intros H; simpl; [done|].
  run. destruct (isMatched (svc st) || isCreatingMatch (svc st)); [done|].
  assert (IH' : scanLoop u rest st = (Ok tt, st)).
  { apply IH. intros i x Hi. apply H. by right. }
  destruct (bool_decide (Some id = currentQueueId (svc st))) eqn:E1; [done|].
  destruct (bool_decide (qd_userId d = Some u)) eqn:E2; [done|].
  apply bool_decide_eq_false_1 in E1. apply bool_decide_eq_false_1 in E2.
  destruct (H id d); [by left|done..].
Qed.

Lemma startHeartbeat_spec st :
  startHeartbeat st =
    (Ok tt,
     mkState (set_heartbeatInterval (Some (fresh (timers (rt st)))) (svc st))
       (set_timers (timers (rt st) ∪ {[fresh (timers (rt st))]}) (rt st))
       (world st)).
Proof. reflexivity. Qed.

(** What a join on a quiet queue does, with what the next join needs:
    the queue is quiet again afterwards, and when the user had one
    [searching] entry that the cleanup pass does not find stale, that entry
    is the one the service tracks. *)
Lemma joinQueue_quiet (user : User) (jitter : Z) (st : State) :
  quietFor user st ->
  let st' := exec (joinQueue None jitter) st in
  let joined := clock (world st) + 2000 in
  (  result (joinQueue None jitter) st = Ok tt
   /\ onError_calls (rt st') = onError_calls (rt st)
   /\ onMatchFound_calls (rt st') = onMatchFound_calls (rt st)
   /\ isMatched (svc st') = false
   /\ isJoiningQueue (svc st') = false
   /\ joinedAt (svc st') = Some joined
   /\ currentUserId (svc st') = Some (uid user)
   /\ clock (world st') = joined + jitter
   /\ (exists id, currentQueueId (svc st') = Some id /\ id ≠ ""
                  /\ onlyFreshEntry (uid user) joined (queue (world st')) id)
   /\ (exists t, heartbeatInterval (svc st') = Some t /\ t ∈ timers (rt st'))
   /\ (exists s1 s2 s3 cell,
         matchListener (svc st') = Some [s1; s2]
         /\ queueListener (svc st') = Some [s3]
         /\ subscriptions (rt st') !! s1 = Some (MatchCallback joined cell)
         /\ subscriptions (rt st') !! s2 = Some (MatchCallback joined cell)
         /\ subscriptions (rt st') !! s3 = Some (QueueCallback (uid user))
         /\ cells (rt st') !! cell = Some false)
   /\ (forall k m, matches (world st') !! k = Some m -> matches (world st) !! k = Some m))
  /\ auth_currentUser (rt st') = Some user
  /\ fault (world st') = fault (world st)
  /\ queue (world st') !! "" = None
  /\ (forall k d, queue (world st') !! k = Some d -> qd_status d = searching ->
                  qd_userId d = Some (uid user))
  /\ (forall id0 e0,
        queue (world st) !! id0 = Some e0 ->
        searchingOf (uid user) e0 ->
        abandoned (clock (world st)) e0 = false ->
        (forall k d, queue (world st) !! k = Some d -> searchingOf (uid user) d -> k = id0) ->
        currentQueueId (svc st') = Some id0).
Proof.
  intros (Hau & Hj & Hno & Hempty & Hst & Hquiet). cbv zeta. unfold exec, result.
  destruct (joinQueue None jitter st) as [res stf] eqn:E. cbn [fst snd]. revert E.
  unfold joinQueue. rewrite (bind_run _ _ _ _ _ (waitForAuth_signed_in user None 5000 st Hau)).
  rewrite bind_this, Hj. run. unfold try_finally, try_catch.
  rewrite (bind_run _ _ _ _ _ (cleanupEverything_spec _)).
  cbn [world set_isJoiningQueue set_isMatched set_isCreatingMatch set_currentUserId svc rt].
  rewrite !Hno.
  match goal with
  | |- context [mkWorld ?a ?b _ _] => set (q1 := a); set (m1 := b)
  end.
  assert (Hq1 : forall k d, q1 !! k = Some d -> queue (world st) !! k = Some d)
    by (intros k d; apply lookup_foldr_delete_Some).
  assert (Hm1 : forall k m, m1 !! k = Some m -> matches (world st) !! k = Some m)
    by (intros k m; apply lookup_foldr_delete_Some).
  assert (Hkeep : forall k d, queue (world st) !! k = Some d ->
                              abandoned (clock (world st)) d = false -> q1 !! k = Some d).
  { intros k d Hk Ha. subst q1. rewrite lookup_foldr_delete_not_elem_of; [done|].
    intros Hin. apply deletable_subseteq, elem_of_filter_keys in Hin as (d' & Hd' & Ha').
    congruence. }
  clearbody q1 m1. norm.
  unfold sleep. run. norm.
  unfold setupMatchListeners. run. norm.
  unfold onSnapshot. run. norm.
  unfold setupQueueListener, onSnapshot. run. norm.
  set (cell := fresh (dom (cells (rt st)))).
  set (joined := clock (world st) + 2000).
  set (s1 := fresh (dom (subscriptions (rt st)))).
  set (subs1 := <[s1 := MatchCallback joined cell]> (subscriptions (rt st))).
  set (s2 := fresh (dom subs1)).
  set (subs2 := <[s2 := MatchCallback joined cell]> subs1).
  set (s3 := fresh (dom subs2)).
  set (subs3 := <[s3 := QueueCallback (uid user)]> subs2).
  match goal with
  | |- context [bind (upsertQueueEntry user) _ ?s] =>
      destruct (upsert_once user s) as (qid & q' & Hup & Hqid & Hq'e & Hups);
        [exact Hno
        |cbn [world queue]; destruct (q1 !! "") as [d|] eqn:Ee; [|done];
         apply Hq1 in Ee; congruence
        |intros k d Hk Hs; apply (Hst k d); [by apply Hq1|done]
        |];
      destruct (upsert_writes user s) as (r & qw & ids & Hw & Hwr)
  end.
  rewrite Hup in Hw. cbn [svc rt world queue set_queue] in Hw, Hwr.
  injection Hw as <- ->.
  assert (Hconv : forall k d, foldr delete qw ids !! k = Some d -> k = qid \/ q1 !! k = Some d).
  { intros k d Hk. apply lookup_foldr_delete_Some in Hk.
    destruct Hwr as [-> | (id' & e & -> & [= <-] & _)]; [by right|].
    destruct (decide (k = qid)) as [-> | Hne]; [by left|].
    right. by rewrite lookup_insert_ne in Hk. }
  rewrite (bind_run _ _ _ _ _ Hup). run. norm.
  match goal with
  | |- context [bind (scanQueueForOpponents (uid user)) _ ?s] =>
      pose (stS := s); assert (Hscan : scanQueueForOpponents (uid user) s = (Ok tt, s))
  end.
  { unfold scanQueueForOpponents. rewrite bind_this.
    cbn [svc currentQueueId isMatched isCreatingMatch].
    rewrite (proj2 (is_set_Some qid) Hqid). cbn [negb orb]. unfold try_catch.
    rewrite (bind_run _ _ _ _ _ (getDocs_eq _ stS (Hno _))).
    subst stS. rewrite scanLoop_skips; [done|].
    intros k d Hin. cbn [svc currentQueueId world queue] in Hin |- *.
    rewrite list_elem_of_In, filter_In, <- list_elem_of_In, elem_of_map_to_list in Hin.
    destruct Hin as [Hk Hs]. apply bool_decide_eq_true_1 in Hs. simpl in Hs.
    destruct (Hconv k d Hk) as [-> | Hk1]; [by left|].
    right. apply (Hquiet k d); [by apply Hq1|done]. }
  clear stS. rewrite (bind_run _ _ _ _ _ Hscan). rewrite startHeartbeat_spec, update_eq. norm.
  intros [= <- <-]. norm.
  assert (F2 : subs1 !! s2 = None) by apply not_elem_of_dom, is_fresh.
  assert (F3 : subs2 !! s3 = None) by apply not_elem_of_dom, is_fresh.
  subst subs2 subs1.
  apply lookup_insert_None in F2 as [_ H12].
  apply lookup_insert_None in F3 as [F3 H23].
  apply lookup_insert_None in F3 as [_ H13].
  split.
  2:{ split; [done|]. split; [done|]. split; [done|]. split.
      - intros k d Hk Hs. destruct (Hconv k d Hk) as [-> | Hk1].
        + destruct Hups as [[(e & He & [Hu _] & _) _] _]. congruence.
        + apply (Hquiet k d); [by apply Hq1|done].
      - intros id0 e0 H0 Hs0 Hna Huniq. f_equal.
        destruct Hups as (_ & _ & _ & Hsome).
        destruct Hsome as (d0 & Hd0 & Hsd0 & _); [exists id0, e0; split; [by apply Hkeep|done]|].
        apply (Huniq qid d0); [by apply Hq1|done]. }
  repeat (split; [done|]).
  split.
  { exists qid. split; [done|]. split; [done|]. by destruct Hups as [Hfresh _]. }
  split.
  { exists (fresh (timers (rt st))). split; [done|].
    apply elem_of_union_r, elem_of_singleton. done. }
  split; [|exact Hm1].
  exists s1, s2, s3, cell. split; [done|]. split; [done|].
  subst subs3.
  split; [by rewrite !lookup_insert_ne, lookup_insert_eq by done|].
  split; [by rewrite lookup_insert_ne, lookup_insert_eq by done|].
  split; by rewrite lookup_insert_eq.
Qed.

(** X13.  Joining a quiet queue.  A signed-in user joins while the store
    refuses nothing and nobody else is searching (the user's own earlier
    entries carry the timestamps the service writes).  Then [joinQueue]
    returns without calling [onError]; the service tracks an entry that is
    the one and only [searching] entry of the user, written at [joinedAt]
    (2 s after the call); the heartbeat timer runs; both match callbacks
    and the queue callback are subscribed, the match callbacks with
    [joinedAt] and a clear flag; no match was created; and
    [isJoiningQueue] is clear again. *)
Theorem joinQueue_enqueues (user : User) (jitter : Z) (st : State) :
  auth_currentUser (rt st) = Some user ->
  isJoiningQueue (svc st) = false ->
  (forall op, fault (world st) op = None) ->
  queue (world st) !! "" = None ->
  stamped (uid user) (queue (world st)) ->
  (forall k d, queue (world st) !! k = Some d -> qd_status d = searching ->
               qd_userId d = Some (uid user)) ->
  let st' := exec (joinQueue None jitter) st in
  let joined := clock (world st) + 2000 in
  result (joinQueue None jitter) st = Ok tt
  /\ onError_calls (rt st') = onError_calls (rt st)
  /\ onMatchFound_calls (rt st') = onMatchFound_calls (rt st)
  /\ isMatched (svc st') = false
  /\ isJoiningQueue (svc st') = false
  /\ joinedAt (svc st') = Some joined
  /\ currentUserId (svc st') = Some (uid user)
  /\ clock (world st') = joined + jitter
  /\ (exists id, currentQueueId (svc st') = Some id /\ id ≠ ""
                 /\ onlyFreshEntry (uid user) joined (queue (world st')) id)
  /\ (exists t, heartbeatInterval (svc st') = Some t /\ t ∈ timers (rt st'))
  /\ (exists s1 s2 s3 cell,
        matchListener (svc st') = Some [s1; s2]
        /\ queueListener (svc st') = Some [s3]
        /\ subscriptions (rt st') !! s1 = Some (MatchCallback joined cell)
        /\ subscriptions (rt st') !! s2 = Some (MatchCallback joined cell)
        /\ subscriptions (rt st') !! s3 = Some (QueueCallback (uid user))
        /\ cells (rt st') !! cell = Some false)
  /\ (forall k m, matches (world st') !! k = Some m -> matches (world st) !! k = Some m).
Proof.
  intros Hau Hj Hno Hempty Hst Hquiet.
  by destruct (joinQueue_quiet user jitter st) as [H _].
Qed.

Lemma joinQueue_enqueues_witness :
  exists id,
    currentQueueId (svc (exec (joinQueue None 50) Scenario3.aliceAlone)) = Some id
    /\ onlyFreshEntry "alice" (Scenario.now0 + 2000)
         (queue (world (exec (joinQueue None 50) Scenario3.aliceAlone))) id.
Proof.
  destruct (joinQueue_enqueues Scenario.alice 50 Scenario3.aliceAlone)
    as (_ & _ & _ & _ & _ & _ & _ & _ & (id & H1 & _ & H2) & _).
  - reflexivity.
  - reflexivity.
  - intros op. reflexivity.
  - reflexivity.
  - intros k d Hk. unfold Scenario3.aliceAlone in Hk. cbn [world queue] in Hk.
    by rewrite lookup_empty in Hk.
  - intros k d Hk. unfold Scenario3.aliceAlone in Hk. cbn [world queue] in Hk.
    by rewrite lookup_empty in Hk.
  - exists id. split; [exact H1 | exact H2].
Defined.

(** ** Joining twice *)

(** C7, as the code has it.  On a store that accepts the requests, and
    when the [searching] entries of the principal carry the positive
    timestamps the service writes, one call of [upsertQueueEntry] returns
    an id and leaves exactly one [searching] entry of the principal, with
    [timestamp = lastHeartbeat = now]: when the principal had entries, it
    is the one with the greatest timestamp, refreshed in place (new
    heartbeat, timestamp, status and session id, the other fields kept),
    and all the others are deleted; when it had none, it is a new entry;
    entries of other principals are untouched.  A second call, any time
    later, refreshes and returns the same entry.  And when the queue is
    quiet for the principal (nobody else is searching), two whole
    [joinQueue] calls, the second right after the first, leave exactly one
    fresh [searching] entry of the principal: the entry that the first
    call tracks is the entry that the second call refreshes and
    tracks. *)
Theorem upsert_idempotent (user : User) (st : State) (dt : Z) :
  (forall op, fault (world st) op = None) ->
  0 < clock (world st) ->
  queue (world st) !! "" = None ->
  stamped (uid user) (queue (world st)) ->
  let now := clock (world st) in
  let st1 := exec (upsertQueueEntry user) st in
  let st1' := exec (sleep dt) st1 in
  let st2 := exec (upsertQueueEntry user) st1' in
  (exists id,
     result (upsertQueueEntry user) st = Ok (Some id)
     /\ upserted user now (queue (world st)) (queue (world st1)) id
     /\ result (upsertQueueEntry user) st1' = Ok (Some id)
     /\ onlyFreshEntry (uid user) (now + dt) (queue (world st2)) id
     /\ (exists e, queue (world st1) !! id = Some e
                   /\ queue (world st2) !! id = Some (refreshEntry user (now + dt) e)))
  /\ (forall jitter jitter',
        quietFor user st ->
        0 <= jitter <= 30000 ->
        let joined := exec (joinQueue None jitter) st in
        let rejoined := exec (joinQueue None jitter') joined in
        exists id,
          currentQueueId (svc joined) = Some id
          /\ onlyFreshEntry (uid user) (now + 2000) (queue (world joined)) id
          /\ currentQueueId (svc rejoined) = Some id
          /\ onlyFreshEntry (uid user) (now + 4000 + jitter) (queue (world rejoined)) id).
Proof.
  intros Hf Hc Hempty Hst now st1 st1' st2. split.
  2:{ intros jitter jitter' Hq Hj joined rejoined.
      destruct (joinQueue_quiet user jitter st Hq)
        as ((_ & _ & _ & _ & Hjq & _ & _ & Hclock & (id & Hid & Hne & Hfresh) & _)
            & Hau & Hfa & Hem & Hqu & _).
      fold joined in Hjq, Hclock, Hid, Hfresh, Hau, Hfa, Hem, Hqu. fold now in Hclock, Hfresh.
      pose proof Hfresh as [(e & He & Hse & Hts & Hlh) Huniq].
      assert (Hq1 : quietFor user joined).
      { split; [done|]. split; [done|]. split; [by rewrite Hfa|]. split; [done|].
        split; [|done].
        intros k d Hk Hs. rewrite (Huniq k d Hk Hs) in Hk. simplify_eq. rewrite Hts. simpl.
        destruct (Z.eqb_spec (now + 2000) 0); lia. }
      destruct (joinQueue_quiet user jitter' joined Hq1)
        as ((_ & _ & _ & _ & _ & _ & _ & _ & (id2 & Hid2 & _ & Hfresh2) & _)
            & _ & _ & _ & _ & Hsame).
      fold rejoined in Hid2, Hfresh2, Hsame.
      assert (Hid2' : currentQueueId (svc rejoined) = Some id).
      { apply (Hsame id e He Hse); [|exact Huniq].
        unfold abandoned. rewrite Hlh, Hts, Hclock. unfold JS.or_num, JS.truthy.
        destruct (Z.eqb_spec (now + 2000) 0) as [E | E]; simpl; apply Z.ltb_ge; lia. }
      assert (id2 = id) as -> by congruence.
      exists id. split; [done|]. split; [done|]. split; [done|].
      rewrite Hclock in Hfresh2. by replace (now + 4000 + jitter) with (now + 2000 + jitter + 2000) by lia. }
  destruct (upsert_once user st Hf Hempty Hst) as (id & q1 & Hrun & Hne & Hempty1 & Hup).
  assert (Hst1 : st1 = mkState (svc st) (rt st) (set_queue q1 (world st)))
    by (subst st1; unfold exec; by rewrite Hrun).
  assert (Hst1' : st1' = mkState (svc st) (rt st)
                           (mkWorld q1 (matches (world st)) (now + dt) (fault (world st))))
    by (subst st1'; rewrite Hst1; reflexivity).
  pose proof Hup as (Honly & _).
  destruct (upsert_once user st1') as (id2 & q2 & Hrun2 & _ & _ & Hup2).
  { rewrite Hst1'. exact Hf. }
  { rewrite Hst1'. exact Hempty1. }
  { rewrite Hst1'. cbn [world queue]. intros k d Hk Hs.
    destruct Honly as [(e & He & _ & Hts & _) Huniq].
    rewrite (Huniq k d Hk Hs) in Hk. simplify_eq. rewrite Hts. simpl.
    fold now. destruct (Z.eqb_spec now 0); lia. }
  assert (Hclock : clock (world st1') = now + dt) by (by rewrite Hst1').
  assert (Hq1 : queue (world st1') = q1) by (by rewrite Hst1').
  rewrite Hclock, Hq1 in Hup2.
  destruct Hup2 as (Honly2 & _ & _ & Hsome2).
  destruct Honly as [(e & He & Hse & Hts & Hlh) Huniq].
  destruct Hsome2 as (d0 & Hd0 & Hsd0 & _ & Hq2 & _); [by exists id, e|].
  assert (id2 = id) as -> by (by apply (Huniq id2 d0)).
  assert (Hq2' : queue (world st2) = q2) by (subst st2; unfold exec; by rewrite Hrun2).
  exists id. unfold result. rewrite Hrun, Hrun2, Hq2', Hst1. cbn [fst world queue set_queue].
  split; [done|]. split; [done|]. split; [done|]. split; [done|].
  exists e. split; [done|]. by simplify_eq.
Qed.

Lemma upsert_idempotent_witness :
  exists id,
    result (upsertQueueEntry Scenario.alice) Scenario3.aliceRejoins = Ok (Some id)
    /\ onlyFreshEntry "alice" (Scenario.now0 + 40)
         (queue (world (exec (upsertQueueEntry Scenario.alice)
                          (exec (sleep 40)
                             (exec (upsertQueueEntry Scenario.alice) Scenario3.aliceRejoins)))))
         id.
Proof.
  destruct (upsert_idempotent Scenario.alice Scenario3.aliceRejoins 40)
    as [(id & H1 & _ & _ & H2 & _) _].
  - reflexivity.
  - reflexivity.
  - reflexivity.
  - intros k d Hk [Hu _].
    assert (d = Scenario.entry Scenario.alice (Some 1000) (Scenario.now0 - 90000)
            \/ d = Scenario.entry Scenario.alice (Some 1000) (Scenario.now0 - 2000)) as Hd.
    { revert Hk. unfold Scenario3.aliceRejoins, Scenario3.queueTwo, Scenario.queue0.
      cbn [world queue]. rewrite !lookup_insert_Some, lookup_empty.
      intros [[_ <-]|[_ [[_ <-]|[_ [[_ <-]|[_ ?]]]]]]; try discriminate; auto. }
    destruct Hd as [-> | ->]; vm_compute; reflexivity.
  - exists id. split; [exact H1|exact H2].
Defined.

(** C7 as stated fails: when the store refuses the update of the newest
    entry, the fallback of [upsertQueueEntry] creates a new entry and
    deletes every earlier entry of the principal, the newest one included,
    so the newest entry is not refreshed in place and the id returned is
    not the id of a surviving earlier entry. *)
Lemma upsert_not_in_place_counterexample :
  let st := Scenario5.aliceNoUpdates in
  let st' := exec (upsertQueueEntry Scenario.alice) st in
  ~ (exists id,
       result (upsertQueueEntry Scenario.alice) st = Ok (Some id)
       /\ upserted Scenario.alice (clock (world st)) (queue (world st)) (queue (world st')) id).
Proof.
  intros st st' (id & Hr & _ & _ & _ & Hsome).
  vm_compute in Hr. injection Hr as <-.
  destruct Hsome as (d0 & Hd0 & _).
  - exists "qa", (Scenario.entry Scenario.alice (Some 1000) (Scenario.now0 - 2000)).
    split; [reflexivity|]. split; reflexivity.
  - vm_compute in Hd0. discriminate Hd0.
Qed.

(** ** The heartbeat timer *)

(** X14.  Starting and stopping the heartbeat.  [startHeartbeat] registers
    a timer that was not registered before and records it.  When no
    heartbeat was running, stopping it again restores the state exactly.
    When one was running, [startHeartbeat] overwrites the record without
    clearing that timer: after [stopHeartbeat] the earlier timer is still
    registered and the service holds no reference to it. *)
Theorem heartbeat_timer_round_trip (st : State) :
  let started := exec startHeartbeat st in
  let stopped := exec stopHeartbeat started in
  (exists t, heartbeatInterval (svc started) = Some t
             /\ (t ∉ timers (rt st))
             /\ timers (rt started) = timers (rt st) ∪ {[t]})
  /\ heartbeatInterval (svc stopped) = None
  /\ timers (rt stopped) = timers (rt st)
  /\ (heartbeatInterval (svc st) = None -> stopped = st)
  /\ (forall t0, heartbeatInterval (svc st) = Some t0 -> t0 ∈ timers (rt st) ->
                 t0 ∈ timers (rt stopped)).
Proof.
  cbv zeta. unfold exec. rewrite startHeartbeat_spec. cbn [snd].
  rewrite stopHeartbeat_spec. cbn [snd svc rt set_heartbeatInterval heartbeatInterval].
  pose proof (is_fresh (timers (rt st))) as Hf.
  assert (Ht : (timers (rt st) ∪ {[fresh (timers (rt st))]}) ∖ {[fresh (timers (rt st))]}
               = timers (rt st)).
  { apply set_eq. intros x. rewrite elem_of_difference, elem_of_union, !elem_of_singleton.
    split; [intros [[H | H] Hn]; [done | contradiction]|].
    intros H. split; [by left|]. intros ->. contradiction. }
  split; [by eexists|]. split; [done|]. simpl. split; [exact Ht|]. split.
  - intros Hn. destruct st as [[cq cu ml ql im hb ij ic ja sp] [au tm sb ce mf oe] w].
    simpl in *. subst hb. by rewrite Ht.
  - intros t0 _ Hin. by rewrite Ht.
Qed.

(** * The small services *)

(** ** [InputService] *)

Lemma input_dispatch_key_pressed k e s :
  InputService.isKeyPressed k (InputService.dispatch s e) = true <->
  InputService.isKeyPressed k s = true
  \/ (e = InputService.KeyDown k /\ InputService.isKeyDown k s = false).
Proof.
  unfold InputService.isKeyPressed, InputService.isKeyDown.
  destruct e as [c | c | b | b]; simpl;
    try (split; [by left | by intros [? | [? _]]]).
  destruct (decide (c = k)) as [-> | Hne].
  - destruct (default false (InputService.keys s !! k)) eqn:Ed; simpl.
    + split; [by left | by intros [? | [_ ?]]].
    + rewrite lookup_insert_eq. simpl. split; [by right | done].
  - split.
    + intros H. left. destruct (negb _); [by rewrite lookup_insert_ne in H | done].
    + intros [H | [[= ->] _]]; [|done].
      destruct (negb _); [by rewrite lookup_insert_ne | done].
Qed.

Lemma input_dispatch_key_down k e s :
  InputService.isKeyDown k (InputService.dispatch s e) =
    if decide (e = InputService.KeyDown k) then true
    else if decide (e = InputService.KeyUp k) then false
    else InputService.isKeyDown k s.
Proof.
  unfold InputService.isKeyDown.
  destruct e as [c | c | b | b]; simpl; repeat case_decide; simplify_eq;
    rewrite ?lookup_insert_eq; try done;
    rewrite lookup_insert_ne by congruence; done.
Qed.

Lemma input_frame_snoc evs e s :
  InputService.frame (evs ++ [e]) s = InputService.dispatch (InputService.frame evs s) e.
Proof. unfold InputService.frame. by rewrite fold_left_app. Qed.

(** X15.  Key presses are edge-triggered.  In the frame that follows a call
    of [update], [isKeyPressed k] holds exactly when some [keydown] event
    for [k] of that frame arrived while [k] was not down. *)
Theorem key_pressed_iff_rising_edge (k : string) (evs : list InputService.DomEvent)
    (s : InputService.Input) :
  InputService.isKeyPressed k (InputService.frame evs s) = true <->
  exists before after,
    evs = before ++ InputService.KeyDown k :: after
    /\ InputService.isKeyDown k (InputService.frame before s) = false.
Proof.
  induction evs as [|e l IH] using rev_ind.
  - split; [done|]. intros (before & after & H & _). by destruct before.
  - rewrite input_frame_snoc, input_dispatch_key_pressed, IH. split.
    + intros [(before & after & -> & Hd) | [-> Hd]].
      * exists before, (after ++ [e]). by rewrite <- app_assoc.
      * by exists l, [].
    + intros (before & after & H & Hd).
      destruct after as [|e' after' _] using rev_ind.
      * apply app_inj_tail in H as [-> ->]. by right.
      * left. exists before, after'. split; [|done].
        change (l ++ [e] = before ++ (InputService.KeyDown k :: after') ++ [e']) in H.
        rewrite app_assoc in H. by apply app_inj_tail in H as [-> _].
Qed.

(** X16.  A held key is not pressed again.  When [k] is down at the start
    of a frame and no [keyup] for [k] arrives, then whatever else arrives
    (repeated [keydown] events for [k] included) [k] stays down and
    [isKeyPressed k] stays false. *)
Theorem held_key_not_pressed_again (k : string) (evs : list InputService.DomEvent)
    (s : InputService.Input) :
  InputService.isKeyDown k s = true ->
  InputService.KeyUp k ∉ evs ->
  InputService.isKeyDown k (InputService.frame evs s) = true
  /\ InputService.isKeyPressed k (InputService.frame evs s) = false.
Proof.
  intros Hd. induction evs as [|e l IH] using rev_ind; intros Hn.
  - split; [done|]. unfold InputService.isKeyPressed. simpl. by rewrite lookup_empty.
  - destruct IH as [IH1 IH2].
    { intros H. apply Hn, elem_of_app. by left. }
    rewrite input_frame_snoc. split.
    + rewrite input_dispatch_key_down. case_decide; [done|].
      case_decide; [|done]. subst e. exfalso. apply Hn, elem_of_app. right. by left.
    + apply not_true_is_false. rewrite input_dispatch_key_pressed.
      intros [H | [_ H]]; congruence.
Qed.

Lemma held_key_witness :
  InputService.isKeyPressed "Space"
    (InputService.frame [InputService.KeyDown "Space"; InputService.KeyDown "Space"]
       (InputService.onKeyDown "Space" InputService.initial)) = false.
Proof.
  apply (held_key_not_pressed_again "Space"
           [InputService.KeyDown "Space"; InputService.KeyDown "Space"]
           (InputService.onKeyDown "Space" InputService.initial)).
  - reflexivity.
  - intros H. apply elem_of_cons in H as [H | H]; [discriminate|].
    apply elem_of_cons in H as [H | H]; [discriminate|]. by apply elem_of_nil in H.
Defined.

(** ** [EventService] *)

Lemma event_emit_registered {Data} e (d : Data) l :
  EventService.emit Data e d l = map (fun c => (c, d)) (EventService.registered e l).
Proof.
  unfold EventService.emit, EventService.registered. by destruct (l !! e).
Qed.

Lemma event_registered_on e e' c l :
  EventService.registered e' (EventService.on e c l) =
    if decide (e' = e) then EventService.registered e l ++ [c]
    else EventService.registered e' l.
Proof.
  unfold EventService.registered, EventService.on.
  destruct (l !! e) as [cbs|] eqn:El.
  - rewrite bool_decide_eq_true_2 by eauto. cbn [negb]. rewrite El.
    cbn [default from_option id].
    case_decide; subst; [by rewrite lookup_insert_eq|by rewrite lookup_insert_ne].
  - rewrite bool_decide_eq_false_2 by (intros [? ?]; congruence). cbn [negb].
    rewrite lookup_insert_eq. cbn [default from_option id app].
    case_decide; subst.
    + by rewrite lookup_insert_eq.
    + by rewrite !lookup_insert_ne.
Qed.

Lemma event_indexOf_spec c cbs :
  (EventService.indexOf cbs c = -1 /\ (c ∉ cbs) /\ EventService.removeFirst c cbs = cbs)
  \/ (0 <= EventService.indexOf cbs c
      /\ c ∈ cbs
      /\ EventService.splice1 (EventService.indexOf cbs c) cbs
         = EventService.removeFirst c cbs).
Proof.
  induction cbs as [|x rest IH]; simpl.
  - left. split; [done|]. split; [apply not_elem_of_nil|done].
  - case_bool_decide as Hx.
    + subst x. right. split; [done|]. split; [by left|]. done.
    + destruct IH as [(Hi & Hn & Hr) | (Hi & Hin & Hr)].
      * left. rewrite Hi. simpl. split; [done|]. split.
        -- apply not_elem_of_cons. split; [congruence|done].
        -- by rewrite Hr.
      * right. destruct (EventService.indexOf rest c =? -1) eqn:E.
        { apply Z.eqb_eq in E. lia. }
        split; [lia|]. split; [by right|].
        unfold EventService.splice1 in *.
        replace (Z.to_nat (EventService.indexOf rest c + 1))
          with (S (Z.to_nat (EventService.indexOf rest c))) by lia.
        simpl. by rewrite Hr.
Qed.

Lemma event_registered_off e e' c l :
  EventService.registered e' (EventService.off e c l) =
    if decide (e' = e) then EventService.removeFirst c (EventService.registered e l)
    else EventService.registered e' l.
Proof.
  unfold EventService.registered, EventService.off.
  destruct (l !! e) as [cbs|] eqn:El; simpl.
  - destruct (event_indexOf_spec c cbs) as [(Hi & Hn & Hr) | (Hi & Hin & Hr)].
    + rewrite Hi. simpl. case_decide; subst; [by rewrite El, Hr|done].
    + destruct (-1 <? EventService.indexOf cbs c) eqn:E; [|apply Z.ltb_ge in E; lia].
      case_decide; subst.
      * by rewrite lookup_insert_eq, Hr.
      * by rewrite lookup_insert_ne.
  - case_decide; subst; [by rewrite El|done].
Qed.

Lemma event_removeFirst_app c cbs tail :
  c ∉ cbs -> EventService.removeFirst c (cbs ++ c :: tail) = cbs ++ tail.
Proof.
  induction cbs as [|x rest IH]; intros Hn; simpl.
  - by rewrite bool_decide_eq_true_2.
  - apply not_elem_of_cons in Hn as [Hx Hr].
    rewrite bool_decide_eq_false_2 by congruence. by rewrite IH.
Qed.

(** X17.  Callbacks run in the order of registration.  After the callbacks
    [cs] have been registered for [event] one after the other, [emit]
    calls the callbacks registered before and then exactly these, in that
    order, once per registration, each with the data of the call;
    registrations for another event do not show. *)
Theorem emit_in_registration_order {Data : Type} (event : string)
    (cs : list EventService.Callback) (data : Data) (l : EventService.Listeners) :
  let l' := fold_left (fun acc c => EventService.on event c acc) cs l in
  EventService.emit Data event data l'
  = EventService.emit Data event data l ++ map (fun c => (c, data)) cs
  /\ forall other, other ≠ event ->
       EventService.emit Data other data l' = EventService.emit Data other data l.
Proof.
  cbv zeta. revert l. induction cs as [|c rest IH]; intros l; simpl.
  - split; [by rewrite app_nil_r | done].
  - destruct (IH (EventService.on event c l)) as [IH1 IH2]. split.
    + rewrite IH1, !event_emit_registered, event_registered_on.
      rewrite decide_True by done. rewrite List.map_app, <- app_assoc. done.
    + intros other Hne. rewrite IH2 by done.
      rewrite !event_emit_registered, event_registered_on. by rewrite decide_False.
Qed.

(** X18.  [off] undoes one registration.  [off] removes the first
    registration of the callback for the event and nothing else, keeping
    the order of the others.  When the callback is not registered, [off]
    changes nothing; registering it and removing it again leaves every
    [emit] as it was; and after two registrations and one [off] it is
    still called once. *)
Theorem off_removes_first_registration {Data : Type} (event : string)
    (c : EventService.Callback) (data : Data) (l : EventService.Listeners) :
  EventService.emit Data event data (EventService.off event c l)
  = map (fun x => (x, data)) (EventService.removeFirst c (EventService.registered event l))
  /\ (forall other, other ≠ event ->
        EventService.emit Data other data (EventService.off event c l)
        = EventService.emit Data other data l)
  /\ (c ∉ EventService.registered event l ->
      EventService.off event c l = l
      /\ (forall e, EventService.emit Data e data
                      (EventService.off event c (EventService.on event c l))
                    = EventService.emit Data e data l)
      /\ EventService.emit Data event data
           (EventService.off event c
              (EventService.on event c (EventService.on event c l)))
         = EventService.emit Data event data l ++ [(c, data)]).
Proof.
  split; [|split].
  - by rewrite event_emit_registered, event_registered_off, decide_True.
  - intros other Hne.
    by rewrite !event_emit_registered, event_registered_off, decide_False.
  - intros Hn. split; [|split].
    + unfold EventService.off, EventService.registered in *.
      destruct (l !! event) as [cbs|] eqn:El; [|done]. simpl in Hn.
      destruct (event_indexOf_spec c cbs) as [(Hi & _) | (_ & Hin & _)]; [|done].
      by rewrite Hi.
    + intros e. rewrite !event_emit_registered, event_registered_off.
      case_decide as He.
      * subst e. rewrite event_registered_on, decide_True by done.
        by rewrite event_removeFirst_app, app_nil_r.
      * by rewrite event_registered_on, decide_False.
    + rewrite !event_emit_registered, event_registered_off, decide_True by done.
      rewrite !event_registered_on, !decide_True by done.
      rewrite <- app_assoc. simpl. rewrite event_removeFirst_app by done.
      by rewrite List.map_app.
Qed.

(** ** [SceneManager] *)

Lemma scene_loaded_snoc log h :
  SceneManager.loaded (log ++ [h]) =
    match h with
    | SceneManager.Load scene => SceneManager.loaded log ++ [scene]
    | SceneManager.Unload scene => List.remove Nat.eq_dec scene (SceneManager.loaded log)
    end.
Proof. unfold SceneManager.loaded. by rewrite fold_left_app. Qed.

Lemma scene_perform_invariant m op :
  SceneManager.loaded (SceneManager.calls m) = option_list (SceneManager.currentScene m)
  /\ (SceneManager.currentScene m = None <-> SceneManager.currentSceneName m = None) ->
  let m' := SceneManager.perform m op in
  SceneManager.loaded (SceneManager.calls m') = option_list (SceneManager.currentScene m')
  /\ (SceneManager.currentScene m' = None <-> SceneManager.currentSceneName m' = None).
Proof.
  intros [Hl Hn]. destruct op as [name scene | name]; simpl; [done|].
  unfold SceneManager.loadScene.
  destruct (SceneManager.scenes m !! name) as [scene|]; simpl; [|done].
  split; [|done].
  rewrite scene_loaded_snoc.
  destruct (SceneManager.currentScene m) as [cur|]; simpl in *.
  - rewrite scene_loaded_snoc, Hl. simpl. by destruct (Nat.eq_dec cur cur).
  - by rewrite Hl.
Qed.

(** X19.  One scene at a time.  After any sequence of [registerScene] and
    [loadScene] calls (failed loads included) the scenes that were loaded
    and not unloaded since are exactly the current scene, if there is one,
    and the current scene and its name are set together.  From there,
    loading an unknown name throws "Scene ... not found" and changes
    nothing (the current scene is not unloaded), and loading a registered
    name unloads the current scene, if any, then loads the new one, which
    becomes the current scene. *)
Theorem one_scene_loaded (ops : list SceneManager.Op) :
  let m := SceneManager.run ops in
  SceneManager.loaded (SceneManager.calls m) = option_list (SceneManager.currentScene m)
  /\ (SceneManager.currentScene m = None <-> SceneManager.currentSceneName m = None)
  /\ (forall name,
        SceneManager.scenes m !! name = None ->
        SceneManager.loadScene name m
        = (Throw (jsError ("Scene " +:+ name +:+ " not found")), m))
  /\ (forall name scene,
        SceneManager.scenes m !! name = Some scene ->
        let m' := snd (SceneManager.loadScene name m) in
        fst (SceneManager.loadScene name m) = Ok tt
        /\ SceneManager.getCurrentScene m' = Some scene
        /\ SceneManager.getCurrentSceneName m' = Some name
        /\ SceneManager.calls m'
           = SceneManager.calls m
             ++ match SceneManager.currentScene m with
                | Some current => [SceneManager.Unload current]
                | None => []
                end
             ++ [SceneManager.Load scene]
        /\ SceneManager.loaded (SceneManager.calls m') = [scene]).
Proof.
  cbv zeta.
  assert (Hinv : SceneManager.loaded (SceneManager.calls (SceneManager.run ops))
                 = option_list (SceneManager.currentScene (SceneManager.run ops))
                 /\ (SceneManager.currentScene (SceneManager.run ops) = None
                     <-> SceneManager.currentSceneName (SceneManager.run ops) = None)).
  { unfold SceneManager.run. induction ops as [|op l IH] using rev_ind; [done|].
    rewrite fold_left_app. simpl. by apply scene_perform_invariant. }
  destruct Hinv as [Hl Hn]. split; [done|]. split; [done|]. split.
  - intros name Hs. unfold SceneManager.loadScene. by rewrite Hs.
  - intros name scene Hs.
    pose proof (scene_perform_invariant (SceneManager.run ops) (SceneManager.LoadScene name)
                  (conj Hl Hn)) as [Hl' _].
    simpl in Hl'. revert Hl'. unfold SceneManager.loadScene. rewrite Hs. simpl.
    intros Hl'. split; [done|]. split; [done|]. split; [done|]. split; [|done].
    destruct (SceneManager.currentScene (SceneManager.run ops)); simpl.
    + by rewrite <- app_assoc.
    + done.
Qed.

(** ** [NetworkService] *)

Lemma net_plainFrames_snoc {Data} (frames : list (NetworkService.Frame Data)) f :
  NetworkService.plainFrames (frames ++ [f]) =
    NetworkService.plainFrames frames
    ++ match f with
       | NetworkService.Plain type data => [(type, data)]
       | NetworkService.Reliable _ _ _ => []
       end.
Proof.
  unfold NetworkService.plainFrames. rewrite flat_map_app. simpl. by rewrite app_nil_r.
Qed.

Lemma net_reliableIds_snoc {Data} (frames : list (NetworkService.Frame Data)) f :
  NetworkService.reliableIds (frames ++ [f]) =
    NetworkService.reliableIds frames
    ++ match f with
       | NetworkService.Plain _ _ => []
       | NetworkService.Reliable _ _ messageId => [messageId]
       end.
Proof.
  unfold NetworkService.reliableIds. rewrite flat_map_app. simpl. by rewrite app_nil_r.
Qed.

Lemma net_steady_step {N : NetworkService.Numbers} {Data : Type}
    (op : NetworkService.Op N Data) (s : NetworkService.Net N Data) :
  NetworkService.steady op ->
  NetworkService.socket s = Some NetworkService.OPEN ->
  let s' := NetworkService.perform s op in
  NetworkService.socket s' = Some NetworkService.OPEN
  /\ NetworkService.reliableIds (NetworkService.sent s')
     = NetworkService.reliableIds (NetworkService.sent s)
  /\ NetworkService.plainFrames (NetworkService.sent s') ++ NetworkService.messageQueue s'
     = NetworkService.plainFrames (NetworkService.sent s) ++ NetworkService.messageQueue s
       ++ NetworkService.queuedBy [op].
Proof.
  intros Hs Ho. destruct op as [| rs | type data [] | type data | now | type h | type h
                                | message | | r]; try done; simpl.
  - unfold NetworkService.update.
    destruct (NetworkService.ge _ _ && _); [|by rewrite !app_nil_r].
    destruct (NetworkService.messageQueue s) as [|[t d] rest] eqn:Eq;
      [by rewrite Eq, !app_nil_r|].
    unfold NetworkService.sendImmediate, NetworkService.isConnected.
    cbn [NetworkService.socket].
    rewrite bool_decide_eq_true_2 by done. simpl.
    rewrite net_plainFrames_snoc, net_reliableIds_snoc, !app_nil_r.
    split; [done|]. split; [done|]. by rewrite <- app_assoc.
  - by rewrite !app_nil_r.
  - by rewrite !app_nil_r.
  - by rewrite !app_nil_r.
Qed.

(** X20.  Queued messages leave in order.  While the socket is open and the
    program only queues unreliable messages, calls [update] (at any times)
    and changes the send rate or the handlers, the plain frames sent so
    far followed by the messages still queued are exactly the messages
    queued, in the order of the [send] calls: nothing is lost, duplicated
    or reordered, and no reliable frame is sent. *)
Theorem unreliable_messages_fifo {N : NetworkService.Numbers} {Data : Type}
    (ops : list (NetworkService.Op N Data)) (s : NetworkService.Net N Data) :
  Forall NetworkService.steady ops ->
  NetworkService.socket s = Some NetworkService.OPEN ->
  let s' := NetworkService.run ops s in
  NetworkService.plainFrames (NetworkService.sent s') ++ NetworkService.messageQueue s'
  = NetworkService.plainFrames (NetworkService.sent s) ++ NetworkService.messageQueue s
    ++ NetworkService.queuedBy ops
  /\ NetworkService.reliableIds (NetworkService.sent s')
     = NetworkService.reliableIds (NetworkService.sent s)
  /\ NetworkService.socket s' = Some NetworkService.OPEN.
Proof.
  cbv zeta. intros Hall. revert s. induction Hall as [|op rest Hop Hrest IH]; intros s Ho.
  - simpl. by rewrite !app_nil_r.
  - destruct (net_steady_step op s Hop Ho) as (Ho1 & Hr1 & Hp1). cbv zeta in *.
    destruct (IH _ Ho1) as (Hp & Hr & Hs).
    change (NetworkService.run (op :: rest) s)
      with (NetworkService.run rest (NetworkService.perform s op)).
    split; [|split; [congruence|done]].
    rewrite Hp.
    assert (Hq : NetworkService.queuedBy (op :: rest)
                 = NetworkService.queuedBy [op] ++ NetworkService.queuedBy rest).
    { unfold NetworkService.queuedBy. simpl. by rewrite app_nil_r. }
    rewrite Hq, app_assoc, Hp1. by rewrite <- !app_assoc.
Qed.

Lemma unreliable_fifo_witness :
  NetworkService.plainFrames
    (NetworkService.sent (NetworkService.run NetScenario.twoMoves NetScenario.connected))
  ++ NetworkService.messageQueue (NetworkService.run NetScenario.twoMoves NetScenario.connected)
  = [("move", "a"); ("move", "b")].
Proof.
  refine (proj1 (unreliable_messages_fifo NetScenario.twoMoves NetScenario.connected _ _)).
  - repeat constructor.
  - reflexivity.
Defined.

Ltac same :=
  match goal with
  | Hsame : forall s', _ -> _ -> _ -> NetworkService.idsInRange s' /\ _
    |- NetworkService.idsInRange ?x /\ _ => apply (Hsame x)
  end.

Ltac plain :=
  match goal with
  | Hplain : forall type data s0, _ -> _ -> _ -> _
    |- NetworkService.idsInRange (NetworkService.sendImmediate ?t ?d ?x) /\ _ =>
      apply (Hplain t d x)
  end.

Lemma increment_below n : n < JS.maxExact -> JS.increment n = n + 1.
Proof. intros H. unfold JS.increment. apply Z.ltb_lt in H. by rewrite H. Qed.

Lemma increment_ge n : n <= JS.increment n.
Proof. unfold JS.increment. destruct (n <? JS.maxExact); lia. Qed.

(** The counter never goes down, and a reliable frame that a step sends
    carries the value the counter had before the step. *)
Lemma net_later_step {N : NetworkService.Numbers} {Data : Type}
    (op : NetworkService.Op N Data) (s : NetworkService.Net N Data) :
  let s' := NetworkService.perform s op in
  NetworkService.messageIdCounter s <= NetworkService.messageIdCounter s'
  /\ (forall id, id ∈ NetworkService.reliableIds (NetworkService.sent s') ->
                 id ∈ NetworkService.reliableIds (NetworkService.sent s)
                 \/ NetworkService.messageIdCounter s <= id).
Proof.
  cbv zeta. pose proof (increment_ge (NetworkService.messageIdCounter s)) as Hge.
  destruct op as [| rs | type data [] | type data | now | type h | type h
                  | message | | r]; simpl;
    unfold NetworkService.socketState, NetworkService.sendReliable,
      NetworkService.sendImmediate, NetworkService.update, NetworkService.onmessage,
      NetworkService.socketSend;
    repeat match goal with
           | |- context [match ?x with _ => _ end] =>
               destruct x; simpl;
               unfold NetworkService.sendImmediate, NetworkService.socketSend
           end;
    rewrite ?net_reliableIds_snoc, ?app_nil_r;
    (split; [lia|]); intros id Hid; try (by left);
    apply elem_of_app in Hid as [Hid | Hid]; [by left|];
    apply list_elem_of_singleton in Hid; right; lia.
Qed.

Lemma net_later_run {N : NetworkService.Numbers} {Data : Type}
    (ops : list (NetworkService.Op N Data)) (s : NetworkService.Net N Data) :
  let s' := NetworkService.run ops s in
  NetworkService.messageIdCounter s <= NetworkService.messageIdCounter s'
  /\ (forall id, id ∈ NetworkService.reliableIds (NetworkService.sent s') ->
                 id ∈ NetworkService.reliableIds (NetworkService.sent s)
                 \/ NetworkService.messageIdCounter s <= id).
Proof.
  cbv zeta. revert s. induction ops as [|op rest IH]; intros s.
  - split; [done|]. by left.
  - destruct (net_later_step op s) as (Hc1 & Hn1). cbv zeta in *.
    destruct (IH (NetworkService.perform s op)) as (Hc2 & Hn2).
    change (NetworkService.run (op :: rest) s)
      with (NetworkService.run rest (NetworkService.perform s op)).
    split; [lia|].
    intros id Hid. destruct (Hn2 id Hid) as [Hid' | Hge]; [|right; lia].
    destruct (Hn1 id Hid') as [? | ?]; [by left | by right].
Qed.

(** While the counter is below 2^53, a step keeps the ids in range. *)
Lemma net_ids_step {N : NetworkService.Numbers} {Data : Type}
    (op : NetworkService.Op N Data) (s : NetworkService.Net N Data) :
  NetworkService.idsInRange s ->
  NetworkService.messageIdCounter s < JS.maxExact ->
  NetworkService.idsInRange (NetworkService.perform s op).
Proof.
  intros (Hp & Hs & Hnd) Hlt.
  assert (Hsame : forall s' : NetworkService.Net N Data,
            NetworkService.sent s' = NetworkService.sent s ->
            NetworkService.messageIdCounter s' = NetworkService.messageIdCounter s ->
            (forall id, is_Some (NetworkService.reliableMessages s' !! id) ->
                        is_Some (NetworkService.reliableMessages s !! id)) ->
            NetworkService.idsInRange s' /\ True).
  { intros s' E1 E2 E3. unfold NetworkService.idsInRange. rewrite E1, E2.
    split; [|done]. split; [|done]. intros id Hid. by apply Hp, E3. }
  assert (Hplain : forall type data (s0 : NetworkService.Net N Data),
            NetworkService.sent s0 = NetworkService.sent s ->
            NetworkService.messageIdCounter s0 = NetworkService.messageIdCounter s ->
            (forall id, is_Some (NetworkService.reliableMessages s0 !! id) ->
                        is_Some (NetworkService.reliableMessages s !! id)) ->
            NetworkService.idsInRange (NetworkService.sendImmediate type data s0) /\ True).
  { intros type data s0 E1 E2 E3. unfold NetworkService.sendImmediate.
    destruct (NetworkService.isConnected s0); [|by apply (Hsame s0)].
    unfold NetworkService.idsInRange. simpl.
    rewrite net_reliableIds_snoc, app_nil_r, E1, E2.
    split; [|done]. split; [|done]. intros id Hid. by apply Hp, E3. }
  cut (NetworkService.idsInRange (NetworkService.perform s op) /\ True); [tauto|].
  destruct op as [| rs | type data [] | type data | now | type h | type h
                  | message | | r]; simpl.
  - by same.
  - unfold NetworkService.socketState. destruct (NetworkService.socket s); by same.
  - (* a reliable message *)
    split; [|done].
    unfold NetworkService.sendReliable, NetworkService.idsInRange.
    rewrite (increment_below _ Hlt).
    assert (Hfresh : NetworkService.messageIdCounter s
                     ∉ NetworkService.reliableIds (NetworkService.sent s)).
    { intros Hin. apply Hs in Hin. lia. }
    assert (Hpend : forall id,
              is_Some (<[NetworkService.messageIdCounter s := (type, data)]>
                         (NetworkService.reliableMessages s) !! id) ->
              id < NetworkService.messageIdCounter s + 1).
    { intros id Hid. destruct (decide (id = NetworkService.messageIdCounter s)) as [-> | Hne].
      - lia.
      - rewrite lookup_insert_ne in Hid by done. apply Hp in Hid. lia. }
    destruct (NetworkService.isConnected _); simpl.
    + rewrite net_reliableIds_snoc.
      split; [exact Hpend|]. split.
      * intros id Hid. apply elem_of_app in Hid as [Hid | Hid]; [apply Hs in Hid; lia|].
        apply list_elem_of_singleton in Hid. lia.
      * apply NoDup_app. split; [done|]. split; [|apply NoDup_singleton].
        intros id Hid Hid'. apply list_elem_of_singleton in Hid'. by subst id.
    + split; [exact Hpend|]. split; [|done]. intros id Hid. apply Hs in Hid. lia.
  - by same.
  - by plain.
  - unfold NetworkService.update.
    destruct (NetworkService.ge _ _ && _); [|by same].
    destruct (NetworkService.messageQueue s) as [|[t d] rest]; [by same|].
    cbn [fst snd].
    destruct (Hplain t d
                (NetworkService.mkNet (NetworkService.socket s)
                   (NetworkService.messageHandlers s) rest (NetworkService.sendRate s)
                   (NetworkService.lastSendTime s) (NetworkService.reliableMessages s)
                   (NetworkService.messageIdCounter s) (NetworkService.sent s)
                   (NetworkService.handled s)))
      as (Hi & _); [done..|].
    unfold NetworkService.idsInRange in *. simpl. done.
  - by same.
  - by same.
  - unfold NetworkService.onmessage.
    destruct message as [message|]; [|by same].
    destruct (NetworkService.in_messageId message) as [mid|]; [|by same].
    destruct (bool_decide _); [|by same].
    same; [done..|]. simpl. intros id Hid.
    destruct (decide (id = mid)) as [-> | Hne].
    + rewrite lookup_delete_eq in Hid. by destruct Hid.
    + by rewrite lookup_delete_ne in Hid.
  - same; [done..|]. simpl. intros id Hid. rewrite lookup_empty in Hid.
    by destruct Hid.
  - by same.
Qed.

Lemma net_ids_run {N : NetworkService.Numbers} {Data : Type}
    (ops : list (NetworkService.Op N Data)) (s : NetworkService.Net N Data) :
  NetworkService.idsInRange s ->
  NetworkService.messageIdCounter (NetworkService.run ops s) < JS.maxExact ->
  NetworkService.idsInRange (NetworkService.run ops s).
Proof.
  revert s. induction ops as [|op rest IH]; intros s Hi Hlt; [done|].
  change (NetworkService.run (op :: rest) s)
    with (NetworkService.run rest (NetworkService.perform s op)) in *.
  destruct (net_later_run rest (NetworkService.perform s op)) as [Hc2 _].
  destruct (net_later_step op s) as [Hc1 _]. cbv zeta in *.
  apply IH; [|done]. apply net_ids_step; [done|lia].
Qed.

(** X21.  Reliable messages carry fresh ids and are transmitted at most
    once, as long as the counter has not reached 2^53, where a number
    stops counting.  After any sequence of calls and browser events on a
    new service that leaves the counter below 2^53, no message id was sent
    twice, and every pending or sent reliable message has an id below
    [messageIdCounter].  So the next reliable [send] stores its message
    under an id that is not pending, overwriting nothing; and when the
    socket is not open at that moment, the message is stored but no later
    call or event ever transmits it. *)
Theorem reliable_ids_fresh {N : NetworkService.Numbers} {Data : Type}
    (ops : list (NetworkService.Op N Data)) (type : string) (data : Data) :
  NetworkService.messageIdCounter (NetworkService.run ops NetworkService.initial)
  < JS.maxExact ->
  let s := NetworkService.run ops NetworkService.initial in
  let s' := NetworkService.send type data true s in
  NetworkService.idsInRange s
  /\ NetworkService.reliableMessages s !! NetworkService.messageIdCounter s = None
  /\ NetworkService.reliableMessages s'
     = <[NetworkService.messageIdCounter s := (type, data)]> (NetworkService.reliableMessages s)
  /\ (NetworkService.isConnected s = true ->
      NetworkService.sent s'
      = NetworkService.sent s
        ++ [NetworkService.Reliable type data (NetworkService.messageIdCounter s)])
  /\ (NetworkService.isConnected s = false ->
      forall later,
        NetworkService.messageIdCounter s
        ∉ NetworkService.reliableIds (NetworkService.sent (NetworkService.run later s'))).
Proof.
  intros Hlt. cbv zeta.
  assert (Hinit : NetworkService.idsInRange (@NetworkService.initial N Data)).
  { unfold NetworkService.idsInRange. simpl. split; [|split; [|apply NoDup_nil_2]].
    - intros id Hid. rewrite lookup_empty in Hid. by destruct Hid.
    - intros id Hid. by apply elem_of_nil in Hid. }
  pose proof (net_ids_run ops _ Hinit Hlt) as Hi.
  set (s := NetworkService.run ops NetworkService.initial) in *.
  destruct Hi as (Hp & Hs & Hnd).
  assert (Hconn : forall c,
            NetworkService.isConnected
              (NetworkService.mkNet (NetworkService.socket s)
                 (NetworkService.messageHandlers s) (NetworkService.messageQueue s)
                 (NetworkService.sendRate s) (NetworkService.lastSendTime s)
                 (<[NetworkService.messageIdCounter s := (type, data)]>
                    (NetworkService.reliableMessages s))
                 c (NetworkService.sent s) (NetworkService.handled s))
            = NetworkService.isConnected s) by reflexivity.
  split; [done|]. split; [|split; [|split]].
  - destruct (NetworkService.reliableMessages s !! NetworkService.messageIdCounter s) eqn:E;
      [|done].
    assert (NetworkService.messageIdCounter s < NetworkService.messageIdCounter s)
      by (apply Hp; eauto). lia.
  - simpl. unfold NetworkService.sendReliable. by destruct (NetworkService.isConnected _).
  - intros Hc. simpl. unfold NetworkService.sendReliable. by rewrite Hconn, Hc.
  - intros Hc later Hin.
    destruct (net_later_run later (NetworkService.send type data true s)) as (_ & Hn).
    cbv zeta in Hn. apply Hn in Hin. revert Hin. simpl.
    unfold NetworkService.sendReliable. rewrite Hconn, Hc. simpl.
    rewrite (increment_below _ Hlt).
    intros [Hin | Hge]; [|lia].
    apply Hs in Hin. lia.
Qed.

Lemma reliable_ids_witness :
  NetworkService.sent
    (NetworkService.send "fire" "x" true
       (NetworkService.run NetScenario.opening NetworkService.initial))
  = [NetworkService.Reliable "fire" "x" 0].
Proof.
  destruct (reliable_ids_fresh NetScenario.opening "fire" "x") as (_ & _ & _ & H & _).
  - vm_compute. reflexivity.
  - exact (H eq_refl).
Defined.

Lemma net_closed_step {N : NetworkService.Numbers} {Data : Type}
    (op : NetworkService.Op N Data) (s : NetworkService.Net N Data) :
  NetworkService.steady op ->
  NetworkService.socket s ≠ Some NetworkService.OPEN ->
  let s' := NetworkService.perform s op in
  NetworkService.socket s' = NetworkService.socket s
  /\ NetworkService.sent s' = NetworkService.sent s
  /\ exists dropped,
       NetworkService.messageQueue s ++ NetworkService.queuedBy [op]
       = dropped ++ NetworkService.messageQueue s'.
Proof.
  intros Hs Ho. destruct op as [| rs | type data [] | type data | now | type h | type h
                                | message | | r]; try done; simpl;
    try (split; [done|]; split; [done|]; exists []; rewrite ?app_nil_r; done).
  unfold NetworkService.update.
  destruct (NetworkService.ge _ _ && _);
    [|split; [done|]; split; [done|]; exists []; by rewrite app_nil_r].
  destruct (NetworkService.messageQueue s) as [|m rest] eqn:Eq.
  { rewrite Eq. split; [done|]. split; [done|]. by exists []. }
  unfold NetworkService.sendImmediate, NetworkService.isConnected.
  cbn [NetworkService.socket]. rewrite bool_decide_eq_false_2 by done. simpl.
  split; [done|]. split; [done|]. exists [m]. by rewrite app_nil_r.
Qed.

(** X22.  A socket that is not open loses queued messages.  While the
    socket is missing, connecting, closing or closed, queuing, [update]
    and tuning send nothing; the queue that is left is a suffix of the
    messages queued; and every [update] that is due takes the first
    message off the queue although nothing is sent: that message is
    lost. *)
Theorem closed_socket_drops_messages {N : NetworkService.Numbers} {Data : Type}
    (ops : list (NetworkService.Op N Data)) (s : NetworkService.Net N Data) :
  Forall NetworkService.steady ops ->
  NetworkService.socket s ≠ Some NetworkService.OPEN ->
  let s' := NetworkService.run ops s in
  NetworkService.sent s' = NetworkService.sent s
  /\ (exists dropped,
        NetworkService.messageQueue s ++ NetworkService.queuedBy ops
        = dropped ++ NetworkService.messageQueue s')
  /\ (forall now message rest,
        NetworkService.ge (NetworkService.minus now (NetworkService.lastSendTime s'))
          (NetworkService.divide NetworkService.thousand (NetworkService.sendRate s')) = true ->
        NetworkService.messageQueue s' = message :: rest ->
        NetworkService.messageQueue (NetworkService.update now s') = rest
        /\ NetworkService.sent (NetworkService.update now s') = NetworkService.sent s').
Proof.
  cbv zeta. intros Hall Ho.
  assert (H : NetworkService.socket (NetworkService.run ops s) = NetworkService.socket s
              /\ NetworkService.sent (NetworkService.run ops s) = NetworkService.sent s
              /\ exists dropped,
                   NetworkService.messageQueue s ++ NetworkService.queuedBy ops
                   = dropped ++ NetworkService.messageQueue (NetworkService.run ops s)).
  { revert s Ho. induction Hall as [|op rest Hop Hrest IH]; intros s Ho.
    - split; [done|]. split; [done|]. exists []. simpl. by rewrite app_nil_r.
    - destruct (net_closed_step op s Hop Ho) as (Hs1 & Hn1 & d1 & Hd1). cbv zeta in *.
      destruct (IH (NetworkService.perform s op)) as (Hs2 & Hn2 & d2 & Hd2);
        [by rewrite Hs1|].
      change (NetworkService.run (op :: rest) s)
        with (NetworkService.run rest (NetworkService.perform s op)).
      split; [congruence|]. split; [congruence|].
      exists (d1 ++ d2).
      assert (Hq : NetworkService.queuedBy (op :: rest)
                   = NetworkService.queuedBy [op] ++ NetworkService.queuedBy rest).
      { unfold NetworkService.queuedBy. simpl. by rewrite app_nil_r. }
      rewrite Hq, app_assoc, Hd1, <- app_assoc, Hd2. by rewrite app_assoc. }
  destruct H as (Hs & Hn & Hd). split; [done|]. split; [done|].
  intros now message rest Hdue Hq. unfold NetworkService.update.
  rewrite Hdue, Hq. simpl.
  unfold NetworkService.sendImmediate, NetworkService.isConnected.
  cbn [NetworkService.socket]. rewrite bool_decide_eq_false_2 by congruence. done.
Qed.

Lemma closed_socket_witness :
  NetworkService.sent (NetworkService.run NetScenario.twoMoves NetScenario.connecting) = []
  /\ NetworkService.messageQueue
       (NetworkService.run NetScenario.twoMoves NetScenario.connecting) = [].
Proof.
  destruct (closed_socket_drops_messages NetScenario.twoMoves NetScenario.connecting)
    as (H1 & _ & _).
  - repeat constructor.
  - discriminate.
  - split; [exact H1 | reflexivity].
Defined.

(** * Reading and updating one match *)

(** X23.  [updateMatchStatus] and [getMatch].  Neither method throws,
    whatever the store answers.  [updateMatchStatus] touches nothing but
    the [status] field of the one match document it names, and creates no
    document: when the match is missing or the update is refused the store
    is unchanged.  [getMatch] changes nothing and returns the document
    under its id, or [null] when it is missing or the read is refused.
    When the store accepts both requests, [getMatch] after
    [updateMatchStatus] returns the match with the new status. *)
Theorem match_status_round_trip (refuses : MatchOp -> option Error) (matchId : string)
    (status : MatchStatus) (st : State) :
  let st' := exec (updateMatchStatus refuses matchId status) st in
  result (updateMatchStatus refuses matchId status) st = Ok tt
  /\ svc st' = svc st /\ rt st' = rt st /\ queue (world st') = queue (world st)
  /\ (forall k, k ≠ matchId -> matches (world st') !! k = matches (world st) !! k)
  /\ (matches (world st) !! matchId = None \/ refuses (OpUpdateMatch matchId) ≠ None ->
      st' = st)
  /\ (forall st0, exec (getMatch refuses matchId) st0 = st0)
  /\ (forall st0,
        matches (world st0) !! matchId = None \/ refuses (OpGetMatch matchId) ≠ None ->
        result (getMatch refuses matchId) st0 = Ok None)
  /\ (forall m,
        matches (world st) !! matchId = Some m ->
        refuses (OpUpdateMatch matchId) = None ->
        refuses (OpGetMatch matchId) = None ->
        result (getMatch refuses matchId) st' = Ok (Some (matchId, set_status status m))).
Proof.
  cbv zeta.
  assert (Hget : forall st0,
            getMatch refuses matchId st0 =
              (Ok (match refuses (OpGetMatch matchId) with
                   | Some _ => None
                   | None =>
                       match matches (world st0) !! matchId with
                       | Some data => Some (matchId, data)
                       | None => None
                       end
                   end), st0)).
  { intros st0. unfold getMatch, getDoc_match, request_match, try_catch.
    destruct (refuses (OpGetMatch matchId)); [done|].
    run. by destruct (matches (world st0) !! matchId). }
  assert (Hupd : updateMatchStatus refuses matchId status st =
                 (Ok tt,
                  match refuses (OpUpdateMatch matchId), matches (world st) !! matchId with
                  | None, Some m =>
                      mkState (svc st) (rt st)
                        (set_matches (<[matchId := set_status status m]> (matches (world st)))
                           (world st))
                  | _, _ => st
                  end)).
  { unfold updateMatchStatus, updateDoc_match, request_match, try_catch.
    destruct (refuses (OpUpdateMatch matchId)); [done|].
    run. by destruct (matches (world st) !! matchId). }
  unfold exec, result. rewrite Hupd. cbn [fst snd].
  split; [done|].
  assert (G1 : forall st0, snd (getMatch refuses matchId st0) = st0)
    by (intros st0; by rewrite Hget).
  assert (G2 : forall st0,
            matches (world st0) !! matchId = None \/ refuses (OpGetMatch matchId) ≠ None ->
            fst (getMatch refuses matchId st0) = Ok None).
  { intros st0 [Hn | Hr]; rewrite Hget; [|by destruct (refuses (OpGetMatch matchId))].
    rewrite Hn. by destruct (refuses (OpGetMatch matchId)). }
  destruct (refuses (OpUpdateMatch matchId)) as [e|] eqn:Eu.
  - repeat (split; [done|]). by intros m _ [=].
  - destruct (matches (world st) !! matchId) as [m|] eqn:Em.
    + simpl. repeat (split; [done|]).
      split; [intros k Hk; by rewrite lookup_insert_ne|].
      split; [intros [[=] | Hr]; done|].
      repeat (split; [done|]).
      intros m' [= ->] _ Hg. rewrite Hget, Hg. simpl. by rewrite lookup_insert_eq.
    + repeat (split; [done|]). by intros m' [=].
Qed.

(** * Validation of a candidate *)

(** X24.  What [isValidOpponent] decides.  The check never throws and
    changes nothing.  It answers [true] exactly when the candidate is
    another user's entry, is not the entry the service tracks, its
    document can be read and exists, was refreshed at most 30 s ago and is
    [searching]; in every other case, a refused read included, it answers
    [false]. *)
Theorem isValidOpponent_decides (opponent : QueuePlayer) (currentUserId : string)
    (st : State) :
  exec (isValidOpponent opponent currentUserId) st = st
  /\ (result (isValidOpponent opponent currentUserId) st = Ok true
      \/ result (isValidOpponent opponent currentUserId) st = Ok false)
  /\ (result (isValidOpponent opponent currentUserId) st = Ok true <->
      qp_userId opponent ≠ Some currentUserId
      /\ Some (qp_id opponent) ≠ currentQueueId (svc st)
      /\ fault (world st) (OpGetQueue (qp_id opponent)) = None
      /\ exists data,
           queue (world st) !! qp_id opponent = Some data
           /\ entryAge (clock (world st)) data <= 30000
           /\ qd_status data = searching).
Proof.
  unfold exec, result. rewrite isValidOpponent_spec. cbn [fst snd].
  split; [done|]. split; [destruct (validOpponent opponent currentUserId st); auto|].
  unfold validOpponent.
  destruct (decide (qp_userId opponent = Some currentUserId)) as [Hu | Hu].
  { rewrite (bool_decide_eq_true_2 _ Hu). simpl. split; [done | by intros [? _]]. }
  rewrite (bool_decide_eq_false_2 _ Hu).
  destruct (decide (Some (qp_id opponent) = currentQueueId (svc st))) as [Hi | Hi].
  { rewrite (bool_decide_eq_true_2 _ Hi). simpl. split; [done | by intros (_ & ? & _)]. }
  rewrite (bool_decide_eq_false_2 _ Hi). cbn [orb].
  destruct (fault (world st) (OpGetQueue (qp_id opponent))) as [e|] eqn:Ef.
  { split; [done | by intros (_ & _ & ? & _)]. }
  destruct (queue (world st) !! qp_id opponent) as [data|] eqn:Eq.
  2:{ split; [done | by intros (_ & _ & _ & d & ? & _)]. }
  destruct (30000 <? entryAge (clock (world st)) data) eqn:Ea.
  { apply Z.ltb_lt in Ea. split; [done|]. intros (_ & _ & _ & d & [= <-] & Hd & _). lia. }
  apply Z.ltb_ge in Ea. split.
  - intros [= Hs]. apply bool_decide_eq_true_1 in Hs.
    split; [done|]. split; [done|]. split; [done|]. by exists data.
  - intros (_ & _ & _ & d & [= <-] & _ & Hs). by rewrite (bool_decide_eq_true_2 _ Hs).
Qed.
